(** * mshell: the line dispatcher, pipeline executor and process launcher

    A shallow embedding of [shell/src/mshell.c].  The parsed line is kept
    the way the C code has it where the code mutates it (the circular list
    of [pipelineseq] nodes lives in a heap of nodes indexed by address);
    the circular lists that are only traversed ([commandseq], [argseq],
    [redirseq]) are sequences, a [NULL] list being the empty sequence.
    System calls act on an explicit model of the process and of the
    operating system. *)

From stdpp Require Import gmap strings list fin_maps.
From Stdlib Require Import ZArith Lia.

Open Scope Z_scope.

(** ** The parsed line (siparse.h) *)

Record redir := { filename : string; rflags : Z }.

Record command := { args : list string; redirs : list redir }.

(** [commands] is the circular [commandseq] list: [[]] is the [NULL] list,
    an element [None] is a node whose [com] is [NULL]. *)
Record pipeline := { commands : list (option command); flags : Z }.

Definition addr := nat.

(** A [pipelineseq] node: the [pipeline] pointer ([None] is [NULL]) and the
    [next] pointer. *)
Record pipelineseq := { ps_pipeline : option pipeline; ps_next : addr }.

Abbreviation heap := (gmap addr pipelineseq).

(** ** Validation: [isEmptyPipeline] and [removeEmptyPipelines] *)

Definition isEmptyPipeline (p : option pipeline) : bool :=
  match p with
  | None => true
  | Some pl =>
      match commands pl with
      | [] => true
      | [None] => true
      | _ => false
      end
  end.

(** [do { ++num_pipelines; curr = curr->next; } while (curr != *pipelines)].
    [None] when a pointer outside the heap is followed or the walk has not
    come back to the head within [fuel] steps. *)
Fixpoint count_loop (fuel : nat) (h : heap) (head curr : addr) (n : Z)
  : option (Z * addr) :=
  match fuel with
  | O => None
  | S fuel' =>
      node ← h !! curr;
      let n' := n + 1 in
      let curr' := ps_next node in
      if decide (curr' = head) then Some (n', curr')
      else count_loop fuel' h head curr' n'
  end.

(** [for (i = 0; i < num_pipelines; ++i) { if (!isEmptyPipeline(curr->pipeline)) break; curr = curr->next; }] *)
Fixpoint find_loop (k : nat) (h : heap) (curr : addr) : option addr :=
  match k with
  | O => Some curr
  | S k' =>
      node ← h !! curr;
      if isEmptyPipeline (ps_pipeline node) then find_loop k' h (ps_next node)
      else Some curr
  end.

(** The removal loop; it runs as many times as there were nodes at the
    start ([i] is a copy of the count), unlinking each empty node. *)
Fixpoint remove_loop (k : nat) (h : heap) (prev curr : addr) (num : Z)
  : option (heap * addr * addr * Z) :=
  match k with
  | O => Some (h, prev, curr, num)
  | S k' =>
      cn ← h !! curr;
      if isEmptyPipeline (ps_pipeline cn) then
        (* prev->next = curr = curr->next; --num_pipelines; continue; *)
        let curr' := ps_next cn in
        pn ← h !! prev;
        let h' := <[prev := {| ps_pipeline := ps_pipeline pn; ps_next := curr' |}]> h in
        remove_loop k' h' prev curr' (num - 1)
      else
        (* prev = prev->next; curr = curr->next; *)
        pn ← h !! prev;
        remove_loop k' h (ps_next pn) (ps_next cn) num
  end.

(** The inner [do ... while] of the validity check over one circular
    command list: does it meet a node whose [com] is [NULL]?  [None] when
    the list pointer itself is [NULL]. *)
Definition scan_commands (cs : list (option command)) : option bool :=
  match cs with
  | [] => None
  | _ => Some (existsb (λ c, bool_decide (c = None)) cs)
  end.

(** The validity loop.  Its body reads [curr] and never moves it. *)
Fixpoint check_loop (k : nat) (h : heap) (curr : addr) : option bool :=
  match k with
  | O => Some true
  | S k' =>
      node ← h !! curr;
      pl ← ps_pipeline node;
      bad ← scan_commands (commands pl);
      if (bad : bool) then Some false else check_loop k' h curr
  end.

(** [removeEmptyPipelines]: the heap after the call, the new value of
    [*pipelines] and the returned count. *)
Definition removeEmptyPipelines (h : heap) (pipelines : option addr)
  : option (heap * option addr * Z) :=
  match pipelines with
  | None => Some (h, None, -1)
  | Some head =>
      '(num_pipelines, curr) ← count_loop (size h) h head head 0;
      curr ← find_loop (Z.to_nat num_pipelines) h curr;
      node ← h !! curr;
      if isEmptyPipeline (ps_pipeline node) then Some (h, None, 0)
      else
        let head' := curr in
        let prev := curr in
        '(h', _, _, num') ← remove_loop (Z.to_nat num_pipelines) h prev (ps_next node) num_pipelines;
        ok ← check_loop (Z.to_nat num') h' head';
        if (ok : bool) then Some (h', Some head', num') else Some (h', None, -1)
  end.

(** ** System interface: constants and types of the C library *)

Definition pid := nat.

Definition STDIN_FILENO : nat := 0%nat.
Definition STDOUT_FILENO : nat := 1%nat.
Definition EXIT_SUCCESS : Z := 0.
Definition EXIT_FAILURE : Z := 1.

Definition S_IRUSR : Z := 256.
Definition S_IWUSR : Z := 128.
Definition S_IRGRP : Z := 32.
Definition S_IROTH : Z := 4.

(** The values of [errno] the code distinguishes; every other one is
    [EOTHER]. *)
Inductive errno_t := ENOENT | EACCES | EIO | EBADF | EOTHER.

(** The flags of [open]; a flag word is the list of the flags or-ed
    together. *)
Inductive oflag := O_RDONLY | O_WRONLY | O_CREAT | O_TRUNC | O_APPEND.

Inductive signal := SIGINT | SIGCHLD.

Inductive sighandler := SIG_DFL | SIG_IGN | SigHandler (name : string).

Inductive saflag := SA_NOCLDSTOP | SA_RESTART.

(** [struct sigaction]; the mask is empty wherever the code builds one. *)
Record sigaction_t := { sa_handler : sighandler; sa_flags : list saflag }.

#[global] Instance errno_eq_dec : EqDecision errno_t.
Proof. solve_decision. Defined.
#[global] Instance oflag_eq_dec : EqDecision oflag.
Proof. solve_decision. Defined.
#[global] Instance signal_eq_dec : EqDecision signal.
Proof. solve_decision. Defined.
#[global] Instance sighandler_eq_dec : EqDecision sighandler.
Proof. solve_decision. Defined.
#[global] Instance saflag_eq_dec : EqDecision saflag.
Proof. solve_decision. Defined.
#[global] Instance sigaction_eq_dec : EqDecision sigaction_t.
Proof. solve_decision. Defined.

(** What a descriptor refers to. *)
Inductive fobj :=
  | Terminal
  | PipeR (k : nat)
  | PipeW (k : nat)
  | File (path : string) (fl : list oflag).

#[global] Instance fobj_eq_dec : EqDecision fobj.
Proof. solve_decision. Defined.

(** What a process does that the outside can see, in program order. *)
Inductive call :=
  | SysDup (fd : nat) (r : option nat)
  | SysDup2 (from to : nat) (ok : bool)
  | SysPipe (r : option (nat * nat))
  | SysClose (fd : nat) (ok : bool)
  | SysOpen (path : string) (fl : list oflag) (mode : Z) (r : errno_t + nat)
  | SysFork (r : option pid)
  | SysSetsid
  | SysSigaction (sig : signal) (act : sigaction_t)
  | SysExecvp (file : string) (argv : list string) (r : option errno_t)
  | SysExit (status : Z)
  | Fflush
  | Printf (msg : string)
  | Stderr (msg : string)
  | Perror (msg : string)
  | CallBuiltin (name : string) (argv : list string) (r : Z)
  | GetLine (line : option string) (err : option errno_t)
  | BlockChildSignal
  | UnblockChildSignal
  | RegisterForegroundChild (p : pid)
  | WaitForForegroundChildren (ps : list pid)
  | PrintBackgroundChildrenInfo.

(** The state of one process; [fork] copies it.  [default_sigint_action]
    and [default_sigchld_action] are the two globals of mshell.c;
    [foreground] is the foreground-wait set of childmanager.c. *)
Record proc := {
  self : pid;
  fds : gmap nat fobj;
  act_int : sigaction_t;
  act_chld : sigaction_t;
  chld_blocked : bool;
  session_leader : bool;
  default_sigint_action : sigaction_t;
  default_sigchld_action : sigaction_t;
  foreground : list pid;
  log : list call
}.

Inductive ending :=
  | Running (file : string) (argv : list string)
  | Exited (status : Z)
  | Crashed
  | Returned.

(** A forked child: its process state when it stopped running the
    shell's code, and how it stopped. *)
Record child := { c_pid : pid; c_proc : proc; c_end : ending }.

Record file := { f_mode : Z; f_data : string }.

(** The part of the machine the processes share.  [faults] tells, per
    tick of [clock], whether the system call made at that tick fails for
    want of resources; [programs] is the executable search path: name to
    "may be executed"; [input] is what the line reader will deliver. *)
Record world := {
  fs : gmap string file;
  programs : gmap string bool;
  faults : nat → bool;
  clock : nat;
  next_pid : pid;
  next_pipe : nat;
  input : list (option string * option errno_t);
  procs : list child;
  reaped : list pid
}.

Record state := { me : proc; os : world }.

(** ** Collaborators that are not in mshell.c *)

(** config.h, builtins.h and siparse.h: the constants, the builtin table
    and the parser are parameters of the model.  A builtin is a handler
    from the argument sequence to a status. *)
Class Externals := {
  EXEC_FAILURE : Z;
  SYNTAX_ERROR_STR : string;
  PROMPT_STR : string;
  BUILTIN_ERROR : Z;
  getBuiltin : string → option (list string → Z);
  INBACKGROUND : Z;
  IS_RIN : Z → bool;
  IS_ROUT : Z → bool;
  IS_RAPPEND : Z → bool;
  parseline : string → heap * option addr
}.

(** ** The process monad *)

Inductive res (A : Type) :=
  | Ret (a : A) (s : state)
  | Exit (status : Z) (s : state)
  | Exec (file : string) (argv : list string) (s : state)
  | Fault (s : state).
Arguments Ret {A} a s.
Arguments Exit {A} status s.
Arguments Exec {A} file argv s.
Arguments Fault {A} s.

Definition M (A : Type) : Type := state → res A.

Definition ret {A} (a : A) : M A := λ s, Ret a s.

Definition bind {A B} (m : M A) (k : A → M B) : M B :=
  λ s, match m s with
       | Ret a s' => k a s'
       | Exit st s' => Exit st s'
       | Exec f a s' => Exec f a s'
       | Fault s' => Fault s'
       end.

Declare Scope proc_scope.
Delimit Scope proc_scope with proc.
Notation "x <- m ;; k" := (bind m (λ x, k))
  (at level 100, m at next level, right associativity) : proc_scope.
Notation "m ;; k" := (bind m (λ _, k))
  (at level 100, right associativity) : proc_scope.
Open Scope proc_scope.

Definition fault {A} : M A := λ s, Fault s.

(** Following a pointer: [None] is [NULL]. *)
Definition deref {A} (o : option A) : M A :=
  match o with Some a => ret a | None => fault end.

Definition set_fds (t : gmap nat fobj) (p : proc) : proc :=
  {| self := self p; fds := t; act_int := act_int p; act_chld := act_chld p;
     chld_blocked := chld_blocked p; session_leader := session_leader p;
     default_sigint_action := default_sigint_action p;
     default_sigchld_action := default_sigchld_action p;
     foreground := foreground p; log := log p |}.

Definition set_log (l : list call) (p : proc) : proc :=
  {| self := self p; fds := fds p; act_int := act_int p; act_chld := act_chld p;
     chld_blocked := chld_blocked p; session_leader := session_leader p;
     default_sigint_action := default_sigint_action p;
     default_sigchld_action := default_sigchld_action p;
     foreground := foreground p; log := l |}.

Definition set_blocked (b : bool) (p : proc) : proc :=
  {| self := self p; fds := fds p; act_int := act_int p; act_chld := act_chld p;
     chld_blocked := b; session_leader := session_leader p;
     default_sigint_action := default_sigint_action p;
     default_sigchld_action := default_sigchld_action p;
     foreground := foreground p; log := log p |}.

Definition set_foreground (l : list pid) (p : proc) : proc :=
  {| self := self p; fds := fds p; act_int := act_int p; act_chld := act_chld p;
     chld_blocked := chld_blocked p; session_leader := session_leader p;
     default_sigint_action := default_sigint_action p;
     default_sigchld_action := default_sigchld_action p;
     foreground := l; log := log p |}.

Definition set_session_leader (b : bool) (p : proc) : proc :=
  {| self := self p; fds := fds p; act_int := act_int p; act_chld := act_chld p;
     chld_blocked := chld_blocked p; session_leader := b;
     default_sigint_action := default_sigint_action p;
     default_sigchld_action := default_sigchld_action p;
     foreground := foreground p; log := log p |}.

Definition set_action (sig : signal) (a : sigaction_t) (p : proc) : proc :=
  {| self := self p; fds := fds p;
     act_int := match sig with SIGINT => a | SIGCHLD => act_int p end;
     act_chld := match sig with SIGINT => act_chld p | SIGCHLD => a end;
     chld_blocked := chld_blocked p; session_leader := session_leader p;
     default_sigint_action := default_sigint_action p;
     default_sigchld_action := default_sigchld_action p;
     foreground := foreground p; log := log p |}.

Definition set_default (sig : signal) (a : sigaction_t) (p : proc) : proc :=
  {| self := self p; fds := fds p; act_int := act_int p; act_chld := act_chld p;
     chld_blocked := chld_blocked p; session_leader := session_leader p;
     default_sigint_action :=
       match sig with SIGINT => a | SIGCHLD => default_sigint_action p end;
     default_sigchld_action :=
       match sig with SIGINT => default_sigchld_action p | SIGCHLD => a end;
     foreground := foreground p; log := log p |}.

Definition born (p : pid) (parent : proc) : proc :=
  {| self := p; fds := fds parent; act_int := act_int parent;
     act_chld := act_chld parent; chld_blocked := chld_blocked parent;
     session_leader := false;
     default_sigint_action := default_sigint_action parent;
     default_sigchld_action := default_sigchld_action parent;
     foreground := foreground parent; log := [] |}.

Definition action_of (sig : signal) (p : proc) : sigaction_t :=
  match sig with SIGINT => act_int p | SIGCHLD => act_chld p end.

Definition set_fs (f : gmap string file) (w : world) : world :=
  {| fs := f; programs := programs w; faults := faults w; clock := clock w;
     next_pid := next_pid w; next_pipe := next_pipe w; input := input w;
     procs := procs w; reaped := reaped w |}.

Definition tick (w : world) : world :=
  {| fs := fs w; programs := programs w; faults := faults w; clock := S (clock w);
     next_pid := next_pid w; next_pipe := next_pipe w; input := input w;
     procs := procs w; reaped := reaped w |}.

Definition new_pipe (w : world) : world :=
  {| fs := fs w; programs := programs w; faults := faults w; clock := clock w;
     next_pid := next_pid w; next_pipe := S (next_pipe w); input := input w;
     procs := procs w; reaped := reaped w |}.

Definition new_child (c : child) (w : world) : world :=
  {| fs := fs w; programs := programs w; faults := faults w; clock := clock w;
     next_pid := next_pid w; next_pipe := next_pipe w; input := input w;
     procs := procs w ++ [c]; reaped := reaped w |}.

Definition new_pid (w : world) : world :=
  {| fs := fs w; programs := programs w; faults := faults w; clock := clock w;
     next_pid := S (next_pid w); next_pipe := next_pipe w; input := input w;
     procs := procs w; reaped := reaped w |}.

Definition set_input (i : list (option string * option errno_t)) (w : world) : world :=
  {| fs := fs w; programs := programs w; faults := faults w; clock := clock w;
     next_pid := next_pid w; next_pipe := next_pipe w; input := i;
     procs := procs w; reaped := reaped w |}.

Definition add_reaped (ps : list pid) (w : world) : world :=
  {| fs := fs w; programs := programs w; faults := faults w; clock := clock w;
     next_pid := next_pid w; next_pipe := next_pipe w; input := input w;
     procs := procs w; reaped := reaped w ++ ps |}.

(** Does the system call made now fail for want of resources? *)
Definition faulty (w : world) : bool := faults w (clock w).

Definition emit (c : call) (p : proc) : proc := set_log (log p ++ [c]) p.

(** The lowest descriptor that is not open. *)
Fixpoint lowest_from (fuel : nat) (t : gmap nat fobj) (k : nat) : nat :=
  match fuel with
  | O => k
  | S fuel' =>
      match t !! k with
      | Some _ => lowest_from fuel' t (S k)
      | None => k
      end
  end.

Definition lowest_free (t : gmap nat fobj) : nat := lowest_from (size t) t 0%nat.

(** ** System calls *)

Definition emitM (c : call) : M unit :=
  λ s, Ret tt {| me := emit c (me s); os := os s |}.

(** Every system call that may fail uses up one tick of the fault clock
    ([tick]); it fails when [faulty] says so, or for a reason of its own. *)

Definition sys_dup (fd : nat) : M (option nat) :=
  λ s,
    let w := tick (os s) in
    match (if faulty (os s) then None else fds (me s) !! fd) with
    | None => Ret None {| me := emit (SysDup fd None) (me s); os := w |}
    | Some o =>
        let n := lowest_free (fds (me s)) in
        Ret (Some n)
            {| me := emit (SysDup fd (Some n)) (set_fds (<[n := o]> (fds (me s))) (me s));
               os := w |}
    end.

Definition sys_dup2 (from to : nat) : M bool :=
  λ s,
    let w := tick (os s) in
    match (if faulty (os s) then None else fds (me s) !! from) with
    | None => Ret false {| me := emit (SysDup2 from to false) (me s); os := w |}
    | Some o =>
        Ret true
            {| me := emit (SysDup2 from to true) (set_fds (<[to := o]> (fds (me s))) (me s));
               os := w |}
    end.

Definition sys_close (fd : nat) : M bool :=
  λ s,
    let w := tick (os s) in
    match (if faulty (os s) then None else fds (me s) !! fd) with
    | None => Ret false {| me := emit (SysClose fd false) (me s); os := w |}
    | Some _ =>
        Ret true
            {| me := emit (SysClose fd true) (set_fds (delete fd (fds (me s))) (me s));
               os := w |}
    end.

Definition sys_pipe : M (option (nat * nat)) :=
  λ s,
    let w := tick (os s) in
    if faulty (os s) then Ret None {| me := emit (SysPipe None) (me s); os := w |}
    else
      let k := next_pipe w in
      let r := lowest_free (fds (me s)) in
      let t := <[r := PipeR k]> (fds (me s)) in
      let wr := lowest_free t in
      Ret (Some (r, wr))
          {| me := emit (SysPipe (Some (r, wr))) (set_fds (<[wr := PipeW k]> t) (me s));
             os := new_pipe w |}.

Definition readable (f : file) : bool := Z.testbit (f_mode f) 8.
Definition writable (f : file) : bool := Z.testbit (f_mode f) 7.

(** [open] against the file system: the answer and the file system after
    the call.  The caller is taken to own every file, and the mode of a
    created file is the mode asked for. *)
Definition open_fs (f : gmap string file) (path : string) (fl : list oflag) (mode : Z)
  : option errno_t * gmap string file :=
  match f !! path with
  | None =>
      if bool_decide (O_CREAT ∈ fl)
      then (None, <[path := {| f_mode := mode; f_data := EmptyString |}]> f)
      else (Some ENOENT, f)
  | Some x =>
      if (if bool_decide (O_WRONLY ∈ fl) then writable x else readable x)
      then (None,
            if bool_decide (O_TRUNC ∈ fl)
            then <[path := {| f_mode := f_mode x; f_data := EmptyString |}]> f else f)
      else (Some EACCES, f)
  end.

Definition sys_open (path : string) (fl : list oflag) (mode : Z) : M (errno_t + nat) :=
  λ s,
    let w := tick (os s) in
    if faulty (os s)
    then Ret (inl EOTHER) {| me := emit (SysOpen path fl mode (inl EOTHER)) (me s); os := w |}
    else
      match open_fs (fs w) path fl mode with
      | (Some e, _) => Ret (inl e) {| me := emit (SysOpen path fl mode (inl e)) (me s); os := w |}
      | (None, f') =>
          let n := lowest_free (fds (me s)) in
          Ret (inr n)
              {| me := emit (SysOpen path fl mode (inr n))
                         (set_fds (<[n := File path fl]> (fds (me s))) (me s));
                 os := set_fs f' w |}
      end.

(** [execvp] comes back only when it fails. *)
Definition sys_execvp (name : string) (argv : list string) : M errno_t :=
  λ s,
    let w := tick (os s) in
    let r := if faulty (os s) then Some EOTHER
             else match programs w !! name with
                  | None => Some ENOENT
                  | Some false => Some EACCES
                  | Some true => None
                  end in
    let s' := {| me := emit (SysExecvp name argv r) (me s); os := w |} in
    match r with
    | Some e => Ret e s'
    | None => Exec name argv s'
    end.

Definition sys_exit {A} (status : Z) : M A :=
  λ s, Exit status {| me := emit (SysExit status) (me s); os := os s |}.

Definition sys_setsid : M unit :=
  λ s, Ret tt {| me := emit SysSetsid (set_session_leader true (me s)); os := os s |}.

(** [sigaction(sig, &act, &old)]: installs [act], hands back the old one. *)
Definition sys_sigaction (sig : signal) (act : sigaction_t) : M sigaction_t :=
  λ s, Ret (action_of sig (me s))
           {| me := emit (SysSigaction sig act) (set_action sig act (me s)); os := os s |}.

Definition ending_of {A} (r : res A) : ending * state :=
  match r with
  | Ret _ s => (Returned, s)
  | Exit st s => (Exited st, s)
  | Exec f a s => (Running f a, s)
  | Fault s => (Crashed, s)
  end.

(** [fork]: the child gets a copy of the caller's state and runs
    [child_code], the code on the [pid == 0] side of the call; what it
    does is recorded in [procs].  The caller gets the child's pid. *)
Definition sys_fork (child_code : M unit) : M (option pid) :=
  λ s,
    let w := tick (os s) in
    if faulty (os s) then Ret None {| me := emit (SysFork None) (me s); os := w |}
    else
      let p := next_pid w in
      let '(e, s') := ending_of (child_code {| me := born p (me s); os := new_pid w |}) in
      Ret (Some p)
          {| me := emit (SysFork (Some p)) (me s);
             os := new_child {| c_pid := p; c_proc := me s'; c_end := e |} (os s') |}.

Definition get_default (sig : signal) : M sigaction_t :=
  λ s, Ret (match sig with
            | SIGINT => default_sigint_action (me s)
            | SIGCHLD => default_sigchld_action (me s)
            end) s.

Definition put_default (sig : signal) (a : sigaction_t) : M unit :=
  λ s, Ret tt {| me := set_default sig a (me s); os := os s |}.

Definition isatty (fd : nat) : M bool :=
  λ s, Ret (bool_decide (fds (me s) !! fd = Some Terminal)) s.

(** ** childmanager.c and reader.c *)

(** Modelled from the spec: childmanager.c is not among the sources.
    [blockChildSignal] and [unblockChildSignal] block and unblock the
    delivery of the termination notification in the calling process. *)
Definition blockChildSignal : M unit :=
  λ s, Ret tt {| me := emit BlockChildSignal (set_blocked true (me s)); os := os s |}.

(** Modelled from the spec: childmanager.c is not among the sources.
    [unblockChildSignal] lets the termination notification through again. *)
Definition unblockChildSignal : M unit :=
  λ s, Ret tt {| me := emit UnblockChildSignal (set_blocked false (me s)); os := os s |}.

(** Modelled from the spec: childmanager.c is not among the sources.
    [registerForegroundChild] adds the pid to the current pipeline's
    foreground-wait set. *)
Definition registerForegroundChild (p : pid) : M unit :=
  λ s, Ret tt {| me := emit (RegisterForegroundChild p)
                         (set_foreground (foreground (me s) ++ [p]) (me s));
                 os := os s |}.

(** Modelled from the spec: childmanager.c is not among the sources.
    [waitForForegroundChildren] blocks and reaps until the foreground-wait
    set is empty: when it returns every process of the set has terminated
    and has been reaped. *)
Definition waitForForegroundChildren : M unit :=
  λ s, Ret tt {| me := emit (WaitForForegroundChildren (foreground (me s)))
                         (set_foreground [] (me s));
                 os := add_reaped (foreground (me s)) (os s) |}.

(** Modelled from the spec: childmanager.c is not among the sources.
    [printBackgroundChildrenInfo] reports the pending background
    completions; only the call is recorded. *)
Definition printBackgroundChildrenInfo : M unit := emitM PrintBackgroundChildrenInfo.

(** Modelled from the spec: reader.c is not among the sources.  The line
    reader supplies the next raw line, end-of-input ([NULL]) or a
    malformed-input signal ([errno] set to [EIO]); the result is the
    returned pointer and the value of [errno] after the call ([None] when
    it was left at 0).  When [input] is used up the reader is at
    end-of-input. *)
Definition getLine : M (option string * option errno_t) :=
  λ s,
    match input (os s) with
    | [] => Ret (None, None) {| me := emit (GetLine None None) (me s); os := os s |}
    | (l, e) :: rest =>
        Ret (l, e) {| me := emit (GetLine l e) (me s); os := set_input rest (os s) |}
    end.

(** ** mshell.c *)

Definition nl : string := String (Ascii.ascii_of_nat 10) EmptyString.

(** [getArgVector]: the arguments in list order, closed by [NULL].  [None]
    when the argument list pointer is [NULL].  (The static array has room
    for every argument of a line the reader accepts.) *)
Definition getArgVector (com : command) : option (list string) :=
  match args com with
  | [] => None
  | a => Some a
  end.

Definition closeFileDescriptor (fd : nat) : M unit :=
  ok <- sys_close fd;;
  if (ok : bool) then ret tt
  else (emitM (Perror "close() failed");; sys_exit EXIT_FAILURE).

Definition moveFileDescriptor (from to : nat) : M unit :=
  if decide (from = to) then ret tt
  else
    ok <- sys_dup2 from to;;
    if (ok : bool) then closeFileDescriptor from
    else (emitM (Perror "dup2() failed");; sys_exit EXIT_FAILURE).

Definition openFile (name : string) (options_flag : list oflag) (mode : Z) : M nat :=
  r <- sys_open name options_flag mode;;
  match r with
  | inr fd => ret fd
  | inl e =>
      (match e with
       | ENOENT => emitM (Stderr (name ++ ": no such file or directory" ++ nl))
       | EACCES => emitM (Stderr (name ++ ": permission denied" ++ nl))
       | _ => emitM (Perror "open() failed")
       end);;
      sys_exit EXIT_FAILURE
  end.

Section Shell.
Context `{Externals}.

Definition addRedirs (r : redir) : M unit :=
  let mode := Z.lor (Z.lor (Z.lor S_IRUSR S_IWUSR) S_IRGRP) S_IROTH in
  if IS_RIN (rflags r) then
    fd <- openFile (filename r) [O_RDONLY] 0;;
    moveFileDescriptor fd STDIN_FILENO
  else if IS_ROUT (rflags r) then
    fd <- openFile (filename r) [O_WRONLY; O_CREAT; O_TRUNC] mode;;
    moveFileDescriptor fd STDOUT_FILENO
  else if IS_RAPPEND (rflags r) then
    fd <- openFile (filename r) [O_WRONLY; O_CREAT; O_APPEND] mode;;
    moveFileDescriptor fd STDOUT_FILENO
  else ret tt.

(** [if (com->redirs != NULL) { do { addRedirs(rs->r); rs = rs->next; } while (rs != com->redirs); }] *)
Fixpoint redirs_loop (rs : list redir) : M unit :=
  match rs with
  | [] => ret tt
  | r :: rs' => addRedirs r;; redirs_loop rs'
  end.

(** The first three steps of the child: session and signals. *)
Definition child_signals (is_background : bool) : M unit :=
  (if is_background then sys_setsid else ret tt);;
  unblockChildSignal;;
  d <- get_default SIGINT;;
  sys_sigaction SIGINT d;;
  d <- get_default SIGCHLD;;
  sys_sigaction SIGCHLD d;;
  ret tt.

(** The pipe wiring of the child. *)
Definition child_wire (read_fd : nat) (pipe_fds : option (nat * nat)) : M unit :=
  moveFileDescriptor read_fd STDIN_FILENO;;
  match pipe_fds with
  | Some (r, w) => moveFileDescriptor w STDOUT_FILENO;; closeFileDescriptor r
  | None => ret tt
  end.

(** Redirections, then [execvp]. *)
Definition child_exec (com : option command) : M unit :=
  c <- deref com;;
  redirs_loop (redirs c);;
  command_name <- deref (head (args c));;
  argv <- deref (getArgVector c);;
  e <- sys_execvp command_name argv;;
  (match e with
   | ENOENT => emitM (Stderr (command_name ++ ": no such file or directory" ++ nl))
   | EACCES => emitM (Stderr (command_name ++ ": permission denied" ++ nl))
   | _ => emitM (Stderr (command_name ++ ": exec error" ++ nl))
   end);;
  sys_exit EXEC_FAILURE.

(** [runCommand] after [fork] has returned 0. *)
Definition runCommand_child (com : option command) (read_fd : nat)
    (pipe_fds : option (nat * nat)) (is_background : bool) : M unit :=
  child_signals is_background;;
  child_wire read_fd pipe_fds;;
  child_exec com.

Definition runCommand (com : option command) (read_fd : nat)
    (pipe_fds : option (nat * nat)) (is_background : bool) : M unit :=
  emitM Fflush;;
  r <- sys_fork (runCommand_child com read_fd pipe_fds is_background);;
  match r with
  | None => emitM (Perror ("fork() failed" ++ nl));; sys_exit EXIT_FAILURE
  | Some p => if negb is_background then registerForegroundChild p else ret tt
  end.

(** The builtin fast path of [runPipeline]; [true] when the pipeline has
    been dealt with. *)
Definition builtin_path (c : option command) (num_commands : nat)
    (is_background : bool) : M bool :=
  if bool_decide (num_commands = 1%nat) then
    com <- deref c;;
    if bool_decide (redirs com = []) && negb is_background then
      command_name <- deref (head (args com));;
      match getBuiltin command_name with
      | Some builtin =>
          argv <- deref (getArgVector com);;
          let r := builtin argv in
          emitM (CallBuiltin command_name argv r);;
          (if bool_decide (r = BUILTIN_ERROR)
           then emitM (Stderr ("Builtin " ++ command_name ++ " error." ++ nl))
           else ret tt);;
          ret true
      | None => ret false
      end
    else ret false
  else ret false.

(** The [for] loop of [runPipeline] over all commands but the last; it
    hands back the read end the last stage reads from. *)
Fixpoint stage_loop (cs : list (option command)) (read_fd : nat)
    (is_background : bool) : M nat :=
  match cs with
  | [] => ret read_fd
  | c :: cs' =>
      r <- sys_pipe;;
      match r with
      | None => emitM (Perror "pipe() failed");; sys_exit EXIT_FAILURE
      | Some pipe_fds =>
          runCommand c read_fd (Some pipe_fds) is_background;;
          closeFileDescriptor read_fd;;
          closeFileDescriptor (snd pipe_fds);;
          stage_loop cs' (fst pipe_fds) is_background
      end
  end.

(** The general path of [runPipeline]. *)
Definition general_path (cs : list (option command)) (is_background : bool) : M unit :=
  r <- sys_dup STDIN_FILENO;;
  match r with
  | None => emitM (Perror "dup() failed");; sys_exit EXIT_FAILURE
  | Some read_fd =>
      blockChildSignal;;
      read_fd <- stage_loop (removelast cs) read_fd is_background;;
      c <- deref (last cs);;
      runCommand c read_fd None is_background;;
      closeFileDescriptor read_fd;;
      (if negb is_background then waitForForegroundChildren else ret tt);;
      unblockChildSignal
  end.

Definition runPipeline (pl : pipeline) : M unit :=
  match commands pl with
  | [] => fault
  | c :: _ =>
      let num_commands := length (commands pl) in
      let is_background := bool_decide (flags pl = INBACKGROUND) in
      done <- builtin_path c num_commands is_background;;
      if (done : bool) then ret tt
      else general_path (commands pl) is_background
  end.

(** [for (i = 0; i < count; ++i) { runPipeline(p->pipeline); p = p->next; }] *)
Fixpoint run_loop (k : nat) (h : heap) (p : option addr) : M unit :=
  match k with
  | O => ret tt
  | S k' =>
      a <- deref p;;
      node <- deref (h !! a);;
      pl <- deref (ps_pipeline node);;
      runPipeline pl;;
      run_loop k' h (Some (ps_next node))
  end.

Definition handleLine : M unit :=
  r <- getLine;;
  if bool_decide (r.2 = Some EIO) then emitM (Stderr (SYNTAX_ERROR_STR ++ nl))
  else
    match r.1 with
    | None => sys_exit EXIT_SUCCESS
    | Some line =>
        match removeEmptyPipelines (parseline line).1 (parseline line).2 with
        | None => fault
        | Some (h, pipelines, count) =>
            if bool_decide (count = -1) then emitM (Stderr (SYNTAX_ERROR_STR ++ nl))
            else run_loop (Z.to_nat count) h pipelines
        end
    end.

(** The body of [while (true)], [fuel] times. *)
Fixpoint main_loop (fuel : nat) (is_a_tty : bool) : M unit :=
  match fuel with
  | O => ret tt
  | S fuel' =>
      (if is_a_tty
       then printBackgroundChildrenInfo;; emitM (Printf PROMPT_STR);; emitM Fflush
       else ret tt);;
      handleLine;;
      main_loop fuel' is_a_tty
  end.

Definition main (fuel : nat) : M unit :=
  old <- sys_sigaction SIGINT {| sa_handler := SIG_IGN; sa_flags := [] |};;
  put_default SIGINT old;;
  old <- sys_sigaction SIGCHLD
           {| sa_handler := SigHandler "sigchldHandler";
              sa_flags := [SA_NOCLDSTOP; SA_RESTART] |};;
  put_default SIGCHLD old;;
  is_a_tty <- isatty STDIN_FILENO;;
  main_loop fuel is_a_tty.

End Shell.

(** ** Vocabulary of the statements *)

(** The circular list of [pipelineseq] nodes as a sequence of (address,
    pipeline pointer): [chain h l e] says that the nodes of [l] are in the
    heap, each pointing to the next and the last one to [e]. *)
Definition first_addr (l : list (addr * option pipeline)) (e : addr) : addr :=
  match l with
  | [] => e
  | x :: _ => x.1
  end.

Fixpoint chain (h : heap) (l : list (addr * option pipeline)) (e : addr) : Prop :=
  match l with
  | [] => True
  | x :: l' =>
      h !! x.1 = Some {| ps_pipeline := x.2; ps_next := first_addr l' e |}
      ∧ chain h l' e
  end.

(** [cycle h l]: the nodes of [l] form a circular list in [h], entered at
    the first one. *)
Definition cycle (h : heap) (l : list (addr * option pipeline)) : Prop :=
  NoDup l.*1 ∧ l ≠ [] ∧ chain h l (first_addr l 0%nat).

Definition head_of (l : list (addr * option pipeline)) : option addr :=
  fst <$> head l.

(** The pipelines of a line that are not entirely empty, in order. *)
Definition kept (l : list (addr * option pipeline)) : list (addr * option pipeline) :=
  filter (λ x, isEmptyPipeline x.2 = false) l.

(** A pipeline with an empty command slot. *)
Definition has_null (p : option pipeline) : bool :=
  match p with
  | None => false
  | Some pl => existsb (λ c, bool_decide (c = None)) (commands pl)
  end.

(** The state a computation stops in, however it stops. *)
Definition state_of {A} (r : res A) : state :=
  match r with
  | Ret _ s => s
  | Exit _ s => s
  | Exec _ _ s => s
  | Fault s => s
  end.

(** No system call ever fails for want of resources. *)
Definition no_faults (w : world) : Prop := ∀ n, faults w n = false.

(** A relation between the state before and the state after that holds
    however the computation stops. *)
Definition stable (R : relation state) {A} (m : M A) : Prop :=
  ∀ s, R s (state_of (m s)).

(** [keeps f]: the part [f] of the state is the same before and after. *)
Definition keeps {X} (f : state → X) : relation state := λ s s', f s' = f s.

(** The part of the machine no child touches while it runs the shell's
    code: all but the file system and the clock. *)
Definition world_fixed (w : world) :=
  (faults w, programs w, next_pid w, next_pipe w, input w, procs w, reaped w).

(** The part of a process that descriptor wiring, redirections and
    [execvp] leave alone: all but the descriptor table and the log. *)
Definition proc_fixed (p : proc) :=
  (self p, act_int p, act_chld p, chld_blocked p, session_leader p,
   default_sigint_action p, default_sigchld_action p, foreground p).

Definition frozen (s : state) := (world_fixed (os s), proc_fixed (me s)).

(** The state of the child after its session and signal steps
    ([child_signals]), which always run to their end. *)
Definition after_signals (is_background : bool) (p : proc) : proc :=
  let p1 := if is_background then emit SysSetsid (set_session_leader true p) else p in
  let p2 := emit UnblockChildSignal (set_blocked false p1) in
  let p3 := emit (SysSigaction SIGINT (default_sigint_action p))
              (set_action SIGINT (default_sigint_action p) p2) in
  emit (SysSigaction SIGCHLD (default_sigchld_action p))
    (set_action SIGCHLD (default_sigchld_action p) p3).

(** The part of a process that launching a pipeline leaves alone. *)
Definition proc_sig (p : proc) :=
  (self p, act_int p, act_chld p, session_leader p,
   default_sigint_action p, default_sigchld_action p).

(** The part of the machine that launching a pipeline leaves alone. *)
Definition world_rest (w : world) := (faults w, programs w, input w).

(** One stage of a pipeline as the shell launches it: the descriptor the
    stage reads from, the pipe made for its output (none for the last
    stage) and the pid [fork] gave. *)
Record stage := { st_read : nat; st_pipe : option (nat * nat); st_pid : pid }.

(** What the shell itself does for one stage. *)
Definition stage_calls (is_background : bool) (st : stage) : list call :=
  match st_pipe st with Some pf => [SysPipe (Some pf)] | None => [] end
  ++ [Fflush; SysFork (Some (st_pid st))]
  ++ (if is_background then [] else [RegisterForegroundChild (st_pid st)])
  ++ [SysClose (st_read st) true]
  ++ match st_pipe st with Some pf => [SysClose pf.2 true] | None => [] end.

(** [linked rd sts]: the first stage reads from [rd], each further stage
    from the read end of the pipe made for the stage before it, and only
    the last stage has no pipe. *)
Fixpoint linked (rd : nat) (sts : list stage) : Prop :=
  match sts with
  | [] => True
  | st :: rest =>
      st_read st = rd
      ∧ match rest with
        | [] => st_pipe st = None
        | _ => ∃ r w, st_pipe st = Some (r, w) ∧ linked r rest
        end
  end.

(** The plumbing the spec asks for, as (what standard input is, what
    standard output is) per stage: stage 0 reads [i0], every stage but the
    last writes into a new pipe that the next stage reads, the last stage
    writes to [o1].  [k] numbers the pipes. *)
Fixpoint ports (i0 o1 : fobj) (k : nat) (n : nat) : list (fobj * fobj) :=
  match n with
  | O => []
  | S O => [(i0, o1)]
  | S n' => (i0, PipeW k) :: ports (PipeR k) o1 (S k) n'
  end.

Section Vocabulary.
Context `{Externals}.

(** [launched T x ch]: the child [ch] ran the redirections and the
    [execvp] of the command [x.1] in a process whose descriptor table is
    [T] with standard input and standard output replaced by the two
    objects of [x.2]. *)
Definition launched (T : gmap nat fobj) (x : option command * (fobj * fobj))
    (ch : child) : Prop :=
  ∃ s_w, fds (me s_w) = <[1%nat := x.2.2]> (<[0%nat := x.2.1]> T)
         ∧ c_end ch = (ending_of (child_exec x.1 s_w)).1
         ∧ c_proc ch = me (ending_of (child_exec x.1 s_w)).2.

End Vocabulary.

(** [piped rd sts rd']: the stages [sts] all have a pipe, the first reads
    from [rd], each further one from the pipe before it, and [rd'] is the
    read end left for the stage that follows them. *)
Fixpoint piped (rd : nat) (sts : list stage) (rd' : nat) : Prop :=
  match sts with
  | [] => rd' = rd
  | st :: rest =>
      st_read st = rd ∧ ∃ r w, st_pipe st = Some (r, w) ∧ piped r rest rd'
  end.

(** The plumbing of [n] stages that all write into a pipe. *)
Fixpoint piped_ports (i0 : fobj) (k : nat) (n : nat) : list (fobj * fobj) :=
  match n with
  | O => []
  | S n' => (i0, PipeW k) :: piped_ports (PipeR k) (S k) n'
  end.

(** What the stage after [n] piped stages reads. *)
Definition last_in (i0 : fobj) (k : nat) (n : nat) : fobj :=
  match n with
  | O => i0
  | S n' => PipeR (k + n')
  end.

Definition is_fork (c : call) : bool :=
  match c with SysFork (Some _) => true | _ => false end.
Definition is_wait (c : call) : bool :=
  match c with WaitForForegroundChildren _ => true | _ => false end.
Definition is_block (c : call) : bool :=
  match c with BlockChildSignal => true | _ => false end.
Definition is_unblock (c : call) : bool :=
  match c with UnblockChildSignal => true | _ => false end.
Definition is_builtin (c : call) : bool :=
  match c with CallBuiltin _ _ _ => true | _ => false end.
Definition is_diagnostic (c : call) : bool :=
  match c with Stderr _ | Perror _ => true | _ => false end.

Definition count (f : call → bool) (l : list call) : nat := length (List.filter f l).

(** The pids the successful [fork] calls of a log returned, in order. *)
Definition forked (l : list call) : list pid :=
  omap (λ c, match c with SysFork (Some p) => Some p | _ => None end) l.

Section Vocabulary2.
Context `{Externals}.

(** The data-model invariants of the spec: a command has a program name,
    a pipeline has at least one command and no empty slot. *)
Definition valid_command (c : option command) : Prop :=
  ∃ com, c = Some com ∧ args com ≠ [].

Definition valid_pipeline (p : option pipeline) : Prop :=
  ∃ pl, p = Some pl ∧ commands pl ≠ [] ∧ Forall valid_command (commands pl).

(** [ran p seg reaped]: [seg] is what the shell did for the pipeline [p].
    A background pipeline forks its commands and does not wait.  A
    foreground pipeline either ran a builtin, without forking or waiting,
    or forked its commands and then, as its last step but the unblocking,
    waited once for exactly the children it forked, which are among the
    [reaped]. *)
Definition ran (p : option pipeline) (seg : list call) (reaped : list pid) : Prop :=
  match p with
  | None => False
  | Some pl =>
      if bool_decide (flags pl = INBACKGROUND)
      then count is_wait seg = 0%nat ∧ count is_fork seg = length (commands pl)
      else (count is_fork seg = 0%nat ∧ count is_wait seg = 0%nat
            ∧ count is_builtin seg = 1%nat)
           ∨ (∃ pre, seg = pre ++ [WaitForForegroundChildren (forked pre);
                                   UnblockChildSignal]
                     ∧ count is_wait pre = 0%nat
                     ∧ count is_fork pre = length (commands pl)
                     ∧ ∀ p, p ∈ forked pre → p ∈ reaped)
  end.

End Vocabulary2.

Section Redirections.
Context `{Externals}.

(** The direction of a redirection, as the flag tests of [addRedirs]
    decide it. *)
Inductive direction := Input | OutputTruncate | OutputAppend.

Definition direction_of (r : redir) : option direction :=
  if IS_RIN (rflags r) then Some Input
  else if IS_ROUT (rflags r) then Some OutputTruncate
  else if IS_RAPPEND (rflags r) then Some OutputAppend
  else None.

(** The redirection file contract of the spec: the standard stream a
    direction replaces, and how its target is to be opened (0644 is 420). *)
Definition stream (d : direction) : nat :=
  match d with
  | Input => STDIN_FILENO
  | OutputTruncate | OutputAppend => STDOUT_FILENO
  end.

Definition open_flags (d : direction) : list oflag :=
  match d with
  | Input => [O_RDONLY]
  | OutputTruncate => [O_WRONLY; O_CREAT; O_TRUNC]
  | OutputAppend => [O_WRONLY; O_CREAT; O_APPEND]
  end.

Definition open_mode (d : direction) : Z :=
  match d with
  | Input => 0
  | OutputTruncate | OutputAppend => 420
  end.

Definition request (r : redir) : option (string * list oflag * Z) :=
  d ← direction_of r; Some (filename r, open_flags d, open_mode d).

(** What [open] does to the target of a redirection, in the spec's words:
    an input target is left alone, an output-truncate target is created
    empty with mode 0644 or emptied, an output-append target is created
    empty with mode 0644 when absent and left alone otherwise. *)
Definition redirect_fs (f : gmap string file) (r : redir) : gmap string file :=
  match direction_of r with
  | Some OutputTruncate =>
      <[filename r := {| f_mode := match f !! filename r with
                                   | Some x => f_mode x
                                   | None => 420
                                   end;
                         f_data := EmptyString |}]> f
  | Some OutputAppend =>
      match f !! filename r with
      | Some _ => f
      | None => <[filename r := {| f_mode := 420; f_data := EmptyString |}]> f
      end
  | _ => f
  end.

(** [redirectable f r]: the target of [r] can be opened in the file
    system [f]: an input target exists and is readable, an output target
    is absent or writable. *)
Definition redirectable (f : gmap string file) (r : redir) : Prop :=
  match direction_of r with
  | Some Input => ∃ x, f !! filename r = Some x ∧ readable x = true
  | Some _ => ∀ x, f !! filename r = Some x → writable x = true
  | None => True
  end.

(** The successful [open] calls of a log, in order. *)
Definition opens (l : list call) : list (string * list oflag * Z) :=
  omap (λ c, match c with
             | SysOpen p fl m (inr _) => Some (p, fl, m)
             | _ => None
             end) l.

(** The redirections of a list that replace the standard stream [fd]. *)
Definition onto (fd : nat) (rs : list redir) : list redir :=
  filter (λ r, stream <$> direction_of r = Some fd) rs.

Definition opened (r : redir) : option fobj :=
  d ← direction_of r; Some (File (filename r) (open_flags d)).

End Redirections.

Section Vocabulary3.
Context `{Externals}.

(** Running pipelines one after the other, in list order. *)
Fixpoint run_list (pls : list pipeline) : M unit :=
  match pls with
  | [] => ret tt
  | pl :: rest => runPipeline pl;; run_list rest
  end.

End Vocabulary3.

(** ** A sample environment

    The constants as the usual headers of this shell give them, two
    builtins, and a parser that knows the parsed form of the lines used
    in the examples below. *)

Definition simple (name : string) : option command :=
  Some {| args := [name]; redirs := [] |}.

Definition foreground_of (cs : list (option command)) : option pipeline :=
  Some {| commands := cs; flags := 0 |}.

(** ["true ; ; false"]: three pipelines, the middle one entirely empty. *)
Definition line_true_false : list (addr * option pipeline) :=
  [(1%nat, foreground_of [simple "true"]);
   (2%nat, foreground_of [None]);
   (3%nat, foreground_of [simple "false"])].

(** ["ls ; cmd1 | | cmd2"]: the second pipeline has an empty command
    between two pipe operators. *)
Definition line_ls_then_malformed : list (addr * option pipeline) :=
  [(1%nat, foreground_of [simple "ls"]);
   (2%nat, foreground_of [simple "cmd1"; None; simple "cmd2"])].

(** ["cmd1 | | cmd2"] on its own. *)
Definition line_malformed : list (addr * option pipeline) :=
  [(1%nat, foreground_of [simple "cmd1"; None; simple "cmd2"])].

(** The circular list of a sequence of nodes, as the parser builds it. *)
Fixpoint link (l : list (addr * option pipeline)) (e : addr) : heap :=
  match l with
  | [] => ∅
  | x :: l' =>
      <[x.1 := {| ps_pipeline := x.2; ps_next := first_addr l' e |}]> (link l' e)
  end.

Definition parsed (l : list (addr * option pipeline)) : heap * option addr :=
  (link l (first_addr l 0%nat), head_of l).

Definition sample_parseline (line : string) : heap * option addr :=
  if decide (line = "true ; ; false") then parsed line_true_false
  else if decide (line = "ls ; cmd1 | | cmd2") then parsed line_ls_then_malformed
  else if decide (line = "cmd1 | | cmd2") then parsed line_malformed
  else (∅, None).

Definition sample_getBuiltin (name : string) : option (list string → Z) :=
  if decide (name = "lcd") then Some (λ argv, if decide (length argv ≤ 2)%nat then 0 else 2)
  else if decide (name = "lecho") then Some (λ _, 0)
  else None.

Definition sample_env : Externals :=
  {| EXEC_FAILURE := 127;
     SYNTAX_ERROR_STR := "Syntax error.";
     PROMPT_STR := "$ ";
     BUILTIN_ERROR := 2;
     getBuiltin := sample_getBuiltin;
     INBACKGROUND := 1;
     IS_RIN := λ f, bool_decide (Z.land f 7 = 1);
     IS_ROUT := λ f, bool_decide (Z.land f 7 = 2);
     IS_RAPPEND := λ f, bool_decide (Z.land f 7 = 6);
     parseline := sample_parseline |}.

Definition sample_action : sigaction_t := {| sa_handler := SIG_DFL; sa_flags := [] |}.

(** A shell on a terminal, its signal handling set up as [main] does. *)
Definition sample_proc : proc :=
  {| self := 1%nat;
     fds := <[0%nat := Terminal]> (<[1%nat := Terminal]> (<[2%nat := Terminal]> ∅));
     act_int := {| sa_handler := SIG_IGN; sa_flags := [] |};
     act_chld := {| sa_handler := SigHandler "sigchldHandler";
                    sa_flags := [SA_NOCLDSTOP; SA_RESTART] |};
     chld_blocked := false;
     session_leader := false;
     default_sigint_action := sample_action;
     default_sigchld_action := sample_action;
     foreground := [];
     log := [] |}.

(** A machine with a few programs on the search path, one readable file
    and no faults, about to deliver the lines [lines]. *)
Definition sample_world (lines : list string) : world :=
  {| fs := <["notes" := {| f_mode := 420; f_data := "old" |}]> ∅;
     programs := <["ls" := true]> (<["cat" := true]> (<["true" := true]>
                 (<["false" := true]> (<["cmd1" := true]> (<["cmd2" := true]> ∅)))));
     faults := λ _, false;
     clock := 0%nat;
     next_pid := 100%nat;
     next_pipe := 0%nat;
     input := (λ l, (Some l, None)) <$> lines;
     procs := [];
     reaped := [] |}.

Definition sample_state (lines : list string) : state :=
  {| me := sample_proc; os := sample_world lines |}.

(** ** Failures in a launched child *)

(** A system call that failed. *)
Definition is_failure (c : call) : bool :=
  match c with
  | SysDup _ None | SysDup2 _ _ false | SysPipe None | SysClose _ false
  | SysOpen _ _ _ (inl _) | SysFork None | SysExecvp _ _ (Some _) => true
  | _ => false
  end.

(** Neither a failed call nor a diagnostic. *)
Definition quiet (evs : list call) : Prop :=
  count is_failure evs = 0%nat ∧ count is_diagnostic evs = 0%nat.

Section Failures.
Context `{Externals}.

(** [launch_failure f d st]: after the failed call [f] the code prints the
    diagnostic [d] and exits with status [st]. *)
Inductive launch_failure : call → call → Z → Prop :=
  | lf_close fd :
      launch_failure (SysClose fd false) (Perror "close() failed") EXIT_FAILURE
  | lf_dup2 from to :
      launch_failure (SysDup2 from to false) (Perror "dup2() failed") EXIT_FAILURE
  | lf_open_noent name fl m :
      launch_failure (SysOpen name fl m (inl ENOENT))
        (Stderr (name ++ ": no such file or directory" ++ nl)) EXIT_FAILURE
  | lf_open_acces name fl m :
      launch_failure (SysOpen name fl m (inl EACCES))
        (Stderr (name ++ ": permission denied" ++ nl)) EXIT_FAILURE
  | lf_open_other name fl m e :
      e ≠ ENOENT → e ≠ EACCES →
      launch_failure (SysOpen name fl m (inl e)) (Perror "open() failed") EXIT_FAILURE
  | lf_exec_noent name argv :
      launch_failure (SysExecvp name argv (Some ENOENT))
        (Stderr (name ++ ": no such file or directory" ++ nl)) EXEC_FAILURE
  | lf_exec_acces name argv :
      launch_failure (SysExecvp name argv (Some EACCES))
        (Stderr (name ++ ": permission denied" ++ nl)) EXEC_FAILURE
  | lf_exec_other name argv e :
      e ≠ ENOENT → e ≠ EACCES →
      launch_failure (SysExecvp name argv (Some e))
        (Stderr (name ++ ": exec error" ++ nl)) EXEC_FAILURE.

(** [contained m]: when [m] exits, what it did last was one failed call,
    one diagnostic and the exit, with no failure and no diagnostic before;
    when it does not exit it had no failure and printed no diagnostic. *)
Definition contained {A} (m : M A) : Prop :=
  ∀ s,
    match m s with
    | Exit st s' =>
        ∃ evs f d, log (me s') = log (me s) ++ evs ++ [f; d; SysExit st]
                   ∧ quiet evs ∧ launch_failure f d st
    | r => ∃ evs, log (me (state_of r)) = log (me s) ++ evs ∧ quiet evs
    end.

(** The process state of the shell after a successful [runCommand]. *)
Definition after_fork (is_background : bool) (p : pid) (parent : proc) : proc :=
  let forked := emit (SysFork (Some p)) (emit Fflush parent) in
  if is_background then forked
  else emit (RegisterForegroundChild p)
         (set_foreground (foreground parent ++ [p]) forked).

(** [signals_reset p ch]: the child [ch] of the process [p] has the
    dispositions saved in the two globals of [p] and does not block the
    termination notification. *)
Definition signals_reset (p : proc) (ch : child) : Prop :=
  act_int (c_proc ch) = default_sigint_action p
  ∧ act_chld (c_proc ch) = default_sigchld_action p
  ∧ chld_blocked (c_proc ch) = false.

(** [shell_keeps s s']: from [s] to [s'] the shell's own dispositions and
    saved defaults are the same, and every child made in between has its
    signals reset. *)
Definition shell_keeps (s s' : state) : Prop :=
  proc_sig (me s') = proc_sig (me s)
  ∧ ∃ new, procs (os s') = procs (os s) ++ new ∧ Forall (signals_reset (me s)) new.

(** [exits_with P m]: when [m] exits, the status satisfies [P]. *)
Definition exits_with (P : Z → Prop) {A} (m : M A) : Prop :=
  ∀ s st s', m s = Exit st s' → P st.

Definition failure : Z → Prop := λ st, st = EXIT_FAILURE.

End Failures.

(** A child of the sample shell just after [fork], about to read from
    descriptor 3, a duplicate of the shell's standard input. *)
Definition sample_child (lines : list string) : state :=
  {| me := born 100%nat (set_fds (<[3%nat := Terminal]> (fds sample_proc)) sample_proc);
     os := new_pid (sample_world lines) |}.

(** [cat < missing], [nosuch], [cat > a > b]. *)
Definition cat_from_missing : option command :=
  Some {| args := ["cat"]; redirs := [{| filename := "missing"; rflags := 1 |}] |}.

Definition nosuch : option command := Some {| args := ["nosuch"]; redirs := [] |}.

Definition two_truncations : list redir :=
  [{| filename := "a"; rflags := 2 |}; {| filename := "b"; rflags := 2 |}].

(** Pipelines and lines of the examples. *)
Definition lcd_too_many : pipeline :=
  {| commands := [Some {| args := ["lcd"; "a"; "b"]; redirs := [] |}]; flags := 0 |}.

Definition ls_cat : list (option command) := [simple "ls"; simple "cat"].

Definition line_true_then_false : list (addr * option pipeline) :=
  [(1%nat, foreground_of [simple "true"]); (3%nat, foreground_of [simple "false"])].

(** ** More samples *)

(** The sample shell when the reader has met a malformed line at the very
    end of its input: [getLine] returns [NULL] with [errno] set to [EIO]. *)
Definition sample_state_eio : state :=
  {| me := sample_proc; os := set_input [(None, Some EIO)] (sample_world []) |}.

(** ["true ; false"] as one clean list: nothing to drop. *)
Definition line_clean : list (addr * option pipeline) :=
  [(1%nat, foreground_of [simple "true"]); (2%nat, foreground_of [simple "false"])].

(** [lcd | cat]: a builtin name at the head of a pipeline of two. *)
Definition lcd_cat : pipeline :=
  {| commands := [simple "lcd"; simple "cat"]; flags := 0 |}.

(** ** Failures of the shell's own calls *)

(** [resource_failure f d]: after the failed call [f] of the shell's own
    process the code prints [d] with [perror]. *)
Inductive resource_failure : call → call → Prop :=
  | rf_dup fd : resource_failure (SysDup fd None) (Perror "dup() failed")
  | rf_pipe : resource_failure (SysPipe None) (Perror "pipe() failed")
  | rf_fork : resource_failure (SysFork None) (Perror ("fork() failed" ++ nl))
  | rf_close fd : resource_failure (SysClose fd false) (Perror "close() failed").

(** [fatal m]: no call of [m] fails without [m] ending the process at
    once: when [m] exits, the status is [EXIT_FAILURE] and its last three
    steps are the first call that failed, the [perror] for it and the
    exit; when it does not exit, none of its calls has failed. *)
Definition fatal {A} (m : M A) : Prop :=
  ∀ s,
    match m s with
    | Exit st s' =>
        st = EXIT_FAILURE
        ∧ ∃ evs f d, log (me s') = log (me s) ++ evs ++ [f; d; SysExit EXIT_FAILURE]
                     ∧ count is_failure evs = 0%nat ∧ resource_failure f d
    | r => ∃ evs, log (me (state_of r)) = log (me s) ++ evs ∧ count is_failure evs = 0%nat
    end.

(** The sample shell on a machine where the next system call fails. *)
Definition sample_world_failing : world :=
  {| fs := fs (sample_world []); programs := programs (sample_world []);
     faults := λ n, bool_decide (n = 0%nat);
     clock := 0%nat; next_pid := 100%nat; next_pipe := 0%nat;
     input := []; procs := []; reaped := [] |}.

Definition sample_state_failing : state :=
  {| me := sample_proc; os := sample_world_failing |}.

(** The sample shell with its standard input closed. *)
Definition sample_state_no_stdin : state :=
  {| me := set_fds (delete STDIN_FILENO (fds sample_proc)) sample_proc;
     os := sample_world [] |}.

(** ** The shape of the shell's own log *)

(** The calls the shell's own process makes one at a time while it deals
    with a line: all the calls of mshell.c outside the child's branch of
    [runCommand], but [fflush], [fork], the reading of a line and the
    prompt. *)
Definition shell_call (c : call) : bool :=
  match c with
  | SysDup _ _ | SysPipe _ | SysClose _ _ | SysExit _ | Stderr _ | Perror _
  | CallBuiltin _ _ _ | BlockChildSignal | UnblockChildSignal
  | RegisterForegroundChild _ | WaitForForegroundChildren _ => true
  | _ => false
  end.

(** The calls only the child's branch of [runCommand] makes. *)
Definition child_call (c : call) : bool :=
  match c with
  | SysDup2 _ _ _ | SysOpen _ _ _ _ | SysExecvp _ _ _ | SysSetsid | SysSigaction _ _ => true
  | _ => false
  end.

Definition is_fork_call (c : call) : bool :=
  match c with SysFork _ => true | _ => false end.

Definition is_read (c : call) : bool :=
  match c with GetLine _ _ => true | _ => false end.

Definition is_prompt (c : call) : bool :=
  match c with Printf _ | PrintBackgroundChildrenInfo => true | _ => false end.

(** [built B evs]: [evs] is made of blocks that satisfy [B], one after the
    other. *)
Definition built (B : list call → Prop) (evs : list call) : Prop :=
  ∃ blocks, evs = concat blocks ∧ Forall B blocks.

(** [emits P m]: what [m] adds to the log of the process, however it
    stops, satisfies [P]. *)
Definition emits (P : list call → Prop) {A} (m : M A) : Prop :=
  ∀ s, ∃ evs, log (me (state_of (m s))) = log (me s) ++ evs ∧ P evs.

(** [preceded is_x pre evs]: in [evs] every call of the kind [is_x] comes
    right after the calls [pre]. *)
Definition preceded (is_x : call → bool) (pre : list call) (evs : list call) : Prop :=
  ∀ a c b, evs = a ++ c :: b → is_x c = true → ∃ a', a = a' ++ pre.

Section Blocks.
Context `{Externals}.

(** The blocks of the log of the shell's loop: a call of its own; a
    [fork] with the [fflush] before it; the reading of a line, bare when
    standard input is no terminal and behind the report on background
    children, the prompt and its [fflush] when it is one. *)
Inductive shell_block (is_a_tty : bool) : list call → Prop :=
  | sb_call c : shell_call c = true → shell_block is_a_tty [c]
  | sb_fork r : shell_block is_a_tty [Fflush; SysFork r]
  | sb_read l e : is_a_tty = false → shell_block is_a_tty [GetLine l e]
  | sb_prompt l e :
      is_a_tty = true →
      shell_block is_a_tty
        [PrintBackgroundChildrenInfo; Printf PROMPT_STR; Fflush; GetLine l e].

End Blocks.

(** The sample shell reading from a file instead of a terminal. *)
Definition sample_state_batch (lines : list string) : state :=
  {| me := set_fds (<[STDIN_FILENO := File "script" [O_RDONLY]]> (fds sample_proc))
             sample_proc;
     os := sample_world lines |}.

(** ** What only [execvp] does *)

(** [never_execs m]: [m] does not end by running another program. *)
Definition never_execs {A} (m : M A) : Prop := ∀ s f a s', m s ≠ Exec f a s'.

Definition is_exec (c : call) : bool :=
  match c with SysExecvp _ _ _ => true | _ => false end.

(** [cat > a < missing > b]: the second of three redirections fails. *)
Definition cat_a_missing_b : command :=
  {| args := ["cat"];
     redirs := [{| filename := "a"; rflags := 2 |};
                {| filename := "missing"; rflags := 1 |};
                {| filename := "b"; rflags := 2 |}] |}.

(** [cat < notes > out]. *)
Definition cat_notes_out : command :=
  {| args := ["cat"; "-n"];
     redirs := [{| filename := "notes"; rflags := 1 |};
                {| filename := "out"; rflags := 2 |}] |}.

(** ** The shell's own process *)

(** [safe m]: [m] returns or exits; it neither follows a [NULL] pointer
    nor turns into another program. *)
Definition safe {A} (m : M A) : Prop :=
  ∀ s, match m s with Ret _ _ | Exit _ _ => True | _ => False end.

(** [children_lead b s s']: the children made from [s] to [s'] all have
    [b] as their answer to "does this process lead a session of its own",
    and the shell's own answer has not changed. *)
Definition children_lead (b : bool) (s s' : state) : Prop :=
  session_leader (me s') = session_leader (me s)
  ∧ ∃ new, procs (os s') = procs (os s) ++ new
           ∧ Forall (λ ch, session_leader (c_proc ch) = b) new.



(** [sleep 5 | cat &]: a background pipeline of two. *)
Definition sleep_cat : list (option command) :=
  [Some {| args := ["sleep"; "5"]; redirs := [] |}; simple "cat"].

(** ** Shorthands of the statements *)

(** What [m] adds to the log is built from the blocks of the shell. *)
Abbreviation shaped tty := (emits (built (shell_block tty))) (only parsing).

(** What [m] adds to the log holds no [execvp]. *)
Abbreviation no_exec := (emits (Forall (λ c, is_exec c = false))) (only parsing).

(** [m] leaves the file system as it is. *)
Abbreviation keeps_fs := (stable (keeps (λ s, fs (os s)))) (only parsing).

(** * Validation: the circular list *)

Section Chain.
Implicit Types (h : heap) (l : list (addr * option pipeline)) (e : addr).

Lemma chain_app h l1 l2 e :
  chain h (l1 ++ l2) e ↔ chain h l1 (first_addr l2 e) ∧ chain h l2 e.
Proof.
  induction l1 as [|x l1 IH]; simpl.
  - tauto.
  - rewrite IH. destruct l1; simpl; tauto.
Qed.

Lemma chain_insert_fresh h l e a n :
  a ∉ l.*1 → chain (<[a := n]> h) l e ↔ chain h l e.
Proof.
  induction l as [|x l IH]; simpl; [tauto|].
  intros Hn. apply not_elem_of_cons in Hn as [Hne Hn].
  rewrite lookup_insert_ne by done. rewrite IH by done. tauto.
Qed.

Lemma chain_lookup h l e a p :
  chain h l e → (a, p) ∈ l → ∃ n, h !! a = Some {| ps_pipeline := p; ps_next := n |}.
Proof.
  induction l as [|x l IH]; simpl; intros Hc Hin.
  - by apply elem_of_nil in Hin.
  - destruct Hc as [Hx Hc]. apply elem_of_cons in Hin as [<-|Hin]; eauto.
Qed.

Lemma chain_bound h l e : chain h l e → NoDup l.*1 → (length l ≤ size h)%nat.
Proof.
  intros Hc Hnd.
  assert (Hsub : (list_to_set (C := gset addr) l.*1) ⊆ dom h).
  { intros a Ha. apply elem_of_list_to_set, list_elem_of_fmap in Ha as ([a' p] & -> & Hin).
    destruct (chain_lookup _ _ _ _ _ Hc Hin) as [n Hn].
    apply elem_of_dom. eauto. }
  apply subseteq_size in Hsub.
  rewrite size_list_to_set, length_fmap, size_dom in Hsub; done.
Qed.

Lemma count_loop_chain h head l :
  ∀ fuel n,
    l ≠ [] → chain h l head → head ∉ (tail l).*1 → (length l ≤ fuel)%nat →
    count_loop fuel h head (first_addr l head) n = Some (n + Z.of_nat (length l), head).
Proof.
  induction l as [|x l IH]; intros fuel n Hne Hc Hh Hf; [done|].
  destruct fuel as [|fuel]; [simpl in Hf; lia|].
  destruct Hc as [Hx Hc]. simpl in Hh, Hf. simpl count_loop. simpl first_addr.
  rewrite Hx. simpl.
  destruct l as [|y l].
  - simpl. rewrite decide_True by done. done.
  - simpl first_addr at 1. rewrite decide_False.
    2:{ intros Heq. apply Hh. rewrite fmap_cons, <- Heq. by left. }
    rewrite fmap_cons in Hh. apply not_elem_of_cons in Hh as [_ Hh].
    change y.1 with (first_addr (y :: l) head).
    rewrite IH; [|done|done|done|lia].
    do 2 f_equal. simpl length. lia.
Qed.

Lemma find_loop_all_empty h l e :
  chain h l e → Forall (λ x, isEmptyPipeline x.2 = true) l →
  find_loop (length l) h (first_addr l e) = Some e.
Proof.
  induction l as [|x l IH]; simpl; intros Hc Hall; [done|].
  destruct Hc as [Hx Hc]. apply Forall_cons in Hall as [Hx' Hall].
  rewrite Hx. simpl. rewrite Hx'. by apply IH.
Qed.

Lemma find_loop_first h l1 x l2 e :
  ∀ k, chain h (l1 ++ x :: l2) e → Forall (λ x, isEmptyPipeline x.2 = true) l1 →
       isEmptyPipeline x.2 = false → (length l1 < k)%nat →
       find_loop k h (first_addr (l1 ++ x :: l2) e) = Some x.1.
Proof.
  induction l1 as [|y l1 IH]; intros k Hc Hall Hx Hk.
  - destruct k; [lia|]. simpl in *. destruct Hc as [Hh _]. rewrite Hh. simpl. by rewrite Hx.
  - destruct k; [simpl in Hk; lia|]. simpl in *. destruct Hc as [Hh Hc].
    apply Forall_cons in Hall as [Hy Hall].
    rewrite Hh. simpl. rewrite Hy. apply IH; [done..|lia].
Qed.

(** The removal loop over the nodes still to visit, [todo]; [done_ ++ [p]]
    are the nodes already linked, [p] being [prev]. *)
Lemma remove_loop_chain e todo :
  ∀ h done_ p num k,
    NoDup (done_ ++ p :: todo).*1 →
    chain h (done_ ++ [p]) (first_addr todo e) →
    chain h todo e →
    ∃ h' p',
      remove_loop (length todo + k) h p.1 (first_addr todo e) num
      = remove_loop k h' p'.1 e
          (num - Z.of_nat (length todo) + Z.of_nat (length (kept todo)))
      ∧ last (p :: kept todo) = Some p'
      ∧ chain h' (done_ ++ p :: kept todo) e.
Proof.
  induction todo as [|x todo IH]; intros h done_ p num k Hnd Hd Ht.
  - exists h, p. simpl. split; [f_equal; lia|]. split; [done|].
    simpl in Hd. done.
  - simpl in Ht. destruct Ht as [Hx Ht].
    simpl length. simpl plus. simpl remove_loop. simpl first_addr.
    rewrite Hx. simpl.
    assert (Hp : h !! p.1 = Some {| ps_pipeline := p.2; ps_next := x.1 |}).
    { apply chain_app in Hd as [_ Hd]. simpl in Hd. tauto. }
    destruct (isEmptyPipeline x.2) eqn:Hemp; rewrite Hp; simpl.
    + (* unlink x *)
      set (h1 := <[p.1 := {| ps_pipeline := p.2; ps_next := first_addr todo e |}]> h).
      rewrite !fmap_app, !fmap_cons in Hnd.
      apply NoDup_app in Hnd as (Hnd1 & Hnd2 & Hnd3).
      apply NoDup_cons in Hnd3 as [Hp3 Hnd3].
      apply NoDup_cons in Hnd3 as [Hx3 Hnd3].
      apply not_elem_of_cons in Hp3 as [Hpx Hp3].
      destruct (IH h1 done_ p (num - 1) k) as (h' & p' & Heq & Hl & Hc).
      * rewrite !fmap_app, !fmap_cons. apply NoDup_app. split; [done|].
        split; [|by apply NoDup_cons].
        intros a Ha Hin. apply (Hnd2 a Ha).
        apply elem_of_cons in Hin as [->|Hin]; [by left|]. right. by right.
      * apply chain_app. apply chain_app in Hd as [Hd1 Hd2]. split.
        -- simpl. subst h1. apply chain_insert_fresh; [|done].
           intros Hin. apply (Hnd2 _ Hin). by left.
        -- simpl. subst h1. by rewrite lookup_insert_eq.
      * subst h1. by apply chain_insert_fresh.
      * exists h', p'. unfold kept in *. rewrite filter_cons_False by (simpl; congruence).
        split; [|done]. rewrite Heq. f_equal. lia.
    + (* keep x: prev moves on *)
      rewrite !fmap_app, !fmap_cons in Hnd.
      destruct (IH h (done_ ++ [p]) x num k) as (h' & p' & Heq & Hl & Hc).
      * rewrite <- (assoc_L (++)). simpl. by rewrite !fmap_app, !fmap_cons.
      * apply chain_app. split; [|simpl; done].
        simpl. done.
      * done.
      * exists h', p'. unfold kept in *. rewrite filter_cons_True by done.
        split; [rewrite Heq; f_equal; simpl length; lia|].
        split; [done|]. by rewrite <- (assoc_L (++)) in Hc.
Qed.

Lemma check_loop_ok h a p n k :
  h !! a = Some {| ps_pipeline := p; ps_next := n |} →
  isEmptyPipeline p = false → has_null p = false →
  check_loop k h a = Some true.
Proof.
  intros Ha He Hn. induction k as [|k IH]; simpl; [done|].
  rewrite Ha. simpl. destruct p as [pl|]; [|done]. simpl in *.
  destruct (commands pl) eqn:Hc; [done|]. simpl scan_commands. simpl.
  simpl in Hn. rewrite Hn. done.
Qed.

Lemma check_loop_bad h a p n k :
  h !! a = Some {| ps_pipeline := p; ps_next := n |} →
  isEmptyPipeline p = false → has_null p = true →
  check_loop (S k) h a = Some false.
Proof.
  intros Ha He Hn. simpl.
  rewrite Ha. simpl. destruct p as [pl|]; [|done]. simpl in *.
  destruct (commands pl) eqn:Hc; [done|]. simpl scan_commands. simpl.
  simpl in Hn. rewrite Hn. done.
Qed.

End Chain.

Lemma kept_all_empty (l : list (addr * option pipeline)) :
  Forall (λ x, isEmptyPipeline x.2 = true) l → kept l = [].
Proof.
  induction 1 as [|x l Hx _ IH]; [done|].
  unfold kept in *. rewrite filter_cons_False; [done|]. simpl. congruence.
Qed.

Lemma split_empty_prefix (l : list (addr * option pipeline)) :
  ∃ l1 l2, l = l1 ++ l2 ∧ Forall (λ x, isEmptyPipeline x.2 = true) l1
           ∧ match l2 with [] => True | x :: _ => isEmptyPipeline x.2 = false end.
Proof.
  induction l as [|x l (l1 & l2 & -> & Hall & Hh)].
  - by exists [], [].
  - destruct (isEmptyPipeline x.2) eqn:Hx.
    + exists (x :: l1), l2. split; [done|]. split; [by constructor|done].
    + exists [], (x :: l1 ++ l2). done.
Qed.

Lemma kept_NoDup (l : list (addr * option pipeline)) : NoDup l.*1 → NoDup (kept l).*1.
Proof.
  intros Hnd. eapply sublist_NoDup; [exact Hnd|].
  apply fmap_sublist, sublist_filter.
Qed.

(** What [removeEmptyPipelines] does to a circular list. *)
Lemma removeEmptyPipelines_cycle (h : heap) (l : list (addr * option pipeline)) :
  cycle h l →
  ∃ h',
    removeEmptyPipelines h (head_of l)
    = Some (match kept l with
            | [] => (h', None, 0)
            | x :: _ =>
                if has_null x.2 then (h', None, -1)
                else (h', Some x.1, Z.of_nat (length (kept l)))
            end)
    ∧ (kept l ≠ [] → cycle h' (kept l)).
Proof.
  intros (Hnd & Hne & Hc).
  destruct l as [|x0 l0] eqn:El; [done|]. rewrite <- El in *.
  assert (Hfa : ∀ e, first_addr l e = x0.1) by (intros; by subst l).
  rewrite Hfa in Hc.
  assert (Hhead : head_of l = Some x0.1) by (by subst l).
  rewrite Hhead. unfold removeEmptyPipelines.
  pose proof (count_loop_chain h x0.1 l (size h) 0) as Hcount.
  rewrite Hfa in Hcount. rewrite Hcount; cycle 1.
  { done. } { done. }
  { subst l. simpl. rewrite fmap_cons in Hnd. by apply NoDup_cons in Hnd as [? _]. }
  { by apply chain_bound with x0.1. }
  simpl. rewrite Z.add_0_l, Nat2Z.id.
  destruct (split_empty_prefix l) as (l1 & l2 & Hl & Hall & Hl2).
  destruct l2 as [|x l2].
  - (* every pipeline is empty *)
    rewrite app_nil_r in Hl. subst l1.
    pose proof (find_loop_all_empty h l x0.1 Hc Hall) as Hf. rewrite Hfa in Hf.
    rewrite Hf. simpl.
    assert (Hx0 : h !! x0.1 = Some {| ps_pipeline := x0.2; ps_next := first_addr l0 x0.1 |}).
    { rewrite El in Hc. simpl in Hc. tauto. }
    rewrite Hx0. simpl.
    assert (He0 : isEmptyPipeline x0.2 = true).
    { rewrite El in Hall. by apply Forall_cons in Hall as [? _]. }
    rewrite He0. rewrite (kept_all_empty l Hall). exists h. done.
  - (* [x] is the first pipeline that is not empty *)
    pose proof (find_loop_first h l1 x l2 x0.1 (length l)) as Hf.
    rewrite <- Hl, Hfa in Hf. rewrite Hf; [|done..|rewrite Hl, length_app; simpl; lia].
    simpl.
    assert (Hc' := Hc). rewrite Hl in Hc'. apply chain_app in Hc' as [Hc1 Hc2].
    simpl first_addr in Hc1.
    assert (He : first_addr l1 x.1 = x0.1).
    { destruct l1 as [|y l1]; simpl in Hl; rewrite El in Hl; by inversion Hl. }
    set (todo := l2 ++ l1).
    assert (Htodo : chain h todo x.1).
    { unfold todo. apply chain_app. split; [|done].
      rewrite He. simpl in Hc2. tauto. }
    assert (Hx : h !! x.1 = Some {| ps_pipeline := x.2; ps_next := first_addr todo x.1 |}).
    { simpl in Hc2. destruct Hc2 as [Hx _]. rewrite Hx. do 2 f_equal.
      unfold todo. destruct l2; simpl; [|done]. by rewrite He. }
    rewrite Hx. simpl. rewrite Hl2.
    assert (Hnd' : NoDup (x :: todo).*1).
    { unfold todo. rewrite Hl in Hnd.
      assert (Hp : x :: l2 ++ l1 ≡ₚ l1 ++ x :: l2).
      { change (x :: l2 ++ l1) with ((x :: l2) ++ l1). apply Permutation_app_comm. }
      by rewrite Hp. }
    assert (Hlen : length l = (length todo + 1)%nat).
    { rewrite Hl. unfold todo. rewrite !length_app. simpl. lia. }
    rewrite Hlen.
    destruct (remove_loop_chain x.1 todo h [] x (Z.of_nat (length todo + 1)) 1%nat)
      as (h' & p' & Heq & Hlast & Hch); [done|simpl; done|done|].
    rewrite Heq. simpl in Hch.
    assert (Hx' : h' !! x.1
                  = Some {| ps_pipeline := x.2; ps_next := first_addr (kept todo) x.1 |})
      by tauto.
    assert (Hp' : ∃ n, h' !! p'.1 = Some {| ps_pipeline := p'.2; ps_next := n |}).
    { apply (chain_lookup h' (x :: kept todo) x.1); [done|].
      destruct p'. apply last_Some_elem_of in Hlast. done. }
    destruct Hp' as [n Hp'].
    simpl remove_loop. rewrite Hx'. simpl. rewrite Hl2, Hp'. simpl.
    assert (Hk : kept l = x :: kept todo).
    { rewrite Hl. unfold kept, todo. rewrite !filter_app.
      fold (kept l1). rewrite (kept_all_empty l1 Hall). simpl.
      rewrite filter_cons_True by done. by rewrite app_nil_r. }
    rewrite Hk.
    replace (Z.of_nat (length todo + 1) - Z.of_nat (length todo)
             + Z.of_nat (length (kept todo)))
      with (Z.of_nat (S (length (kept todo)))) by lia.
    rewrite Nat2Z.id.
    exists h'. split.
    + destruct (has_null x.2) eqn:Hn.
      * erewrite check_loop_bad; [done|exact Hx'|done|done].
      * erewrite check_loop_ok; [done|exact Hx'|done|done].
    + intros _. split; [|split; [done|]].
      * rewrite <- Hk. by apply kept_NoDup.
      * simpl. done.
Qed.

(** * Descriptors *)

Lemma lowest_from_spec (t : gmap nat fobj) :
  ∀ fuel k,
    (∀ j, (k ≤ j < lowest_from fuel t k)%nat → is_Some (t !! j))
    ∧ (t !! lowest_from fuel t k = None ∨ lowest_from fuel t k = (k + fuel)%nat).
Proof.
  induction fuel as [|fuel IH]; intros k; simpl.
  - split; [lia|]. right. lia.
  - destruct (t !! k) eqn:Hk.
    + destruct (IH (S k)) as [H1 H2]. split.
      * intros j Hj. destruct (decide (j = k)) as [->|]; [eauto|]. apply H1. lia.
      * destruct H2 as [H2|H2]; [by left|right; lia].
    + split; [lia|by left].
Qed.

(** [dup], [pipe] and [open] hand out a descriptor that was not open. *)
Lemma lowest_free_fresh (t : gmap nat fobj) : t !! lowest_free t = None.
Proof.
  unfold lowest_free.
  destruct (lowest_from_spec t (size t) 0) as [H1 [H2|H2]]; [done|].
  rewrite H2 in *. simpl in *.
  assert (Hsub : set_seq (C := gset nat) 0 (size t) ⊆ dom t).
  { intros j Hj. apply elem_of_set_seq in Hj. apply elem_of_dom, H1. lia. }
  assert (Heq : set_seq (C := gset nat) 0 (size t) ≡ dom t).
  { apply set_subseteq_size_equiv; [done|]. rewrite size_set_seq, size_dom. done. }
  apply not_elem_of_dom. rewrite <- Heq. rewrite elem_of_set_seq. lia.
Qed.

Lemma lowest_free_ne (t : gmap nat fobj) fd : is_Some (t !! fd) → lowest_free t ≠ fd.
Proof. intros [o Ho] Heq. rewrite <- Heq, lowest_free_fresh in Ho. done. Qed.

(** * The monad *)

Lemma bind_ret_l {A B} (a : A) (k : A → M B) s : bind (ret a) k s = k a s.
Proof. done. Qed.

Lemma bind_Ret {A B} (m : M A) (k : A → M B) s a s' :
  m s = Ret a s' → bind m k s = k a s'.
Proof. unfold bind. by intros ->. Qed.

Lemma bind_Exit {A B} (m : M A) (k : A → M B) s st s' :
  m s = Exit st s' → bind m k s = Exit st s'.
Proof. unfold bind. by intros ->. Qed.

Lemma bind_inv_Ret {A B} (m : M A) (k : A → M B) s b s' :
  bind m k s = Ret b s' → ∃ a s1, m s = Ret a s1 ∧ k a s1 = Ret b s'.
Proof. unfold bind. destruct (m s) eqn:E; try done. eauto. Qed.

Lemma bind_inv_Exit {A B} (m : M A) (k : A → M B) s st s' :
  bind m k s = Exit st s' →
  m s = Exit st s' ∨ ∃ a s1, m s = Ret a s1 ∧ k a s1 = Exit st s'.
Proof.
  unfold bind. destruct (m s) eqn:E; intros Hk; try discriminate.
  - right. by exists a, s0.
  - left. by inversion Hk.
Qed.

Lemma ending_of_state {A} (r : res A) : (ending_of r).2 = state_of r.
Proof. by destruct r. Qed.

Lemma stable_ret R `{!Reflexive R} {A} (a : A) : stable R (ret a).
Proof. intros s. simpl. reflexivity. Qed.

Lemma stable_fault R `{!Reflexive R} {A} : stable R (@fault A).
Proof. intros s. simpl. reflexivity. Qed.

Lemma stable_deref R `{!Reflexive R} {A} (o : option A) : stable R (deref o).
Proof. destruct o; [apply stable_ret|apply stable_fault]; done. Qed.

Lemma stable_bind R `{!Transitive R} {A B} (m : M A) (k : A → M B) :
  stable R m → (∀ a, stable R (k a)) → stable R (bind m k).
Proof.
  intros Hm Hk s. unfold bind. specialize (Hm s).
  destruct (m s) as [a s1| | |]; simpl in *; try done.
  etrans; [exact Hm|]. apply Hk.
Qed.

(** * What the child leaves alone *)

#[global] Instance keeps_refl {X} (f : state → X) : Reflexive (keeps f).
Proof. by intros s. Qed.

#[global] Instance keeps_trans {X} (f : state → X) : Transitive (keeps f).
Proof. unfold keeps. intros s1 s2 s3 H1 H2. congruence. Qed.

Lemma keeps_weaken {X Y} (f : state → X) (g : X → Y) {A} (m : M A) :
  stable (keeps f) m → stable (keeps (λ s, g (f s))) m.
Proof. unfold stable, keeps. intros Hm s. by rewrite Hm. Qed.

Create HintDb stable.

Ltac stable_go :=
  repeat first
    [ apply stable_ret; apply _
    | apply stable_fault; apply _
    | apply stable_deref; apply _
    | apply stable_bind; [apply _ | | intros ?]
    | match goal with
      | |- stable _ (match ?x with _ => _ end) => destruct x
      end
    | solve [eauto with stable] ].

Ltac prim_frozen :=
  intros s; unfold keeps, frozen, world_fixed, proc_fixed; simpl;
  repeat case_match; simpl; reflexivity.

Lemma emitM_frozen c : stable (keeps frozen) (emitM c).
Proof. prim_frozen. Qed.
Lemma sys_dup2_frozen a b : stable (keeps frozen) (sys_dup2 a b).
Proof. unfold sys_dup2. prim_frozen. Qed.
Lemma sys_close_frozen a : stable (keeps frozen) (sys_close a).
Proof. unfold sys_close. prim_frozen. Qed.
Lemma sys_open_frozen p fl m : stable (keeps frozen) (sys_open p fl m).
Proof. unfold sys_open. prim_frozen. Qed.
Lemma sys_execvp_frozen n a : stable (keeps frozen) (sys_execvp n a).
Proof. unfold sys_execvp. prim_frozen. Qed.
Lemma sys_exit_frozen {A} st : stable (keeps frozen) (@sys_exit A st).
Proof. prim_frozen. Qed.
#[global] Hint Resolve emitM_frozen sys_dup2_frozen sys_close_frozen sys_open_frozen
  sys_execvp_frozen sys_exit_frozen : stable.

Lemma closeFileDescriptor_frozen fd : stable (keeps frozen) (closeFileDescriptor fd).
Proof. unfold closeFileDescriptor. stable_go. Qed.
#[global] Hint Resolve closeFileDescriptor_frozen : stable.

Lemma moveFileDescriptor_frozen a b : stable (keeps frozen) (moveFileDescriptor a b).
Proof. unfold moveFileDescriptor. stable_go. Qed.
#[global] Hint Resolve moveFileDescriptor_frozen : stable.

Lemma openFile_frozen n fl m : stable (keeps frozen) (openFile n fl m).
Proof. unfold openFile. stable_go. Qed.
#[global] Hint Resolve openFile_frozen : stable.

Section Child.
Context `{Externals}.

Lemma addRedirs_frozen r : stable (keeps frozen) (addRedirs r).
Proof. unfold addRedirs. stable_go. Qed.
Hint Resolve addRedirs_frozen : stable.

Lemma redirs_loop_frozen rs : stable (keeps frozen) (redirs_loop rs).
Proof. induction rs; simpl; stable_go. Qed.
Hint Resolve redirs_loop_frozen : stable.

Lemma child_wire_frozen rd pf : stable (keeps frozen) (child_wire rd pf).
Proof. unfold child_wire. stable_go. Qed.

Lemma child_exec_frozen com : stable (keeps frozen) (child_exec com).
Proof. unfold child_exec. stable_go. Qed.

(** The session and signal steps always run to their end. *)
Lemma child_signals_eq bg s :
  child_signals bg s = Ret tt {| me := after_signals bg (me s); os := os s |}.
Proof. destruct s as [p w]. destruct bg; reflexivity. Qed.

Lemma runCommand_child_eq com rd pf bg s :
  runCommand_child com rd pf bg s
  = (child_wire rd pf;; child_exec com) {| me := after_signals bg (me s); os := os s |}.
Proof. unfold runCommand_child. unfold bind at 1. by rewrite child_signals_eq. Qed.

Lemma child_rest_frozen com rd pf : stable (keeps frozen) (child_wire rd pf;; child_exec com).
Proof.
  apply stable_bind; [apply _|apply child_wire_frozen|intros; apply child_exec_frozen].
Qed.

Lemma runCommand_child_world com rd pf bg :
  stable (keeps (λ s, world_fixed (os s))) (runCommand_child com rd pf bg).
Proof.
  intros s. rewrite runCommand_child_eq. unfold keeps.
  pose proof (child_rest_frozen com rd pf {| me := after_signals bg (me s); os := os s |}) as Hf.
  unfold keeps, frozen in Hf. apply (f_equal fst) in Hf. exact Hf.
Qed.

(** The child never comes back into the shell's code. *)
Lemma child_exec_no_return com s s' : child_exec com s ≠ Ret tt s'.
Proof.
  unfold child_exec. intros Hr.
  repeat (apply bind_inv_Ret in Hr as (? & ? & _ & Hr)). done.
Qed.

Lemma runCommand_child_no_return com rd pf bg s s' :
  runCommand_child com rd pf bg s ≠ Ret tt s'.
Proof.
  rewrite runCommand_child_eq. intros Hr.
  apply bind_inv_Ret in Hr as (? & ? & _ & Hr). destruct x. by apply child_exec_no_return in Hr.
Qed.

End Child.

(** * Runs without faults *)

Lemma no_faults_faulty w : no_faults w → faulty w = false.
Proof. intros Hn. apply Hn. Qed.

Lemma no_faults_fixed w w' : world_fixed w' = world_fixed w → no_faults w → no_faults w'.
Proof. unfold world_fixed, no_faults. intros Hw Hn n. inversion Hw as [Hf]. rewrite Hf. apply Hn. Qed.

Lemma no_faults_frozen s s' : frozen s' = frozen s → no_faults (os s) → no_faults (os s').
Proof. intros Hf. apply no_faults_fixed. by apply (f_equal fst) in Hf. Qed.

Lemma frozen_trans s1 s2 s3 : frozen s2 = frozen s1 → frozen s3 = frozen s2 → frozen s3 = frozen s1.
Proof. congruence. Qed.

Lemma sys_close_ok s fd o :
  faulty (os s) = false → fds (me s) !! fd = Some o →
  sys_close fd s
  = Ret true {| me := emit (SysClose fd true) (set_fds (delete fd (fds (me s))) (me s));
                os := tick (os s) |}.
Proof. intros Hf Ho. unfold sys_close. by rewrite Hf, Ho. Qed.

Lemma closeFileDescriptor_ok s fd o :
  faulty (os s) = false → fds (me s) !! fd = Some o →
  closeFileDescriptor fd s
  = Ret tt {| me := emit (SysClose fd true) (set_fds (delete fd (fds (me s))) (me s));
              os := tick (os s) |}.
Proof.
  intros Hf Ho. unfold closeFileDescriptor.
  erewrite bind_Ret by (by eapply sys_close_ok). done.
Qed.

Lemma sys_dup2_ok s from to o :
  faulty (os s) = false → fds (me s) !! from = Some o →
  sys_dup2 from to s
  = Ret true {| me := emit (SysDup2 from to true) (set_fds (<[to := o]> (fds (me s))) (me s));
                os := tick (os s) |}.
Proof. intros Hf Ho. unfold sys_dup2. by rewrite Hf, Ho. Qed.

(** [moveFileDescriptor] when nothing fails: afterwards [to] refers to
    what [from] referred to and [from] is closed. *)
Lemma moveFileDescriptor_ok s from to o :
  no_faults (os s) → fds (me s) !! from = Some o →
  ∃ s', moveFileDescriptor from to s = Ret tt s'
        ∧ fds (me s') = <[to := o]> (delete from (fds (me s)))
        ∧ log (me s')
          = log (me s) ++ (if decide (from = to) then []
                           else [SysDup2 from to true; SysClose from true])
        ∧ frozen s' = frozen s ∧ fs (os s') = fs (os s).
Proof.
  intros Hn Ho. unfold moveFileDescriptor. destruct (decide (from = to)) as [->|Hne].
  - exists s. split; [done|]. split.
    + rewrite insert_delete_eq. by rewrite insert_id.
    + by rewrite app_nil_r.
  - erewrite bind_Ret by (eapply sys_dup2_ok; [by apply no_faults_faulty|done]).
    cbv beta iota. erewrite closeFileDescriptor_ok; cycle 1.
    { apply Hn. } { simpl. by rewrite lookup_insert_ne. }
    eexists. split; [done|]. simpl. split; [|split; [|done]].
    + by rewrite delete_insert_ne.
    + by rewrite <- (assoc_L (++)).
Qed.

Section Wire.
Context `{Externals}.

(** The wiring of the last stage: only standard input is replaced. *)
Lemma child_wire_last s (T : gmap nat fobj) rd ino :
  no_faults (os s) → is_Some (T !! 0%nat) → T !! rd = None →
  fds (me s) = <[rd := ino]> T →
  ∃ s', child_wire rd None s = Ret tt s'
        ∧ fds (me s') = <[0%nat := ino]> T
        ∧ frozen s' = frozen s.
Proof.
  intros Hn H0 Hrd Hfds. unfold child_wire.
  destruct (moveFileDescriptor_ok s rd STDIN_FILENO ino Hn) as (s1 & Hm & Hf & _ & Hfr & _).
  { by rewrite Hfds, lookup_insert_eq. }
  erewrite bind_Ret by exact Hm. exists s1. split; [done|]. split; [|done].
  rewrite Hf, Hfds. by rewrite delete_insert_eq, delete_id.
Qed.

(** The wiring of a stage with a pipe: standard input is what [rd]
    referred to, standard output the write end, and neither [rd] nor the
    two pipe descriptors stay open. *)
Lemma child_wire_pipe s (T : gmap nat fobj) rd ino r w k :
  no_faults (os s) → is_Some (T !! 0%nat) → is_Some (T !! 1%nat) →
  T !! rd = None → T !! r = None → T !! w = None → r ≠ rd → w ≠ rd → r ≠ w →
  fds (me s) = <[w := PipeW k]> (<[r := PipeR k]> (<[rd := ino]> T)) →
  ∃ s', child_wire rd (Some (r, w)) s = Ret tt s'
        ∧ fds (me s') = <[1%nat := PipeW k]> (<[0%nat := ino]> T)
        ∧ frozen s' = frozen s.
Proof.
  intros Hn H0 H1 Hrd Hr Hw Hrrd Hwrd Hrw Hfds. unfold child_wire.
  assert (rd ≠ 0%nat) by (intros ->; rewrite Hrd in H0; by destruct H0).
  assert (r ≠ 0%nat) by (intros ->; rewrite Hr in H0; by destruct H0).
  assert (w ≠ 0%nat) by (intros ->; rewrite Hw in H0; by destruct H0).
  assert (r ≠ 1%nat) by (intros ->; rewrite Hr in H1; by destruct H1).
  assert (w ≠ 1%nat) by (intros ->; rewrite Hw in H1; by destruct H1).
  assert (rd ≠ 1%nat) by (intros ->; rewrite Hrd in H1; by destruct H1).
  destruct (moveFileDescriptor_ok s rd STDIN_FILENO ino Hn) as (s1 & Hm & Hf1 & _ & Hfr1 & _).
  { rewrite Hfds. by rewrite !lookup_insert_ne, lookup_insert_eq by done. }
  erewrite bind_Ret by exact Hm. cbv beta iota.
  assert (Hn1 : no_faults (os s1)).
  { by eapply no_faults_frozen. }
  destruct (moveFileDescriptor_ok s1 w STDOUT_FILENO (PipeW k) Hn1) as (s2 & Hm2 & Hf2 & _ & Hfr2 & _).
  { rewrite Hf1, Hfds. unfold STDIN_FILENO.
    rewrite lookup_insert_ne, lookup_delete_ne, lookup_insert_eq by done. done. }
  erewrite bind_Ret by exact Hm2. cbv beta iota.
  assert (Hn2 : no_faults (os s2)).
  { by eapply no_faults_frozen. }
  erewrite closeFileDescriptor_ok; cycle 1.
  { by apply no_faults_faulty. }
  { rewrite Hf2, Hf1, Hfds. unfold STDIN_FILENO, STDOUT_FILENO.
    rewrite lookup_insert_ne, lookup_delete_ne, lookup_insert_ne,
      lookup_delete_ne, lookup_insert_ne, lookup_insert_eq by done. done. }
  eexists. split; [done|]. simpl. split.
  - rewrite Hf2, Hf1, Hfds. unfold STDIN_FILENO, STDOUT_FILENO.
    apply map_eq. intros i.
    destruct (decide (i = 1%nat)) as [->|]; [by rewrite lookup_delete_ne, !lookup_insert_eq|].
    destruct (decide (i = 0%nat)) as [->|].
    { rewrite lookup_delete_ne, lookup_insert_ne, lookup_delete_ne, lookup_insert_eq by done.
      by rewrite lookup_insert_ne, lookup_insert_eq. }
    rewrite (lookup_insert_ne _ 1%nat i), (lookup_insert_ne _ 0%nat i) by done.
    destruct (decide (i = r)) as [->|]; [by rewrite lookup_delete_eq|].
    rewrite lookup_delete_ne, lookup_insert_ne by done.
    destruct (decide (i = w)) as [->|]; [by rewrite lookup_delete_eq|].
    rewrite lookup_delete_ne, lookup_insert_ne by done.
    destruct (decide (i = rd)) as [->|]; [by rewrite lookup_delete_eq|].
    rewrite lookup_delete_ne by done.
    by rewrite !lookup_insert_ne by done.
  - rewrite <- Hfr1, <- Hfr2. done.
Qed.

End Wire.

(** * Launching the stages of a pipeline *)

Lemma fds_after_signals bg p : fds (after_signals bg p) = fds p.
Proof. by destruct bg. Qed.

Lemma sys_pipe_ok s :
  faulty (os s) = false →
  let r := lowest_free (fds (me s)) in
  let w := lowest_free (<[r := PipeR (next_pipe (os s))]> (fds (me s))) in
  sys_pipe s
  = Ret (Some (r, w))
        {| me := emit (SysPipe (Some (r, w)))
                   (set_fds (<[w := PipeW (next_pipe (os s))]>
                               (<[r := PipeR (next_pipe (os s))]> (fds (me s)))) (me s));
           os := new_pipe (tick (os s)) |}.
Proof. intros Hf. unfold sys_pipe. by rewrite Hf. Qed.

Lemma sys_dup_ok s fd o :
  faulty (os s) = false → fds (me s) !! fd = Some o →
  let n := lowest_free (fds (me s)) in
  sys_dup fd s
  = Ret (Some n) {| me := emit (SysDup fd (Some n)) (set_fds (<[n := o]> (fds (me s))) (me s));
                    os := tick (os s) |}.
Proof. intros Hf Ho. unfold sys_dup. by rewrite Hf, Ho. Qed.

Ltac map_solve :=
  apply map_eq; intros ?i;
  repeat (first [rewrite lookup_insert | rewrite lookup_delete | case_decide; subst]);
  try done; try congruence.

Section Launch.
Context `{Externals}.

(** The shell's side of [runCommand] when [fork] succeeds. *)
Lemma runCommand_ok com rd pf bg s :
  no_faults (os s) →
  let p := next_pid (os s) in
  let r := ending_of (runCommand_child com rd pf bg
                        {| me := born p (me s); os := new_pid (tick (os s)) |}) in
  ∃ s', runCommand com rd pf bg s = Ret tt s'
        ∧ no_faults (os s')
        ∧ fds (me s') = fds (me s)
        ∧ log (me s') = log (me s) ++ [Fflush; SysFork (Some p)]
                        ++ (if bg then [] else [RegisterForegroundChild p])
        ∧ foreground (me s') = foreground (me s) ++ (if bg then [] else [p])
        ∧ chld_blocked (me s') = chld_blocked (me s)
        ∧ proc_sig (me s') = proc_sig (me s)
        ∧ procs (os s') = procs (os s) ++ [{| c_pid := p; c_proc := me r.2; c_end := r.1 |}]
        ∧ next_pid (os s') = S p
        ∧ next_pipe (os s') = next_pipe (os s)
        ∧ reaped (os s') = reaped (os s)
        ∧ world_rest (os s') = world_rest (os s).
Proof.
  intros Hn p r.
  pose proof (runCommand_child_world com rd pf bg
                {| me := born p (me s); os := new_pid (tick (os s)) |}) as Hw.
  unfold keeps in Hw. simpl in Hw.
  assert (Hst : state_of (runCommand_child com rd pf bg
                  {| me := born p (me s); os := new_pid (tick (os s)) |}) = r.2).
  { subst r. symmetry. apply ending_of_state. }
  rewrite Hst in Hw. unfold world_fixed in Hw. simpl in Hw.
  inversion Hw as [[Hw1 Hw2 Hw3 Hw4 Hw5 Hw6 Hw7]]. clear Hw.
  unfold runCommand. unfold bind at 1. simpl.
  unfold bind at 1. unfold sys_fork. simpl.
  rewrite (no_faults_faulty _ Hn).
  change (born (next_pid (os s)) (emit Fflush (me s))) with (born p (me s)).
  fold r. destruct r as [e sc] eqn:Er. simpl in Hst, Hw1, Hw2, Hw3, Hw4, Hw5, Hw6, Hw7 |- *.
  assert (Hn' : no_faults (new_child {| c_pid := p; c_proc := me sc; c_end := e |} (os sc))).
  { intros n. simpl. rewrite Hw1. apply Hn. }
  destruct bg; simpl.
  - eexists. split; [done|]. simpl. unfold world_rest, proc_sig. simpl.
    rewrite Hw1, Hw2, Hw3, Hw4, Hw5, Hw6, Hw7, <- !(assoc_L (++)), !app_nil_r. done.
  - eexists. split; [done|]. simpl. unfold world_rest, proc_sig. simpl.
    rewrite Hw1, Hw2, Hw3, Hw4, Hw5, Hw6, Hw7, <- !(assoc_L (++)). done.
Qed.

End Launch.

Section Stages.
Context `{Externals}.

Lemma launch_piped (T : gmap nat fobj) com rd ino r w k bg sp ch :
  no_faults (os sp) → is_Some (T !! 0%nat) → is_Some (T !! 1%nat) →
  T !! rd = None → T !! r = None → T !! w = None → r ≠ rd → w ≠ rd → r ≠ w →
  fds (me sp) = <[w := PipeW k]> (<[r := PipeR k]> (<[rd := ino]> T)) →
  c_end ch = (ending_of (runCommand_child com rd (Some (r, w)) bg sp)).1 →
  c_proc ch = me (ending_of (runCommand_child com rd (Some (r, w)) bg sp)).2 →
  launched T (com, (ino, PipeW k)) ch.
Proof.
  intros Hn H0 H1 Hrd Hr Hw Hrrd Hwrd Hrw Hfds He Hp.
  rewrite runCommand_child_eq in He, Hp.
  destruct (child_wire_pipe {| me := after_signals bg (me sp); os := os sp |}
              T rd ino r w k) as (s_w & Hwire & Hfw & _); try done.
  { rewrite <- Hfds. apply fds_after_signals. }
  rewrite (bind_Ret _ _ _ _ _ Hwire) in He, Hp.
  exists s_w. done.
Qed.

Lemma launch_last (T : gmap nat fobj) com rd ino o1 bg sp ch :
  no_faults (os sp) → is_Some (T !! 0%nat) → T !! 1%nat = Some o1 →
  T !! rd = None →
  fds (me sp) = <[rd := ino]> T →
  c_end ch = (ending_of (runCommand_child com rd None bg sp)).1 →
  c_proc ch = me (ending_of (runCommand_child com rd None bg sp)).2 →
  launched T (com, (ino, o1)) ch.
Proof.
  intros Hn H0 H1 Hrd Hfds He Hp.
  rewrite runCommand_child_eq in He, Hp.
  destruct (child_wire_last {| me := after_signals bg (me sp); os := os sp |}
              T rd ino) as (s_w & Hwire & Hfw & _); try done.
  { rewrite <- Hfds. apply fds_after_signals. }
  rewrite (bind_Ret _ _ _ _ _ Hwire) in He, Hp.
  exists s_w. split; [|done]. simpl. rewrite Hfw.
  symmetry. apply insert_id. by rewrite lookup_insert_ne.
Qed.

(** The [for] loop of [runPipeline] when nothing fails.  [T] is the
    shell's descriptor table when the pipeline starts; on entry and on
    exit the table is [T] plus the descriptor the next stage reads from. *)
Lemma stage_loop_ok (T : gmap nat fobj) bg :
  is_Some (T !! 0%nat) → is_Some (T !! 1%nat) →
  ∀ cs s rd ino,
    no_faults (os s) → T !! rd = None → fds (me s) = <[rd := ino]> T →
    ∃ s' rd' sts chs,
      stage_loop cs rd bg s = Ret rd' s'
      ∧ no_faults (os s')
      ∧ T !! rd' = None
      ∧ fds (me s') = <[rd' := last_in ino (next_pipe (os s)) (length cs)]> T
      ∧ log (me s') = log (me s) ++ concat (map (stage_calls bg) sts)
      ∧ piped rd sts rd'
      ∧ length sts = length cs
      ∧ foreground (me s') = foreground (me s) ++ (if bg then [] else map st_pid sts)
      ∧ chld_blocked (me s') = chld_blocked (me s)
      ∧ proc_sig (me s') = proc_sig (me s)
      ∧ procs (os s') = procs (os s) ++ chs
      ∧ map c_pid chs = map st_pid sts
      ∧ map st_pid sts = seq (next_pid (os s)) (length cs)
      ∧ next_pid (os s') = (next_pid (os s) + length cs)%nat
      ∧ next_pipe (os s') = (next_pipe (os s) + length cs)%nat
      ∧ reaped (os s') = reaped (os s)
      ∧ world_rest (os s') = world_rest (os s)
      ∧ Forall2 (launched T) (zip cs (piped_ports ino (next_pipe (os s)) (length cs))) chs.
Proof.
  intros H0 H1. induction cs as [|com cs IH]; intros s rd ino Hn Hrd Hfds.
  - exists s, rd, [], []. simpl. rewrite !app_nil_r, !Nat.add_0_r.
    repeat split; try done. by destruct bg; rewrite app_nil_r.
  - simpl stage_loop.
    (* pipe *)
    set (k := next_pipe (os s)).
    set (r := lowest_free (fds (me s))).
    set (w := lowest_free (<[r := PipeR k]> (fds (me s)))).
    erewrite bind_Ret by (apply sys_pipe_ok; by apply no_faults_faulty).
    cbv beta iota. fold k r w.
    assert (Hr : fds (me s) !! r = None) by apply lowest_free_fresh.
    assert (Hw : <[r := PipeR k]> (fds (me s)) !! w = None) by apply lowest_free_fresh.
    rewrite Hfds in Hr.
    assert (Hrrd : r ≠ rd) by (intros ->; by rewrite lookup_insert_eq in Hr).
    rewrite lookup_insert_ne in Hr by done.
    assert (Hwr : w ≠ r) by (intros Heq; rewrite Heq in Hw; by rewrite lookup_insert_eq in Hw).
    rewrite lookup_insert_ne in Hw by done. rewrite Hfds in Hw.
    assert (Hwrd : w ≠ rd) by (intros ->; by rewrite lookup_insert_eq in Hw).
    rewrite lookup_insert_ne in Hw by done.
    set (s1 := {| me := _; os := new_pipe (tick (os s)) |}).
    assert (Hn1 : no_faults (os s1)) by (intros n; apply Hn).
    (* fork *)
    destruct (runCommand_ok com rd (Some (r, w)) bg s1 Hn1)
      as (s2 & Hrun & Hn2 & Hf2 & Hl2 & Hfg2 & Hb2 & Hsig2 & Hp2 & Hpid2 & Hpipe2 & Hreap2 & Hrest2).
    erewrite bind_Ret by exact Hrun. cbv beta iota.
    (* the two closes *)
    erewrite bind_Ret; cycle 1.
    { eapply closeFileDescriptor_ok; [by apply no_faults_faulty|].
      rewrite Hf2. simpl. rewrite Hfds.
      by rewrite !lookup_insert_ne, lookup_insert_eq by done. }
    cbv beta iota.
    erewrite bind_Ret; cycle 1.
    { eapply closeFileDescriptor_ok; [simpl; apply Hn2|].
      simpl. rewrite Hf2. simpl. rewrite lookup_delete_ne, lookup_insert_eq by done. done. }
    cbv beta iota. simpl snd. simpl fst.
    match goal with |- context [stage_loop cs r bg ?x] => set (s4 := x) end.
    assert (Hf4 : fds (me s4) = <[r := PipeR k]> T).
    { subst s4. simpl. rewrite Hf2. simpl. rewrite Hfds. map_solve. }
    destruct (IH s4 r (PipeR k)) as
      (s' & rd' & sts & chs & Hloop & Hn' & Hrd' & Hf' & Hl' & Hpi' & Hlen' & Hfg' & Hb'
       & Hsig' & Hp' & Hcp' & Hsp' & Hpid' & Hpipe' & Hreap' & Hrest' & Hla');
      [intros n; apply Hn2|done|done|].
    assert (Hk4 : next_pipe (os s4) = S k) by (subst s4; simpl; by rewrite Hpipe2).
    assert (Hp4 : next_pid (os s4) = S (next_pid (os s))) by (subst s4; simpl; by rewrite Hpid2).
    rewrite Hk4 in *. rewrite Hp4 in *.
    set (st := {| st_read := rd; st_pipe := Some (r, w); st_pid := next_pid (os s) |}).
    match type of Hp2 with _ = _ ++ [?c] => set (ch := c) in * end.
    exists s', rd', (st :: sts), (ch :: chs).
    split; [exact Hloop|]. split; [done|]. split; [done|].
    split. { rewrite Hf'. f_equal. simpl length. destruct (length cs); simpl; f_equal; lia. }
    split.
    { rewrite Hl'. subst s4. simpl. rewrite Hl2. simpl.
      rewrite <- !(assoc_L (++)). by f_equal. }
    split. { simpl. split; [done|]. exists r, w. done. }
    split. { simpl. by rewrite Hlen'. }
    split.
    { rewrite Hfg'. subst s4. simpl. rewrite Hfg2. simpl.
      destruct bg; simpl; [by rewrite !app_nil_r|]. by rewrite <- (assoc_L (++)). }
    split. { rewrite Hb'. subst s4. simpl. by rewrite Hb2. }
    split. { rewrite Hsig'. subst s4. unfold proc_sig in *. simpl. by rewrite Hsig2. }
    split. { rewrite Hp'. subst s4. simpl. rewrite Hp2. simpl. by rewrite <- (assoc_L (++)). }
    split. { simpl. by rewrite Hcp'. }
    split. { simpl. by rewrite Hsp'. }
    split. { rewrite Hpid'. simpl. lia. }
    split. { rewrite Hpipe'. simpl. lia. }
    split. { rewrite Hreap'. subst s4. simpl. by rewrite Hreap2. }
    split. { rewrite Hrest'. subst s4. unfold world_rest in *. simpl. by rewrite Hrest2. }
    simpl. constructor; [|done].
    apply (launch_piped T com rd ino r w k bg
             {| me := born (next_pid (os s1)) (me s1); os := new_pid (tick (os s1)) |});
      try done; try (intros n; apply Hn); try (simpl; by rewrite Hfds).
Qed.

End Stages.

(** * The general path of [runPipeline] *)

Lemma ports_snoc o1 n : ∀ k i,
  ports i o1 k (S n) = piped_ports i k n ++ [(last_in i k n, o1)].
Proof.
  induction n as [|n IH]; intros k i; [done|].
  change (ports i o1 k (S (S n))) with ((i, PipeW k) :: ports (PipeR k) o1 (S k) (S n)).
  rewrite IH. simpl.
  assert (last_in (PipeR k) (S k) n = PipeR (k + n)) as ->; [|done].
  destruct n; simpl; f_equal; lia.
Qed.

Lemma piped_ports_length i k n : length (piped_ports i k n) = n.
Proof. revert i k. induction n; intros; simpl; [done|]. by rewrite IHn. Qed.

Lemma piped_linked rd sts rd' p :
  piped rd sts rd' →
  linked rd (sts ++ [{| st_read := rd'; st_pipe := None; st_pid := p |}]).
Proof.
  revert rd. induction sts as [|st sts IH]; intros rd; simpl.
  - intros ->. done.
  - intros (Hr & r & w & Hp & Hrest). split; [done|].
    specialize (IH r Hrest).
    destruct (sts ++ _) eqn:E; [by destruct sts|].
    exists r, w. done.
Qed.

Lemma last_snoc_split {A} (l : list A) : l ≠ [] → ∃ init x, l = init ++ [x].
Proof.
  intros Hne. induction l as [|a l IH] using rev_ind; [done|]. eauto.
Qed.

Section General.
Context `{Externals}.

Lemma general_path_ok cs bg s i0 o1 :
  no_faults (os s) → cs ≠ [] →
  fds (me s) !! 0%nat = Some i0 → fds (me s) !! 1%nat = Some o1 →
  ∃ s' rd0 sts chs,
    general_path cs bg s = Ret tt s'
    ∧ no_faults (os s')
    ∧ fds (me s') = fds (me s)
    ∧ fds (me s) !! rd0 = None
    ∧ log (me s')
      = log (me s) ++ [SysDup 0 (Some rd0); BlockChildSignal]
        ++ concat (map (stage_calls bg) sts)
        ++ (if bg then []
            else [WaitForForegroundChildren (foreground (me s) ++ map st_pid sts)])
        ++ [UnblockChildSignal]
    ∧ linked rd0 sts
    ∧ length sts = length cs
    ∧ foreground (me s') = (if bg then foreground (me s) else [])
    ∧ chld_blocked (me s') = false
    ∧ proc_sig (me s') = proc_sig (me s)
    ∧ procs (os s') = procs (os s) ++ chs
    ∧ map c_pid chs = map st_pid sts
    ∧ map st_pid sts = seq (next_pid (os s)) (length cs)
    ∧ next_pid (os s') = (next_pid (os s) + length cs)%nat
    ∧ next_pipe (os s') = (next_pipe (os s) + (length cs - 1))%nat
    ∧ reaped (os s')
      = reaped (os s) ++ (if bg then [] else foreground (me s) ++ map st_pid sts)
    ∧ world_rest (os s') = world_rest (os s)
    ∧ Forall2 (launched (fds (me s)))
        (zip cs (ports i0 o1 (next_pipe (os s)) (length cs))) chs.
Proof.
  intros Hn Hne H0 H1.
  destruct (last_snoc_split cs Hne) as (init & lst & ->).
  unfold general_path. rewrite removelast_last, last_snoc.
  set (T := fds (me s)).
  set (rd0 := lowest_free T).
  erewrite bind_Ret by (eapply sys_dup_ok; [by apply no_faults_faulty|exact H0]).
  cbv beta iota. fold T rd0.
  assert (Hrd0 : T !! rd0 = None) by apply lowest_free_fresh.
  erewrite bind_Ret by reflexivity. cbv beta iota.
  match goal with |- context [bind (stage_loop init rd0 bg) _ ?x] => set (s1 := x) end.
  destruct (stage_loop_ok T bg (ltac:(by eexists)) (ltac:(by eexists)) init s1 rd0 i0)
    as (s2 & rd' & sts & chs & Hloop & Hn2 & Hrd' & Hf2 & Hl2 & Hpi2 & Hlen2 & Hfg2 & Hb2
        & Hsig2 & Hp2 & Hcp2 & Hsp2 & Hpid2 & Hpipe2 & Hreap2 & Hrest2 & Hla2);
    [intros n; apply Hn|done|done|].
  erewrite bind_Ret by exact Hloop. cbv beta iota.
  simpl in Hf2, Hl2, Hfg2, Hb2, Hsig2, Hp2, Hsp2, Hpid2, Hpipe2, Hreap2, Hrest2, Hla2.
  erewrite bind_Ret by reflexivity. cbv beta iota.
  destruct (runCommand_ok lst rd' None bg s2 Hn2)
    as (s3 & Hrun & Hn3 & Hf3 & Hl3 & Hfg3 & Hb3 & Hsig3 & Hp3 & Hpid3 & Hpipe3 & Hreap3 & Hrest3).
  erewrite bind_Ret by exact Hrun. cbv beta iota.
  erewrite bind_Ret; cycle 1.
  { eapply closeFileDescriptor_ok; [by apply no_faults_faulty|].
    rewrite Hf3, Hf2. by rewrite lookup_insert_eq. }
  cbv beta iota.
  match type of Hp3 with _ = _ ++ [?c] => set (ch := c) in * end.
  set (st := {| st_read := rd'; st_pipe := None; st_pid := next_pid (os s2) |}).
  assert (Hlaunch : Forall2 (launched T)
            (zip (init ++ [lst]) (ports i0 o1 (next_pipe (os s)) (length (init ++ [lst]))))
            (chs ++ [ch])).
  { rewrite length_app. simpl length. rewrite Nat.add_1_r, ports_snoc.
    rewrite zip_with_app by (by rewrite piped_ports_length).
    apply Forall2_app; [done|]. simpl. constructor; [|done].
    apply (launch_last T lst rd' _ o1 bg
             {| me := born (next_pid (os s2)) (me s2); os := new_pid (tick (os s2)) |});
      try done; try (intros n; apply Hn2). }
  assert (Hfds : delete rd' (fds (me s3)) = T).
  { rewrite Hf3, Hf2. rewrite delete_insert_eq. by rewrite delete_id. }
  assert (Hsts : map st_pid (sts ++ [st]) = seq (next_pid (os s)) (length (init ++ [lst]))).
  { rewrite map_app, length_app, seq_app, Hsp2. simpl. by rewrite Hpid2. }
  assert (Hlen : length (init ++ [lst]) = S (length init)) by (rewrite length_app; simpl; lia).
  assert (Hlog : log (me s3) ++ [SysClose rd' true]
                 = log (me s) ++ [SysDup 0 (Some rd0); BlockChildSignal]
                   ++ concat (map (stage_calls bg) (sts ++ [st]))).
  { rewrite Hl3, Hl2. rewrite map_app, concat_app. simpl.
    rewrite app_nil_r. unfold stage_calls at 2. simpl.
    rewrite <- !(assoc_L (++)). simpl. done. }
  assert (Hfgs : foreground (me s3)
                 = foreground (me s) ++ (if bg then [] else map st_pid (sts ++ [st]))).
  { rewrite Hfg3, Hfg2. destruct bg; simpl; [by rewrite !app_nil_r|].
    by rewrite map_app, <- (assoc_L (++)). }
  assert (Hsig : proc_sig (me s3) = proc_sig (me s)) by (by rewrite Hsig3, Hsig2).
  assert (Hrest : world_rest (os s3) = world_rest (os s)) by (by rewrite Hrest3, Hrest2).
  assert (Hprocs : procs (os s3) = procs (os s) ++ chs ++ [ch]).
  { by rewrite Hp3, Hp2, <- (assoc_L (++)). }
  assert (Hpid : next_pid (os s3) = (next_pid (os s) + length (init ++ [lst]))%nat).
  { rewrite Hpid3, Hpid2, Hlen. lia. }
  assert (Hpipe : next_pipe (os s3) = (next_pipe (os s) + (length (init ++ [lst]) - 1))%nat).
  { rewrite Hpipe3, Hpipe2, Hlen. f_equal. lia. }
  assert (Hreap : reaped (os s3) = reaped (os s)) by (by rewrite Hreap3, Hreap2).
  assert (Hcp : map c_pid (chs ++ [ch]) = map st_pid (sts ++ [st])).
  { by rewrite !map_app, Hcp2. }
  assert (Hlens : length (sts ++ [st]) = length (init ++ [lst])).
  { by rewrite !length_app, Hlen2. }
  assert (Hlink : linked rd0 (sts ++ [st])) by (by apply piped_linked).
  assert (Hn4 : no_faults (tick (os s3))) by (intros n; apply Hn3).
  destruct bg; simpl negb; cbv iota.
  - erewrite bind_Ret by reflexivity. cbv beta iota.
    eexists _, rd0, (sts ++ [st]), (chs ++ [ch]). split; [reflexivity|]. simpl.
    rewrite Hlog, Hfgs, Hreap, !app_nil_r, <- !(assoc_L (++)). simpl.
    repeat split; done.
  - erewrite bind_Ret by reflexivity. cbv beta iota.
    eexists _, rd0, (sts ++ [st]), (chs ++ [ch]). split; [reflexivity|]. simpl.
    rewrite Hlog, Hfgs, Hreap, <- !(assoc_L (++)). simpl.
    repeat split; done.
Qed.

End General.

(** * Counting the calls of a pipeline *)

Lemma count_app f l1 l2 : count f (l1 ++ l2) = (count f l1 + count f l2)%nat.
Proof. unfold count. by rewrite List.filter_app, length_app. Qed.

Lemma count_cons f c l : count f (c :: l) = ((if f c then 1 else 0) + count f l)%nat.
Proof. unfold count. simpl. by destruct (f c). Qed.

Lemma count_nil f : count f [] = 0%nat.
Proof. done. Qed.

Lemma forked_app l1 l2 : forked (l1 ++ l2) = forked l1 ++ forked l2.
Proof. unfold forked. apply omap_app. Qed.

Lemma count_stage_calls f bg st :
  f Fflush = false → (∀ p, f (RegisterForegroundChild p) = false) →
  count f (stage_calls bg st)
  = ((match st_pipe st with Some pf => (if f (SysPipe (Some pf)) then 1 else 0) | None => 0 end)
     + (if f (SysFork (Some (st_pid st))) then 1 else 0)
     + (if f (SysClose (st_read st) true) then 1 else 0)
     + (match st_pipe st with Some pf => (if f (SysClose pf.2 true) then 1 else 0) | None => 0 end))%nat.
Proof.
  intros Hfl Hreg. unfold stage_calls.
  rewrite !count_app. destruct (st_pipe st) as [pf|], bg;
    rewrite ?count_cons, ?count_nil, ?Hfl, ?Hreg; lia.
Qed.

Lemma count_stages_fork bg sts :
  count is_fork (concat (map (stage_calls bg) sts)) = length sts.
Proof.
  induction sts as [|st sts IH]; [done|]. simpl. rewrite count_app, IH.
  rewrite count_stage_calls by done. simpl. destruct (st_pipe st); simpl; lia.
Qed.

Lemma count_stages_none f bg sts :
  f Fflush = false → (∀ p, f (RegisterForegroundChild p) = false) →
  (∀ r, f (SysPipe r) = false) → (∀ r, f (SysFork r) = false) →
  (∀ fd ok, f (SysClose fd ok) = false) →
  count f (concat (map (stage_calls bg) sts)) = 0%nat.
Proof.
  intros H1 H2 H3 H4 H5. induction sts as [|st sts IH]; [done|].
  simpl. rewrite count_app, IH, count_stage_calls by done.
  rewrite H4, H5. destruct (st_pipe st); rewrite ?H3, ?H5; lia.
Qed.



Lemma forked_stages bg sts :
  forked (concat (map (stage_calls bg) sts)) = map st_pid sts.
Proof.
  induction sts as [|st sts IH]; [done|]. simpl. rewrite forked_app, IH.
  f_equal. unfold stage_calls. destruct (st_pipe st), bg; done.
Qed.

Section PipelineClaims.
Context `{Externals}.


(** C4.  On the general path, when no system call fails: the shell blocks
    the termination notification before the first [fork] and unblocks it
    as the last thing it does; in between it neither blocks nor unblocks,
    and all N [fork]s, the registrations and the wait happen there.  A
    foreground pipeline waits, once, for the children it has forked, right
    before unblocking; a background pipeline does not wait: it unblocks
    right after the last stage has been launched and its read descriptor
    closed. *)
Theorem general_path_blocks_notification cs bg s i0 o1 :
  no_faults (os s) → cs ≠ [] →
  fds (me s) !! STDIN_FILENO = Some i0 → fds (me s) !! STDOUT_FILENO = Some o1 →
  ∃ s' rd0 mid,
    general_path cs bg s = Ret tt s'
    ∧ log (me s')
      = log (me s) ++ [SysDup STDIN_FILENO (Some rd0)] ++ [BlockChildSignal]
        ++ mid ++ [UnblockChildSignal]
    ∧ chld_blocked (me s') = false
    ∧ count is_block mid = 0%nat
    ∧ count is_unblock mid = 0%nat
    ∧ count is_fork mid = length cs
    ∧ (if bg
       then count is_wait mid = 0%nat
            ∧ ∃ pre p rd, mid = pre ++ [Fflush; SysFork (Some p); SysClose rd true]
       else ∃ pre, mid = pre ++ [WaitForForegroundChildren (foreground (me s) ++ forked pre)]
                   ∧ count is_wait pre = 0%nat
                   ∧ count is_fork pre = length cs).
Proof.
  intros Hn Hne H0 H1.
  destruct (general_path_ok cs bg s i0 o1 Hn Hne H0 H1)
    as (s' & rd0 & sts & chs & Hrun & _ & Hfds & _ & Hlog & Hlink & Hlen & _ & Hb & _).
  set (pre := concat (map (stage_calls bg) sts)) in *.
  exists s', rd0, (pre ++ if bg then []
                          else [WaitForForegroundChildren (foreground (me s) ++ map st_pid sts)]).
  split; [done|]. split; [by rewrite Hlog, <- !(assoc_L (++))|]. split; [done|].
  assert (Hpre : ∀ f, f Fflush = false → (∀ p, f (RegisterForegroundChild p) = false) →
                      (∀ r, f (SysPipe r) = false) → (∀ r, f (SysFork r) = false) →
                      (∀ fd ok, f (SysClose fd ok) = false) → count f pre = 0%nat).
  { intros. by apply count_stages_none. }
  assert (Hfork : count is_fork pre = length cs).
  { subst pre. by rewrite count_stages_fork. }
  destruct bg.
  - rewrite app_nil_r.
    split; [by apply Hpre|]. split; [by apply Hpre|]. split; [done|].
    split; [by apply Hpre|].
    (* the last stage *)
    destruct (last_snoc_split sts) as (init & st & Hsts); [intros ->; by destruct cs|].
    subst pre. rewrite Hsts, map_app, concat_app. simpl. rewrite app_nil_r.
    assert (Hst : st_pipe st = None).
    { rewrite Hsts in Hlink. clear -Hlink. revert rd0 Hlink.
      induction init as [|x init IH]; intros rd0; simpl; [tauto|].
      intros [_ Hl]. destruct (init ++ [st]) eqn:E; [by destruct init|].
      destruct Hl as (r & w & _ & Hl). by apply IH in Hl. }
    unfold stage_calls at 2. rewrite Hst. simpl.
    eexists _, _, _. reflexivity.
  - rewrite !count_app, !count_cons, !count_nil, !Hpre by done. simpl.
    split; [done|]. split; [done|]. split; [lia|].
    exists pre. split; [|split; [by apply Hpre|done]].
    subst pre. by rewrite forked_stages.
Qed.

End PipelineClaims.

(** * The builtin fast path and the dispatch loop *)

Section Dispatch.
Context `{Externals}.

Lemma runPipeline_builtin pl com name rest b s :
  commands pl = [Some com] → args com = name :: rest → getBuiltin name = Some b →
  redirs com = [] → flags pl ≠ INBACKGROUND →
  runPipeline pl s
  = Ret tt {| me := (if bool_decide (b (name :: rest) = BUILTIN_ERROR)
                     then emit (Stderr ("Builtin " ++ name ++ " error." ++ nl))
                     else id)
                      (emit (CallBuiltin name (name :: rest) (b (name :: rest))) (me s));
              os := os s |}.
Proof.
  intros Hc Ha Hb Hr Hf. unfold runPipeline. rewrite Hc. simpl.
  unfold builtin_path. simpl. unfold bind at 2. simpl.
  rewrite Hr, (bool_decide_eq_false_2 _ Hf). simpl.
  unfold bind at 2. rewrite Ha. simpl. rewrite Hb.
  unfold getArgVector. rewrite Ha. unfold bind at 2. simpl.
  unfold bind. simpl. destruct s as [p w].
  by destruct (bool_decide (b (name :: rest) = BUILTIN_ERROR)).
Qed.

Lemma runPipeline_general pl s :
  valid_pipeline (Some pl) →
  (∀ com name rest, commands pl = [Some com] → args com = name :: rest →
                    redirs com = [] → flags pl ≠ INBACKGROUND → getBuiltin name = None) →
  runPipeline pl s
  = general_path (commands pl) (bool_decide (flags pl = INBACKGROUND)) s.
Proof.
  intros (? & [= <-] & Hne & Hall) Hnb. unfold runPipeline.
  destruct (commands pl) as [|c cs] eqn:Hc; [done|].
  unfold builtin_path. destruct cs as [|c' cs]; [|done].
  simpl. apply Forall_cons in Hall as [(com & -> & Hargs) _].
  unfold bind at 2. simpl.
  destruct (redirs com) as [|r rs] eqn:Hr; [|done]. simpl.
  destruct (bool_decide (flags pl = INBACKGROUND)) eqn:Hbg; [done|]. simpl.
  apply bool_decide_eq_false in Hbg.
  destruct (args com) as [|name rest] eqn:Ha; [done|].
  unfold bind at 2. simpl. by rewrite (Hnb com name rest).
Qed.

(** C2.  A single command whose name is a registered builtin: without
    redirections and in the foreground the handler is called in the
    shell's own process with the command's arguments, nothing else
    happens but the diagnostic after a reported failure, and the shell
    goes on; no process is made (the machine outside the shell's own
    process is untouched).  With a redirection, or in the background, the
    pipeline takes the general path: the handler is not called and, when
    no system call fails, the shell forks. *)
Theorem builtin_fast_path pl com name rest b s :
  commands pl = [Some com] → args com = name :: rest → getBuiltin name = Some b →
  (redirs com = [] → flags pl ≠ INBACKGROUND →
   ∃ s', runPipeline pl s = Ret tt s'
         ∧ os s' = os s
         ∧ fds (me s') = fds (me s)
         ∧ log (me s')
           = log (me s)
             ++ CallBuiltin name (name :: rest) (b (name :: rest))
                :: (if bool_decide (b (name :: rest) = BUILTIN_ERROR)
                    then [Stderr ("Builtin " ++ name ++ " error." ++ nl)] else []))
  ∧ (redirs com ≠ [] ∨ flags pl = INBACKGROUND →
     runPipeline pl s
     = general_path [Some com] (bool_decide (flags pl = INBACKGROUND)) s
     ∧ (no_faults (os s) → is_Some (fds (me s) !! STDIN_FILENO) →
        is_Some (fds (me s) !! STDOUT_FILENO) →
        ∃ s' evs ch,
          runPipeline pl s = Ret tt s'
          ∧ log (me s') = log (me s) ++ evs
          ∧ count is_fork evs = 1%nat
          ∧ count is_builtin evs = 0%nat
          ∧ procs (os s') = procs (os s) ++ [ch])).
Proof.
  intros Hc Ha Hb. split.
  - intros Hr Hf. rewrite (runPipeline_builtin pl com name rest b s) by done.
    eexists. split; [done|]. simpl.
    destruct (bool_decide (b (name :: rest) = BUILTIN_ERROR)); simpl.
    + by rewrite <- (assoc_L (++)).
    + done.
  - intros Hor.
    assert (Hg : runPipeline pl s
                 = general_path [Some com] (bool_decide (flags pl = INBACKGROUND)) s).
    { rewrite <- Hc. apply runPipeline_general.
      - exists pl. split; [done|]. rewrite Hc. split; [done|].
        constructor; [|done]. exists com. split; [done|]. by rewrite Ha.
      - intros com' name' rest' Hc' _ Hr' Hf'. rewrite Hc in Hc'.
        injection Hc' as <-. by destruct Hor. }
    split; [done|]. intros Hn [i0 H0] [o1 H1]. rewrite Hg.
    destruct (general_path_ok [Some com] (bool_decide (flags pl = INBACKGROUND)) s i0 o1)
      as (s' & rd0 & sts & chs & Hrun & _ & _ & _ & Hlog & _ & Hlen & _ & _ & _ & Hp & Hcp & _);
      try done.
    assert (Hchs : length chs = 1%nat).
    { apply (f_equal length) in Hcp. rewrite !length_map in Hcp. by rewrite Hcp, Hlen. }
    destruct chs as [|ch [|? ?]]; try done.
    eexists s', _, ch. split; [done|]. split; [exact Hlog|].
    split; [|split; [|done]].
    + rewrite !count_app, !count_cons, !count_nil, count_stages_fork, Hlen.
      simpl. by destruct (bool_decide _).
    + rewrite !count_app, !count_cons, !count_nil, count_stages_none by done.
      by destruct (bool_decide _).
Qed.

End Dispatch.

(** * Pipelines one after the other *)

Section Order.
Context `{Externals}.

Lemma ran_mono p seg (r1 r2 : list pid) :
  (∀ x, x ∈ r1 → x ∈ r2) → ran p seg r1 → ran p seg r2.
Proof.
  intros Hsub. unfold ran. destruct p as [pl|]; [|done].
  destruct (bool_decide _); [done|].
  intros [Hb|(pre & Hseg & Hw & Hf & Hin)]; [by left|right].
  exists pre. repeat split; try done. intros x Hx. by apply Hsub, Hin.
Qed.

(** One pipeline of a valid line, when nothing fails. *)
Lemma runPipeline_ok pl s i0 o1 :
  valid_pipeline (Some pl) → no_faults (os s) →
  fds (me s) !! STDIN_FILENO = Some i0 → fds (me s) !! STDOUT_FILENO = Some o1 →
  foreground (me s) = [] →
  ∃ s' seg,
    runPipeline pl s = Ret tt s'
    ∧ no_faults (os s')
    ∧ fds (me s') = fds (me s)
    ∧ foreground (me s') = []
    ∧ log (me s') = log (me s) ++ seg
    ∧ (∃ extra, reaped (os s') = reaped (os s) ++ extra)
    ∧ ran (Some pl) seg (reaped (os s')).
Proof.
  intros Hv Hn H0 H1 Hfg.
  assert (Hgen :
    (∀ com name rest, commands pl = [Some com] → args com = name :: rest →
                      redirs com = [] → flags pl ≠ INBACKGROUND → getBuiltin name = None) →
    ∃ s' seg,
      runPipeline pl s = Ret tt s' ∧ no_faults (os s') ∧ fds (me s') = fds (me s)
      ∧ foreground (me s') = [] ∧ log (me s') = log (me s) ++ seg
      ∧ (∃ extra, reaped (os s') = reaped (os s) ++ extra)
      ∧ ran (Some pl) seg (reaped (os s'))).
  { intros Hnb. rewrite (runPipeline_general pl s Hv Hnb).
    destruct Hv as (? & [= <-] & Hne & Hall).
    destruct (general_path_ok (commands pl) (bool_decide (flags pl = INBACKGROUND)) s i0 o1)
      as (s' & rd0 & sts & chs & Hrun & Hn' & Hfds & _ & Hlog & _ & Hlen & Hfg' & _ & _
          & _ & _ & _ & _ & _ & Hreap & _); try done.
    eexists s', _. split; [done|]. split; [done|]. split; [done|].
    split; [rewrite Hfg'; by destruct (bool_decide _)|].
    split; [exact Hlog|]. split; [eauto|].
    unfold ran. rewrite Hfg in *. simpl in *.
    destruct (bool_decide (flags pl = INBACKGROUND)).
    - repeat first [rewrite count_cons | rewrite count_app | rewrite count_nil].
      rewrite count_stages_fork, count_stages_none by done. simpl. split; [done|lia].
    - right. exists ([SysDup 0 (Some rd0); BlockChildSignal]
                     ++ concat (map (stage_calls false) sts)).
      rewrite forked_app, forked_stages. simpl.
      split; [by rewrite <- ?(assoc_L (++))|].
      repeat first [rewrite count_cons | rewrite count_app | rewrite count_nil].
      rewrite count_stages_fork, count_stages_none by done. simpl.
      split; [done|]. split; [lia|].
      intros p Hp. rewrite Hreap. apply elem_of_app. by right. }
  destruct (Hv) as (? & [= <-] & Hne & Hall).
  destruct (commands pl) as [|c [|c' cs]] eqn:Hc; [done| |by apply Hgen].
  apply Forall_cons in Hall as [(com & -> & Hargs) _].
  destruct (args com) as [|name rest] eqn:Ha; [done|].
  destruct (redirs com) as [|r rs] eqn:Hr; [|by apply Hgen; intros ? ? ? [= <-]; congruence].
  destruct (decide (flags pl = INBACKGROUND)) as [Hf|Hf];
    [by apply Hgen; intros ? ? ? [= <-]; congruence|].
  destruct (getBuiltin name) as [b|] eqn:Hb;
    [|by apply Hgen; intros ? ? ? [= <-]; congruence].
  rewrite (runPipeline_builtin pl com name rest b s) by done.
  eexists _, _. split; [done|]. simpl. split; [done|].
  split; [by destruct (bool_decide (b _ = _))|].
  split; [by destruct (bool_decide (b _ = _))|].
  split.
  { instantiate (1 := CallBuiltin name (name :: rest) (b (name :: rest))
                      :: (if bool_decide (b (name :: rest) = BUILTIN_ERROR)
                          then [Stderr ("Builtin " ++ name ++ " error." ++ nl)] else [])).
    destruct (bool_decide (b _ = _)); simpl; [by rewrite <- (assoc_L (++))|done]. }
  split; [exists []; by rewrite app_nil_r|].
  unfold ran. rewrite (bool_decide_eq_false_2 _ Hf). left.
  destruct (bool_decide (b _ = _)); done.
Qed.

(** The dispatch loop over a chain of nodes. *)
Lemma run_loop_chain h e l :
  ∀ s i0 o1,
    chain h l e → Forall (λ x, valid_pipeline x.2) l → no_faults (os s) →
    fds (me s) !! STDIN_FILENO = Some i0 → fds (me s) !! STDOUT_FILENO = Some o1 →
    foreground (me s) = [] →
    ∃ s' segs,
      run_loop (length l) h (Some (first_addr l e)) s = Ret tt s'
      ∧ log (me s') = log (me s) ++ concat segs
      ∧ Forall2 (λ x seg, ran x.2 seg (reaped (os s'))) l segs
      ∧ foreground (me s') = []
      ∧ fds (me s') = fds (me s)
      ∧ ∃ extra, reaped (os s') = reaped (os s) ++ extra.
Proof.
  induction l as [|x l IH]; intros s i0 o1 Hc Hv Hn H0 H1 Hfg.
  - exists s, []. simpl. rewrite app_nil_r. repeat split; try done.
    exists []. by rewrite app_nil_r.
  - simpl in Hc. destruct Hc as [Hx Hc]. apply Forall_cons in Hv as [Hvx Hv].
    simpl length. simpl run_loop. simpl first_addr.
    erewrite bind_Ret by reflexivity. cbv beta iota.
    rewrite Hx. erewrite bind_Ret by reflexivity. cbv beta iota. simpl ps_pipeline.
    assert (Hvx' := Hvx). destruct Hvx' as (pl & Hpl & _). rewrite Hpl in *.
    erewrite bind_Ret by reflexivity. cbv beta iota.
    destruct (runPipeline_ok pl s i0 o1) as
      (s1 & seg & Hrun & Hn1 & Hf1 & Hfg1 & Hl1 & (ex1 & Hr1) & Hran); try done.
    erewrite bind_Ret by exact Hrun. cbv beta iota. simpl ps_next.
    destruct (IH s1 i0 o1) as (s' & segs & Hloop & Hl' & Hran' & Hfg' & Hf' & (ex' & Hr'));
      try done; try (by rewrite Hf1).
    exists s', (seg :: segs). split; [done|].
    split; [rewrite Hl', Hl1; simpl; by rewrite <- (assoc_L (++))|].
    split.
    { constructor; [|done]. rewrite Hpl. eapply ran_mono; [|exact Hran].
      intros p Hp. rewrite Hr'. apply elem_of_app. by left. }
    split; [done|]. split; [by rewrite Hf', Hf1|].
    exists (ex1 ++ ex'). by rewrite Hr', Hr1, <- (assoc_L (++)).
Qed.

(** C9.  The pipelines of a validated line, when nothing fails: the shell
    deals with them one after the other in the order of the line, so that
    its log is the concatenation of one segment per pipeline.  A
    foreground pipeline that forks ends with the wait for exactly the
    children it has forked, which have all terminated and been reaped
    before the next pipeline starts; a background pipeline is launched
    without any wait; no wait covers the children of two pipelines. *)
Theorem pipelines_run_in_order h l s i0 o1 :
  cycle h l → Forall (λ x, valid_pipeline x.2) l → no_faults (os s) →
  fds (me s) !! STDIN_FILENO = Some i0 → fds (me s) !! STDOUT_FILENO = Some o1 →
  foreground (me s) = [] →
  ∃ s' segs,
    run_loop (length l) h (head_of l) s = Ret tt s'
    ∧ log (me s') = log (me s) ++ concat segs
    ∧ Forall2 (λ x seg, ran x.2 seg (reaped (os s'))) l segs
    ∧ foreground (me s') = [].
Proof.
  intros (_ & Hne & Hc) Hv Hn H0 H1 Hfg.
  destruct (run_loop_chain h (first_addr l 0%nat) l s i0 o1)
    as (s' & segs & Hrun & Hlog & Hran & Hfg' & _); try done.
  exists s', segs. split; [|done].
  rewrite <- Hrun. f_equal. by destruct l.
Qed.

End Order.

(** * Redirections *)

Lemma opens_app l1 l2 : opens (l1 ++ l2) = opens l1 ++ opens l2.
Proof. unfold opens. apply omap_app. Qed.

Section Redirs.
Context `{Externals}.

Lemma open_fs_redirect f r d :
  direction_of r = Some d → redirectable f r →
  open_fs f (filename r) (open_flags d) (open_mode d) = (None, redirect_fs f r).
Proof.
  unfold redirectable, redirect_fs, open_fs. intros -> Hok.
  destruct d; simpl.
  - destruct Hok as (x & -> & Hr). simpl. by rewrite Hr.
  - destruct (f !! filename r) as [x|] eqn:Hx; [|done].
    simpl. by rewrite (Hok x).
  - destruct (f !! filename r) as [x|] eqn:Hx; [|done].
    simpl. by rewrite (Hok x).
Qed.

Lemma addRedirs_direction r :
  addRedirs r
  = match direction_of r with
    | Some d =>
        fd <- openFile (filename r) (open_flags d) (open_mode d);;
        moveFileDescriptor fd (stream d)
    | None => ret tt
    end.
Proof.
  unfold addRedirs, direction_of.
  destruct (IS_RIN _); [done|]. destruct (IS_ROUT _); [done|]. by destruct (IS_RAPPEND _).
Qed.

(** One redirection whose target can be opened. *)
Lemma addRedirs_ok r s :
  no_faults (os s) → redirectable (fs (os s)) r →
  ∃ s' evs,
    addRedirs r s = Ret tt s'
    ∧ no_faults (os s')
    ∧ fds (me s') = match opened r with
                    | Some o => <[default 0%nat (stream <$> direction_of r) := o]> (fds (me s))
                    | None => fds (me s)
                    end
    ∧ log (me s') = log (me s) ++ evs
    ∧ opens evs = option_list (request r)
    ∧ count is_diagnostic evs = 0%nat
    ∧ fs (os s') = redirect_fs (fs (os s)) r.
Proof.
  intros Hn Hok. rewrite addRedirs_direction. unfold opened, request.
  destruct (direction_of r) as [d|] eqn:Hd; simpl.
  2:{ exists s, []. rewrite app_nil_r. unfold redirect_fs. rewrite Hd. done. }
  unfold openFile.
  pose proof (open_fs_redirect _ r d Hd Hok) as Hopen.
  set (n := lowest_free (fds (me s))).
  assert (Hsys : sys_open (filename r) (open_flags d) (open_mode d) s
                 = Ret (inr n)
                     {| me := emit (SysOpen (filename r) (open_flags d) (open_mode d) (inr n))
                                (set_fds (<[n := File (filename r) (open_flags d)]> (fds (me s)))
                                   (me s));
                        os := set_fs (redirect_fs (fs (os s)) r) (tick (os s)) |}).
  { unfold sys_open. rewrite (no_faults_faulty _ Hn). simpl. by rewrite Hopen. }
  erewrite bind_Ret; cycle 1.
  { erewrite bind_Ret by exact Hsys. reflexivity. }
  cbv beta iota.
  match goal with |- context [moveFileDescriptor n _ ?x] => set (s1 := x) end.
  destruct (moveFileDescriptor_ok s1 n (stream d) (File (filename r) (open_flags d)))
    as (s' & Hm & Hf & Hl & Hfr & Hfs).
  { intros k. apply Hn. }
  { subst s1. simpl. by rewrite lookup_insert_eq. }
  exists s', (SysOpen (filename r) (open_flags d) (open_mode d) (inr n)
              :: if decide (n = stream d) then []
                 else [SysDup2 n (stream d) true; SysClose n true]).
  split; [done|].
  split. { eapply no_faults_frozen; [exact Hfr|]. intros k. apply Hn. }
  split.
  { rewrite Hf. subst s1. simpl. rewrite delete_insert_eq, delete_id; [done|].
    apply lowest_free_fresh. }
  split. { rewrite Hl. subst s1. simpl. by rewrite <- (assoc_L (++)). }
  split. { simpl. by destruct (decide _). }
  split. { by destruct (decide _). }
  rewrite Hfs. done.
Qed.

(** An input redirection whose target does not exist or may not be read
    ends the child. *)
Lemma addRedirs_input_missing r s :
  no_faults (os s) → direction_of r = Some Input →
  fs (os s) !! filename r = None →
  ∃ s',
    addRedirs r s = Exit EXIT_FAILURE s'
    ∧ log (me s') = log (me s)
                    ++ [SysOpen (filename r) [O_RDONLY] 0 (inl ENOENT);
                        Stderr (filename r ++ ": no such file or directory" ++ nl);
                        SysExit EXIT_FAILURE]
    ∧ fds (me s') = fds (me s).
Proof.
  intros Hn Hd Hnone. rewrite addRedirs_direction, Hd. simpl.
  unfold openFile, bind, sys_open. rewrite (no_faults_faulty _ Hn). simpl.
  unfold open_fs. simpl. rewrite Hnone. simpl. eexists. split; [done|]. simpl.
  by rewrite <- !(assoc_L (++)).
Qed.

Lemma addRedirs_input_unreadable r s x :
  no_faults (os s) → direction_of r = Some Input →
  fs (os s) !! filename r = Some x → readable x = false →
  ∃ s',
    addRedirs r s = Exit EXIT_FAILURE s'
    ∧ log (me s') = log (me s)
                    ++ [SysOpen (filename r) [O_RDONLY] 0 (inl EACCES);
                        Stderr (filename r ++ ": permission denied" ++ nl);
                        SysExit EXIT_FAILURE]
    ∧ fds (me s') = fds (me s).
Proof.
  intros Hn Hd Hx Hr. rewrite addRedirs_direction, Hd. simpl.
  unfold openFile, bind, sys_open. rewrite (no_faults_faulty _ Hn). simpl.
  unfold open_fs. simpl. rewrite Hx. simpl. rewrite Hr. simpl.
  eexists. split; [done|]. simpl.
  by rewrite <- !(assoc_L (++)).
Qed.

End Redirs.

Section RedirsLoop.
Context `{Externals}.

Lemma redirectable_step f r r' :
  redirectable f r → redirectable f r' → redirectable (redirect_fs f r) r'.
Proof.
  unfold redirectable, redirect_fs. intros Hr Hr'.
  destruct (direction_of r) as [[| |]|] eqn:Hd; try done.
  - (* [r] truncates *)
    destruct (direction_of r') as [[| |]|]; try done.
    + destruct Hr' as (x & Hx & Hrd).
      destruct (decide (filename r = filename r')) as [Heq|Hne].
      * rewrite Heq, lookup_insert_eq, Hx. eexists. split; [done|]. done.
      * rewrite lookup_insert_ne by done. eauto.
    + intros x. destruct (decide (filename r = filename r')) as [Heq|Hne].
      * rewrite Heq, lookup_insert_eq. intros [= <-].
        destruct (f !! filename r') as [y|] eqn:E; [exact (Hr' y eq_refl)|reflexivity].
      * rewrite lookup_insert_ne by done. apply Hr'.
    + intros x. destruct (decide (filename r = filename r')) as [Heq|Hne].
      * rewrite Heq, lookup_insert_eq. intros [= <-].
        destruct (f !! filename r') as [y|] eqn:E; [exact (Hr' y eq_refl)|reflexivity].
      * rewrite lookup_insert_ne by done. apply Hr'.
  - (* [r] appends *)
    destruct (f !! filename r) eqn:E; [done|].
    destruct (direction_of r') as [[| |]|]; try done.
    + destruct Hr' as (x & Hx & Hrd). exists x. split; [|done].
      rewrite lookup_insert_ne; [done|]. intros Heq. rewrite Heq in E. congruence.
    + intros x. destruct (decide (filename r = filename r')) as [Heq|Hne].
      * rewrite Heq, lookup_insert_eq. intros [= <-]. reflexivity.
      * rewrite lookup_insert_ne by done. apply Hr'.
    + intros x. destruct (decide (filename r = filename r')) as [Heq|Hne].
      * rewrite Heq, lookup_insert_eq. intros [= <-]. reflexivity.
      * rewrite lookup_insert_ne by done. apply Hr'.
Qed.

Lemma onto_cons fd r rs :
  onto fd (r :: rs)
  = if decide (stream <$> direction_of r = Some fd) then r :: onto fd rs else onto fd rs.
Proof. unfold onto. by rewrite filter_cons. Qed.

(** The redirections of a command, all of whose targets can be opened. *)
Lemma redirs_loop_ok rs :
  ∀ s, no_faults (os s) → Forall (redirectable (fs (os s))) rs →
  ∃ s' evs,
    redirs_loop rs s = Ret tt s'
    ∧ no_faults (os s')
    ∧ log (me s') = log (me s) ++ evs
    ∧ opens evs = omap request rs
    ∧ count is_diagnostic evs = 0%nat
    ∧ fs (os s') = foldl redirect_fs (fs (os s)) rs
    ∧ ∀ fd, fds (me s') !! fd = match last (onto fd rs) with
                                | Some r => opened r
                                | None => fds (me s) !! fd
                                end.
Proof.
  induction rs as [|r rs IH]; intros s Hn Hok.
  - exists s, []. simpl. by rewrite app_nil_r.
  - apply Forall_cons in Hok as [Hr Hok]. simpl redirs_loop.
    destruct (addRedirs_ok r s Hn Hr) as (s1 & ev1 & Hrun & Hn1 & Hf1 & Hl1 & Ho1 & Hd1 & Hfs1).
    erewrite bind_Ret by exact Hrun. cbv beta iota.
    destruct (IH s1 Hn1) as (s' & evs & Hloop & Hn' & Hl' & Ho' & Hd' & Hfs' & Hfds').
    { rewrite Hfs1. eapply Forall_impl; [exact Hok|]. intros r'. by apply redirectable_step. }
    exists s', (ev1 ++ evs). split; [done|]. split; [done|].
    split; [by rewrite Hl', Hl1, <- (assoc_L (++))|].
    split. { rewrite opens_app, Ho1, Ho'. simpl. by destruct (request r). }
    split. { unfold count in *. rewrite List.filter_app, length_app. lia. }
    split; [by rewrite Hfs', Hfs1|].
    intros fd. rewrite Hfds', onto_cons.
    destruct (last (onto fd rs)) as [r'|] eqn:Hlast.
    + destruct (decide _); [|by rewrite Hlast].
      rewrite last_cons, Hlast. done.
    + apply last_None in Hlast. rewrite Hlast, Hf1. unfold opened.
      destruct (direction_of r) as [d|] eqn:Hd; simpl.
      * destruct (decide (Some (stream d) = Some fd)) as [[= <-]|Hne].
        -- simpl. by rewrite lookup_insert_eq, Hd.
        -- rewrite lookup_insert_ne; [done|]. congruence.
      * done.
Qed.

End RedirsLoop.

Section RedirectionClaim.
Context `{Externals}.

(** C6.  The redirections of a command, when no system call fails and
    every target can be opened (an input target exists and is readable,
    an output target is absent or writable): the child opens the targets
    in the listed order, an input target read-only, an output-truncate
    target with create and truncate and mode 0644 (420), an output-append
    target with create and append and mode 0644; the file system ends as
    the contract says (truncate: created empty or emptied; append: created
    empty when absent, left alone otherwise); and every descriptor ends on
    the target of the last redirection onto it, standard input for an
    input redirection and standard output for the two output kinds, or is
    left as it was when no redirection is onto it.  An input redirection
    whose target is absent, or present and unreadable, ends the child with
    a diagnostic. *)
Theorem redirections_in_listed_order rs s :
  no_faults (os s) → Forall (redirectable (fs (os s))) rs →
  (∃ s' evs,
     redirs_loop rs s = Ret tt s'
     ∧ log (me s') = log (me s) ++ evs
     ∧ opens evs = omap request rs
     ∧ fs (os s') = foldl redirect_fs (fs (os s)) rs
     ∧ ∀ fd, fds (me s') !! fd = match last (onto fd rs) with
                                 | Some r => opened r
                                 | None => fds (me s) !! fd
                                 end)
  ∧ (∀ r, direction_of r = Some Input → fs (os s) !! filename r = None →
          ∃ s', addRedirs r s = Exit EXIT_FAILURE s'
                ∧ log (me s')
                  = log (me s)
                    ++ [SysOpen (filename r) [O_RDONLY] 0 (inl ENOENT);
                        Stderr (filename r ++ ": no such file or directory" ++ nl);
                        SysExit EXIT_FAILURE])
  ∧ (∀ r x, direction_of r = Some Input → fs (os s) !! filename r = Some x →
            readable x = false →
            ∃ s', addRedirs r s = Exit EXIT_FAILURE s'
                  ∧ log (me s')
                    = log (me s)
                      ++ [SysOpen (filename r) [O_RDONLY] 0 (inl EACCES);
                          Stderr (filename r ++ ": permission denied" ++ nl);
                          SysExit EXIT_FAILURE]).
Proof.
  intros Hn Hok. split; [|split].
  - destruct (redirs_loop_ok rs s Hn Hok) as (s' & evs & Hrun & _ & Hl & Ho & _ & Hfs & Hfds).
    exists s', evs. done.
  - intros r Hd Hnone.
    destruct (addRedirs_input_missing r s Hn Hd Hnone) as (s' & Hrun & Hl & _). eauto.
  - intros r x Hd Hx Hr.
    destruct (addRedirs_input_unreadable r s x Hn Hd Hx Hr) as (s' & Hrun & Hl & _). eauto.
Qed.

End RedirectionClaim.

(** * Validation and dispatch *)

Section Validate.
Context `{Externals}.

Lemma run_loop_list h e l :
  chain h l e → Forall (λ x, isEmptyPipeline x.2 = false) l →
  ∀ s, run_loop (length l) h (Some (first_addr l e)) s = run_list (omap snd l) s.
Proof.
  induction l as [|x l IH]; intros Hc Hne s; [done|].
  simpl in Hc. destruct Hc as [Hx Hc]. apply Forall_cons in Hne as [Hx' Hne].
  simpl length. simpl run_loop. simpl first_addr.
  erewrite bind_Ret by reflexivity. cbv beta iota.
  rewrite Hx. erewrite bind_Ret by reflexivity. cbv beta iota. simpl ps_pipeline.
  destruct x as [a [pl|]]; [|done]. simpl.
  unfold bind at 1. simpl. unfold bind. destruct (runPipeline pl s); try done.
  by apply IH.
Qed.

Lemma kept_nonempty (l : list (addr * option pipeline)) :
  Forall (λ x, isEmptyPipeline x.2 = false) (kept l).
Proof. apply Forall_forall. intros x Hx. by apply list_elem_of_filter in Hx as [? _]. Qed.

(** C7.  Validation of a parsed line, given as the circular list [l] of
    its pipelines, when the first pipeline that is not entirely empty has
    no empty command slot: [removeEmptyPipelines] returns the number of
    pipelines that are not entirely empty and leaves exactly those, in
    their order, as a circular list; when every pipeline is empty it
    returns 0, not the error -1, and the empty sequence.  The dispatch
    loop of [handleLine] then runs exactly the pipelines left, in that
    order. *)
Theorem validation_drops_empty_pipelines (h : heap) (l : list (addr * option pipeline)) :
  cycle h l →
  (∀ x, head (kept l) = Some x → has_null x.2 = false) →
  ∃ h',
    removeEmptyPipelines h (head_of l)
    = Some (h', head_of (kept l), Z.of_nat (length (kept l)))
    ∧ (kept l ≠ [] → cycle h' (kept l))
    ∧ ∀ s, run_loop (length (kept l)) h' (head_of (kept l)) s
           = run_list (omap snd (kept l)) s.
Proof.
  intros Hc Hnull.
  destruct (removeEmptyPipelines_cycle h l Hc) as (h' & Hrun & Hcyc).
  exists h'.
  assert (Hloop : ∀ s, run_loop (length (kept l)) h' (head_of (kept l)) s
                       = run_list (omap snd (kept l)) s).
  { intros s. destruct (decide (kept l = [])) as [Hnil|Hne].
    - by rewrite Hnil.
    - destruct (Hcyc Hne) as (_ & _ & Hch).
      replace (head_of (kept l))
        with (Some (first_addr (kept l) (first_addr (kept l) 0%nat)))
        by (by destruct (kept l)).
      apply (run_loop_list h' (first_addr (kept l) 0%nat) (kept l) Hch (kept_nonempty l)). }
  split; [|done].
  destruct (kept l) as [|x k] eqn:Hk; [done|].
  by rewrite (Hnull x eq_refl) in Hrun.
Qed.

(** After validation [handleLine] prints the syntax error for -1 and runs
    the loop otherwise. *)
Lemma handleLine_parsed s s1 line e :
  getLine s = Ret (Some line, e) s1 → e ≠ Some EIO →
  handleLine s
  = match removeEmptyPipelines (parseline line).1 (parseline line).2 with
    | None => Fault s1
    | Some (h, pipelines, count) =>
        if bool_decide (count = -1) then emitM (Stderr (SYNTAX_ERROR_STR ++ nl)) s1
        else run_loop (Z.to_nat count) h pipelines s1
    end.
Proof.
  intros Hg He. unfold handleLine. erewrite bind_Ret by exact Hg. simpl.
  rewrite bool_decide_eq_false_2 by done.
  destruct (removeEmptyPipelines _ _) as [[[? ?] c]|]; [|done].
  by destruct (bool_decide (c = -1)).
Qed.

End Validate.

(** * Failures stay in the child *)

Lemma quiet_nil : quiet [].
Proof. done. Qed.

Lemma quiet_app l1 l2 : quiet l1 → quiet l2 → quiet (l1 ++ l2).
Proof. unfold quiet. rewrite !count_app. lia. Qed.

Lemma quiet_one c : is_failure c = false → is_diagnostic c = false → quiet [c].
Proof. unfold quiet. rewrite !count_cons. by intros -> ->. Qed.

Section Contained.
Context `{Externals}.

Lemma contained_bind {A B} (m : M A) (k : A → M B) :
  contained m → (∀ a, contained (k a)) → contained (bind m k).
Proof.
  intros Hm Hk s. unfold bind. specialize (Hm s).
  destruct (m s) as [a s1|st s1|fl a s1|s1]; try done.
  destruct Hm as (ev1 & Hl1 & Hq1). simpl in Hl1.
  specialize (Hk a s1). destruct (k a s1) as [b s2|st s2|fl b s2|s2]; simpl in *.
  - destruct Hk as (ev2 & Hl2 & Hq2). exists (ev1 ++ ev2).
    split; [by rewrite Hl2, Hl1, <- (assoc_L (++))|by apply quiet_app].
  - destruct Hk as (ev2 & f & d & Hl2 & Hq2 & Hf). exists (ev1 ++ ev2), f, d.
    split; [by rewrite Hl2, Hl1, <- !(assoc_L (++))|]. split; [by apply quiet_app|done].
  - destruct Hk as (ev2 & Hl2 & Hq2). exists (ev1 ++ ev2).
    split; [by rewrite Hl2, Hl1, <- (assoc_L (++))|by apply quiet_app].
  - destruct Hk as (ev2 & Hl2 & Hq2). exists (ev1 ++ ev2).
    split; [by rewrite Hl2, Hl1, <- (assoc_L (++))|by apply quiet_app].
Qed.

Lemma contained_ret {A} (a : A) : contained (ret a).
Proof. intros s. exists []. by rewrite app_nil_r. Qed.

Lemma contained_fault {A} : contained (@fault A).
Proof. intros s. exists []. by rewrite app_nil_r. Qed.

Lemma contained_deref {A} (o : option A) : contained (deref o).
Proof. destruct o; [apply contained_ret|apply contained_fault]. Qed.

Lemma contained_closeFileDescriptor fd : contained (closeFileDescriptor fd).
Proof.
  intros s. unfold closeFileDescriptor, bind, sys_close.
  destruct (if faulty (os s) then None else fds (me s) !! fd); simpl.
  - exists [SysClose fd true]. split; [done|]. by apply quiet_one.
  - exists [], (SysClose fd false), (Perror "close() failed").
    split; [by rewrite <- !(assoc_L (++))|]. split; [done|]. constructor.
Qed.

Lemma contained_moveFileDescriptor from to : contained (moveFileDescriptor from to).
Proof.
  unfold moveFileDescriptor. destruct (decide (from = to)); [apply contained_ret|].
  intros s. unfold bind at 1. unfold sys_dup2.
  destruct (if faulty (os s) then None else fds (me s) !! from); simpl.
  - match goal with |- context [closeFileDescriptor from ?x] => set (s1 := x) end.
    pose proof (contained_closeFileDescriptor from s1) as Hc.
    destruct (closeFileDescriptor from s1) as [a s2|st s2|fl a s2|s2]; simpl in *.
    + destruct Hc as (ev & Hl & Hq). exists (SysDup2 from to true :: ev).
      split; [by rewrite Hl, <- (assoc_L (++))|].
      apply (quiet_app [_]); [by apply quiet_one|done].
    + destruct Hc as (ev & fc & d & Hl & Hq & Hf). exists (SysDup2 from to true :: ev), fc, d.
      split; [by rewrite Hl, <- !(assoc_L (++))|]. split; [|done].
      apply (quiet_app [_]); [by apply quiet_one|done].
    + destruct Hc as (ev & Hl & Hq). exists (SysDup2 from to true :: ev).
      split; [by rewrite Hl, <- (assoc_L (++))|].
      apply (quiet_app [_]); [by apply quiet_one|done].
    + destruct Hc as (ev & Hl & Hq). exists (SysDup2 from to true :: ev).
      split; [by rewrite Hl, <- (assoc_L (++))|].
      apply (quiet_app [_]); [by apply quiet_one|done].
  - unfold bind. simpl.
    exists [], (SysDup2 from to false), (Perror "dup2() failed").
    split; [by rewrite <- !(assoc_L (++))|]. split; [done|]. constructor.
Qed.

Lemma contained_openFile name fl m : contained (openFile name fl m).
Proof.
  intros s. unfold openFile, bind, sys_open.
  destruct (faulty (os s)); simpl.
  { exists [], (SysOpen name fl m (inl EOTHER)), (Perror "open() failed").
    split; [by rewrite <- !(assoc_L (++))|]. split; [done|]. by constructor. }
  destruct (open_fs (fs (os s)) name fl m) as [[e|] f']; simpl.
  - destruct e; simpl; eexists [], (SysOpen name fl m (inl _)), _;
      (split; [by rewrite <- !(assoc_L (++))|]); (split; [done|]); by constructor.
  - eexists [_]. split; [done|]. by apply quiet_one.
Qed.

Lemma contained_addRedirs r : contained (addRedirs r).
Proof.
  unfold addRedirs.
  repeat first
    [ apply contained_ret
    | apply contained_bind; [apply contained_openFile|intros ?; apply contained_moveFileDescriptor]
    | match goal with |- contained (if ?b then _ else _) => destruct b end ].
Qed.

Lemma contained_redirs_loop rs : contained (redirs_loop rs).
Proof.
  induction rs as [|r rs IH]; simpl; [apply contained_ret|].
  apply contained_bind; [apply contained_addRedirs|done].
Qed.

Lemma contained_child_wire rd pf : contained (child_wire rd pf).
Proof.
  unfold child_wire. apply contained_bind; [apply contained_moveFileDescriptor|intros _].
  destruct pf as [[r w]|]; [|apply contained_ret].
  apply contained_bind; [apply contained_moveFileDescriptor|intros _].
  apply contained_closeFileDescriptor.
Qed.

(** [execvp] and what follows it. *)
Lemma contained_exec name argv :
  contained (e <- sys_execvp name argv;;
             (match e with
              | ENOENT => emitM (Stderr (name ++ ": no such file or directory" ++ nl))
              | EACCES => emitM (Stderr (name ++ ": permission denied" ++ nl))
              | _ => emitM (Stderr (name ++ ": exec error" ++ nl))
              end);;
             @sys_exit unit EXEC_FAILURE).
Proof.
  intros s. unfold bind, sys_execvp.
  destruct (if faulty (os s) then Some EOTHER
            else match programs (tick (os s)) !! name with
                 | Some true => None
                 | Some false => Some EACCES
                 | None => Some ENOENT
                 end) as [e|]; simpl.
  - destruct e; simpl; eexists [], (SysExecvp name argv (Some _)), _;
      (split; [by rewrite <- !(assoc_L (++))|]); (split; [done|]); by constructor.
  - eexists [_]. split; [done|]. by apply quiet_one.
Qed.

Lemma contained_child_exec com : contained (child_exec com).
Proof.
  unfold child_exec.
  apply contained_bind; [apply contained_deref|intros c].
  apply contained_bind; [apply contained_redirs_loop|intros _].
  apply contained_bind; [apply contained_deref|intros name].
  apply contained_bind; [apply contained_deref|intros argv].
  apply contained_exec.
Qed.

Lemma contained_child_signals bg : contained (child_signals bg).
Proof.
  intros s. rewrite child_signals_eq. simpl.
  destruct bg; simpl; eexists; (split; [by rewrite <- ?(assoc_L (++))|done]).
Qed.

Lemma contained_runCommand_child com rd pf bg : contained (runCommand_child com rd pf bg).
Proof.
  unfold runCommand_child.
  apply contained_bind; [apply contained_child_signals|intros _].
  apply contained_bind; [apply contained_child_wire|intros _].
  apply contained_child_exec.
Qed.

(** The shell after [runCommand], whatever the child does. *)
Lemma runCommand_parent com rd pf bg s :
  faulty (os s) = false →
  ∃ s' ch,
    runCommand com rd pf bg s = Ret tt s'
    ∧ me s' = after_fork bg (next_pid (os s)) (me s)
    ∧ procs (os s') = procs (os s) ++ [ch]
    ∧ c_pid ch = next_pid (os s)
    ∧ c_proc ch = me (state_of (runCommand_child com rd pf bg
                       {| me := born (next_pid (os s)) (me s);
                          os := new_pid (tick (os s)) |})).
Proof.
  intros Hf.
  set (p := next_pid (os s)).
  set (sb := {| me := born p (me s); os := new_pid (tick (os s)) |}).
  pose proof (runCommand_child_world com rd pf bg sb) as Hw.
  unfold keeps, world_fixed in Hw. simpl in Hw.
  unfold runCommand. unfold bind at 1. simpl.
  unfold bind at 1. unfold sys_fork. simpl. rewrite Hf.
  change (born (next_pid (os s)) (emit Fflush (me s))) with (born p (me s)).
  fold sb. rewrite <- ending_of_state in Hw |- *.
  destruct (ending_of (runCommand_child com rd pf bg sb)) as [e sc]. simpl in Hw |- *.
  inversion Hw as [[Hw1 Hw2 Hw3 Hw4 Hw5 Hw6 Hw7]].
  destruct bg; simpl; eexists _, _; (split; [reflexivity|]); simpl; by rewrite Hw6.
Qed.

End Contained.

Section LaunchFailureClaim.
Context `{Externals}.

(** C5, amended.  A launched child that exits while it still runs the
    shell's code has, as its last three steps, one failed call, one
    diagnostic and the exit, and no failure or diagnostic before.  After a
    failed [execvp] the diagnostic names the program and the status is
    [EXEC_FAILURE]; after a failed [open] the status is [EXIT_FAILURE] and
    the diagnostic names the file when the error is "no such file" or
    "permission denied" and the operation otherwise; after a failed
    [dup2] or [close] the status is [EXIT_FAILURE] and the diagnostic
    names the operation.  The child never comes back into the shell's
    loop, and the shell's own state after [runCommand] is the same
    whatever the child does. *)
Theorem child_failures_stay_in_child com rd pf bg s :
  (∀ st s', runCommand_child com rd pf bg s = Exit st s' →
            ∃ evs f d, log (me s') = log (me s) ++ evs ++ [f; d; SysExit st]
                       ∧ quiet evs ∧ launch_failure f d st)
  ∧ (∀ s', runCommand_child com rd pf bg s ≠ Ret tt s')
  ∧ (faulty (os s) = false →
     ∃ s' ch, runCommand com rd pf bg s = Ret tt s'
              ∧ me s' = after_fork bg (next_pid (os s)) (me s)
              ∧ procs (os s') = procs (os s) ++ [ch]).
Proof.
  split; [|split].
  - intros st s' Hrun. pose proof (contained_runCommand_child com rd pf bg s) as Hc.
    by rewrite Hrun in Hc.
  - intros s'. apply runCommand_child_no_return.
  - intros Hf. destruct (runCommand_parent com rd pf bg s Hf) as (s' & ch & Hrun & Hme & Hp & _).
    eauto.
Qed.

End LaunchFailureClaim.

(** C5 as stated fails: in the sample environment a child whose input
    redirection has no target exits with [EXIT_FAILURE] and a child whose
    program is not found exits with [EXEC_FAILURE], and the two statuses
    differ: launch failures do not share one status. *)
Lemma launch_failures_have_two_statuses :
  ∃ s1 s2,
    @runCommand_child sample_env cat_from_missing 3%nat None false (sample_child [])
    = Exit EXIT_FAILURE s1
    ∧ @runCommand_child sample_env nosuch 3%nat None false (sample_child [])
      = Exit (@EXEC_FAILURE sample_env) s2
    ∧ EXIT_FAILURE ≠ @EXEC_FAILURE sample_env.
Proof.
  eexists _, _. split; [vm_compute; reflexivity|]. split; [vm_compute; reflexivity|].
  vm_compute. discriminate.
Qed.

(** * How the shell exits *)

Create HintDb exits.

Section Exits.
Context `{Externals}.

Lemma exits_bind P {A B} (m : M A) (k : A → M B) :
  exits_with P m → (∀ a, exits_with P (k a)) → exits_with P (bind m k).
Proof.
  intros Hm Hk s st s' Hr. apply bind_inv_Exit in Hr as [Hr|(a & s1 & _ & Hr)].
  - by eapply Hm.
  - by eapply Hk.
Qed.

Lemma exits_ret P {A} (a : A) : exits_with P (ret a).
Proof. by intros s st s'. Qed.

Lemma exits_fault P {A} : exits_with P (@fault A).
Proof. by intros s st s'. Qed.

Lemma exits_deref P {A} (o : option A) : exits_with P (deref o).
Proof. destruct o; [apply exits_ret|apply exits_fault]. Qed.

Lemma exits_sys_exit (P : Z → Prop) {A} st : P st → exits_with P (@sys_exit A st).
Proof. intros HP s st' s' [= <- _]. done. Qed.

Ltac never_exits := intros s st s'; simpl; repeat case_match; discriminate.

Lemma exits_emitM P c : exits_with P (emitM c).
Proof. never_exits. Qed.
Lemma exits_sys_dup P fd : exits_with P (sys_dup fd).
Proof. unfold sys_dup. never_exits. Qed.
Lemma exits_sys_close P fd : exits_with P (sys_close fd).
Proof. unfold sys_close. never_exits. Qed.
Lemma exits_sys_pipe P : exits_with P sys_pipe.
Proof. unfold sys_pipe. never_exits. Qed.
Lemma exits_sys_fork P child : exits_with P (sys_fork child).
Proof. unfold sys_fork. intros s st s'. destruct (faulty _); [done|]. by destruct (ending_of _). Qed.
Lemma exits_block P : exits_with P blockChildSignal.
Proof. never_exits. Qed.
Lemma exits_unblock P : exits_with P unblockChildSignal.
Proof. never_exits. Qed.
Lemma exits_register P p : exits_with P (registerForegroundChild p).
Proof. never_exits. Qed.
Lemma exits_wait P : exits_with P waitForForegroundChildren.
Proof. never_exits. Qed.
Lemma exits_print P : exits_with P printBackgroundChildrenInfo.
Proof. never_exits. Qed.
Lemma exits_getLine P : exits_with P getLine.
Proof. unfold getLine. never_exits. Qed.

Hint Resolve exits_emitM exits_sys_dup exits_sys_close exits_sys_pipe exits_sys_fork
  exits_block exits_unblock exits_register exits_wait exits_print exits_getLine : exits.

Ltac exits_go :=
  repeat first
    [ apply exits_ret
    | apply exits_fault
    | apply exits_deref
    | apply exits_sys_exit; reflexivity
    | apply exits_bind; [|intros ?]
    | match goal with
      | |- exits_with _ (match ?x with _ => _ end) => destruct x
      end
    | solve [eauto with exits] ].

Lemma exits_closeFileDescriptor fd : exits_with failure (closeFileDescriptor fd).
Proof. unfold closeFileDescriptor. exits_go. Qed.
Hint Resolve exits_closeFileDescriptor : exits.

Lemma exits_runCommand com rd pf bg : exits_with failure (runCommand com rd pf bg).
Proof. unfold runCommand. exits_go. Qed.
Hint Resolve exits_runCommand : exits.

Lemma exits_builtin_path c n bg : exits_with failure (builtin_path c n bg).
Proof. unfold builtin_path. exits_go. Qed.
Hint Resolve exits_builtin_path : exits.

Lemma exits_stage_loop cs : ∀ rd bg, exits_with failure (stage_loop cs rd bg).
Proof. induction cs as [|c cs IH]; intros rd bg; simpl; exits_go. Qed.
Hint Resolve exits_stage_loop : exits.

Lemma exits_general_path cs bg : exits_with failure (general_path cs bg).
Proof. unfold general_path. exits_go. Qed.
Hint Resolve exits_general_path : exits.

Lemma exits_runPipeline pl : exits_with failure (runPipeline pl).
Proof. unfold runPipeline. exits_go. Qed.
Hint Resolve exits_runPipeline : exits.

Lemma exits_run_loop k : ∀ h p, exits_with failure (run_loop k h p).
Proof. induction k as [|k IH]; intros h p; simpl; exits_go. Qed.
Hint Resolve exits_run_loop : exits.

(** [handleLine] at end-of-input. *)
Lemma handleLine_eof s e s1 :
  getLine s = Ret (None, e) s1 → e ≠ Some EIO →
  handleLine s
  = Exit EXIT_SUCCESS {| me := emit (SysExit EXIT_SUCCESS) (me s1); os := os s1 |}.
Proof.
  intros Hg He. unfold handleLine. erewrite bind_Ret by exact Hg. simpl.
  by rewrite bool_decide_eq_false_2.
Qed.

Lemma getLine_log s r s1 :
  getLine s = Ret r s1 →
  log (me s1) = log (me s) ++ [GetLine r.1 r.2]
  ∧ fds (me s1) = fds (me s) ∧ procs (os s1) = procs (os s).
Proof.
  unfold getLine. destruct (input (os s)) as [|[l e] rest]; intros [= <- <-]; done.
Qed.

(** Every exit of [handleLine] is a failure exit but the one at
    end-of-input. *)
Lemma handleLine_exit s st s' :
  handleLine s = Exit st s' →
  st = EXIT_FAILURE
  ∨ (st = EXIT_SUCCESS
     ∧ ∃ e, e ≠ Some EIO
            ∧ log (me s') = log (me s) ++ [GetLine None e; SysExit EXIT_SUCCESS]).
Proof.
  intros Hr. unfold handleLine in Hr.
  apply bind_inv_Exit in Hr as [Hr|([l e] & s1 & Hg & Hr)]; [by apply (exits_getLine (λ _, False)) in Hr|].
  simpl in Hr. destruct (bool_decide (e = Some EIO)) eqn:He; [done|].
  apply bool_decide_eq_false in He.
  destruct l as [line|].
  - left. destruct (removeEmptyPipelines _ _) as [[[h p] c]|]; [|done].
    destruct (bool_decide (c = -1)); [done|]. by apply exits_run_loop in Hr.
  - right. injection Hr as <- <-. split; [done|]. exists e. split; [done|].
    apply getLine_log in Hg as (Hl & _). simpl in *. rewrite Hl.
    by rewrite <- (assoc_L (++)).
Qed.

Lemma main_loop_exit fuel tty : ∀ s st s',
  main_loop fuel tty s = Exit st s' →
  st = EXIT_FAILURE
  ∨ (st = EXIT_SUCCESS
     ∧ ∃ pre e, e ≠ Some EIO ∧ log (me s') = pre ++ [GetLine None e; SysExit EXIT_SUCCESS]).
Proof.
  induction fuel as [|fuel IH]; intros s st s' Hr; [done|].
  simpl in Hr. apply bind_inv_Exit in Hr as [Hr|(? & s1 & _ & Hr)].
  { destruct tty; [|done]. exfalso. revert Hr.
    assert (Hx : exits_with (λ _, False)
              (printBackgroundChildrenInfo;; emitM (Printf PROMPT_STR);; emitM Fflush))
      by exits_go.
    apply Hx. }
  apply bind_inv_Exit in Hr as [Hr|(? & s2 & _ & Hr)]; [|by eapply IH].
  apply handleLine_exit in Hr as [?|(? & e & He & Hl)]; [by left|right].
  split; [done|]. by exists (log (me s1)), e.
Qed.

End Exits.

Section EndOfInput.
Context `{Externals}.

Lemma getLine_eof s :
  (input (os s) = [] ∨ ∃ e rest, input (os s) = (None, e) :: rest ∧ e ≠ Some EIO) →
  ∃ e s1, getLine s = Ret (None, e) s1 ∧ e ≠ Some EIO
          ∧ procs (os s1) = procs (os s) ∧ fds (me s1) = fds (me s).
Proof.
  unfold getLine. intros [Hi|(e & rest & Hi & He)]; rewrite Hi.
  - by eexists None, _.
  - by eexists e, _.
Qed.

Lemma main_exit fuel s st s' :
  main fuel s = Exit st s' →
  st = EXIT_FAILURE
  ∨ (st = EXIT_SUCCESS
     ∧ ∃ pre e, e ≠ Some EIO ∧ log (me s') = pre ++ [GetLine None e; SysExit EXIT_SUCCESS]).
Proof.
  unfold main. intros Hr.
  repeat (apply bind_inv_Exit in Hr as [Hr|(? & ? & _ & Hr)]; [done|]).
  by apply main_loop_exit in Hr.
Qed.

(** C10.  When the line reader reports end-of-input ([getLine] returns
    [NULL] and [errno] is not [EIO]) [handleLine] calls [exit] with the
    success status and does nothing else: the state it exits in is the one
    the reader left.  The loop of [main] then ends at once.  It is the
    only exit with the success status: every other exit of [main] has the
    failure status. *)
Theorem end_of_input_ends_the_shell :
  (∀ s e s1, getLine s = Ret (None, e) s1 → e ≠ Some EIO →
             handleLine s
             = Exit EXIT_SUCCESS
                 {| me := emit (SysExit EXIT_SUCCESS) (me s1); os := os s1 |})
  ∧ (∀ fuel tty s,
       (input (os s) = [] ∨ ∃ e rest, input (os s) = (None, e) :: rest ∧ e ≠ Some EIO) →
       ∃ s', main_loop (S fuel) tty s = Exit EXIT_SUCCESS s'
             ∧ procs (os s') = procs (os s) ∧ fds (me s') = fds (me s))
  ∧ (∀ fuel s st s',
       main fuel s = Exit st s' →
       st = EXIT_FAILURE
       ∨ (st = EXIT_SUCCESS
          ∧ ∃ pre e, e ≠ Some EIO
                     ∧ log (me s') = pre ++ [GetLine None e; SysExit EXIT_SUCCESS])).
Proof.
  split; [|split].
  - intros s e s1. apply handleLine_eof.
  - intros fuel tty s Hin. simpl main_loop.
    set (s0 := if tty
               then {| me := emit Fflush (emit (Printf PROMPT_STR)
                                            (emit PrintBackgroundChildrenInfo (me s)));
                       os := os s |}
               else s).
    assert (Hp : (if tty
                  then printBackgroundChildrenInfo;; emitM (Printf PROMPT_STR);; emitM Fflush
                  else ret ()) s = Ret tt s0) by (by destruct tty).
    erewrite bind_Ret by exact Hp. cbv beta iota.
    destruct (getLine_eof s0) as (e & s1 & Hg & He & Hprocs & Hfds).
    { by destruct tty. }
    erewrite bind_Exit by (by apply (handleLine_eof s0 e s1)).
    eexists. split; [done|]. simpl. rewrite Hprocs, Hfds. by destruct tty.
  - intros fuel s st s'. apply main_exit.
Qed.

End EndOfInput.

(** * Signals in the shell and in its children *)

Section Signals.
Context `{Externals}.

Lemma signals_reset_sig p1 p2 ch :
  proc_sig p1 = proc_sig p2 → signals_reset p1 ch → signals_reset p2 ch.
Proof.
  unfold proc_sig, signals_reset. intros [= _ _ _ _ H1 H2]. by rewrite H1, H2.
Qed.

#[local] Instance shell_keeps_refl : Reflexive shell_keeps.
Proof. intros s. split; [done|]. exists []. by rewrite app_nil_r. Qed.

#[local] Instance shell_keeps_trans : Transitive shell_keeps.
Proof.
  intros s1 s2 s3 (Hs1 & n1 & Hp1 & Hf1) (Hs2 & n2 & Hp2 & Hf2). split; [congruence|].
  exists (n1 ++ n2). split; [by rewrite Hp2, Hp1, <- (assoc_L (++))|].
  apply Forall_app. split; [done|].
  eapply Forall_impl; [exact Hf2|]. intros ch. by apply signals_reset_sig.
Qed.

Ltac prim_keeps :=
  intros s; simpl; repeat case_match; simpl;
  (split; [reflexivity|exists []; by rewrite app_nil_r]).

Lemma keeps_emitM c : stable shell_keeps (emitM c).
Proof. prim_keeps. Qed.
Lemma keeps_sys_dup fd : stable shell_keeps (sys_dup fd).
Proof. unfold sys_dup. prim_keeps. Qed.
Lemma keeps_sys_close fd : stable shell_keeps (sys_close fd).
Proof. unfold sys_close. prim_keeps. Qed.
Lemma keeps_sys_pipe : stable shell_keeps sys_pipe.
Proof. unfold sys_pipe. prim_keeps. Qed.
Lemma keeps_sys_exit {A} st : stable shell_keeps (@sys_exit A st).
Proof. prim_keeps. Qed.
Lemma keeps_block : stable shell_keeps blockChildSignal.
Proof. prim_keeps. Qed.
Lemma keeps_unblock : stable shell_keeps unblockChildSignal.
Proof. prim_keeps. Qed.
Lemma keeps_register p : stable shell_keeps (registerForegroundChild p).
Proof. prim_keeps. Qed.
Lemma keeps_wait : stable shell_keeps waitForForegroundChildren.
Proof. prim_keeps. Qed.
Lemma keeps_print : stable shell_keeps printBackgroundChildrenInfo.
Proof. prim_keeps. Qed.
Lemma keeps_getLine : stable shell_keeps getLine.
Proof. unfold getLine. prim_keeps. Qed.

(** Where a child stands when it stops running the shell's code. *)
Lemma child_final com rd pf bg sb :
  let sc := state_of (runCommand_child com rd pf bg sb) in
  act_int (me sc) = default_sigint_action (me sb)
  ∧ act_chld (me sc) = default_sigchld_action (me sb)
  ∧ chld_blocked (me sc) = false
  ∧ session_leader (me sc) = (bg || session_leader (me sb))
  ∧ procs (os sc) = procs (os sb)
  ∧ ∃ rest, log (me sc)
            = log (me sb) ++ (if bg then [SysSetsid] else [])
              ++ [UnblockChildSignal;
                  SysSigaction SIGINT (default_sigint_action (me sb));
                  SysSigaction SIGCHLD (default_sigchld_action (me sb))]
              ++ rest.
Proof.
  intros sc. subst sc. rewrite runCommand_child_eq.
  set (s1 := {| me := after_signals bg (me sb); os := os sb |}).
  pose proof (child_rest_frozen com rd pf s1) as Hfr.
  unfold keeps, frozen, world_fixed, proc_fixed in Hfr.
  injection Hfr as _ _ _ _ _ Hprocs _ _ Hsi Hchld Hbl Hsl _ _ _.
  rewrite Hsi, Hchld, Hbl, Hsl, Hprocs.
  assert (Hlog : ∃ rest, log (me (state_of ((child_wire rd pf;; child_exec com) s1)))
                         = log (me s1) ++ rest).
  { assert (Hc : contained (child_wire rd pf;; child_exec com)).
    { apply contained_bind; [apply contained_child_wire|intros; apply contained_child_exec]. }
    specialize (Hc s1).
    destruct ((child_wire rd pf;; child_exec com) s1); simpl in *.
    - destruct Hc as (? & ? & _). eauto.
    - destruct Hc as (? & ? & ? & ? & _). eauto.
    - destruct Hc as (? & ? & _). eauto.
    - destruct Hc as (? & ? & _). eauto. }
  destruct Hlog as [rest Hlog]. subst s1. simpl in *.
  destruct bg; simpl; repeat split; try done; exists rest; rewrite Hlog; simpl;
    by rewrite <- !(assoc_L (++)).
Qed.

Lemma keeps_sys_fork com rd pf bg :
  stable shell_keeps (sys_fork (runCommand_child com rd pf bg)).
Proof.
  intros s. unfold sys_fork. destruct (faulty (os s)).
  { simpl. split; [done|]. exists []. by rewrite app_nil_r. }
  set (sb := {| me := born (next_pid (tick (os s))) (me s); os := new_pid (tick (os s)) |}).
  pose proof (child_final com rd pf bg sb) as (Hi & Hc & Hb & _ & Hp & _).
  rewrite <- ending_of_state in Hi, Hc, Hb, Hp.
  destruct (ending_of (runCommand_child com rd pf bg sb)) as [e sc]. simpl in *.
  split; [done|]. eexists [_]. split; [simpl; by rewrite Hp|].
  constructor; [|done]. done.
Qed.

Hint Resolve keeps_emitM keeps_sys_dup keeps_sys_close keeps_sys_pipe keeps_sys_exit
  keeps_block keeps_unblock keeps_register keeps_wait keeps_print keeps_getLine
  keeps_sys_fork : stable.

Lemma keeps_closeFileDescriptor fd : stable shell_keeps (closeFileDescriptor fd).
Proof. unfold closeFileDescriptor. stable_go. Qed.
Hint Resolve keeps_closeFileDescriptor : stable.

Lemma keeps_runCommand com rd pf bg : stable shell_keeps (runCommand com rd pf bg).
Proof. unfold runCommand. stable_go. Qed.
Hint Resolve keeps_runCommand : stable.

Lemma keeps_builtin_path c n bg : stable shell_keeps (builtin_path c n bg).
Proof. unfold builtin_path. stable_go. Qed.
Hint Resolve keeps_builtin_path : stable.

Lemma keeps_stage_loop cs : ∀ rd bg, stable shell_keeps (stage_loop cs rd bg).
Proof. induction cs as [|c cs IH]; intros rd bg; simpl; stable_go. Qed.
Hint Resolve keeps_stage_loop : stable.

Lemma keeps_general_path cs bg : stable shell_keeps (general_path cs bg).
Proof. unfold general_path. stable_go. Qed.
Hint Resolve keeps_general_path : stable.

Lemma keeps_runPipeline pl : stable shell_keeps (runPipeline pl).
Proof. unfold runPipeline. stable_go. Qed.
Hint Resolve keeps_runPipeline : stable.

Lemma keeps_run_loop k : ∀ h p, stable shell_keeps (run_loop k h p).
Proof. induction k as [|k IH]; intros h p; simpl; stable_go. Qed.
Hint Resolve keeps_run_loop : stable.

Lemma keeps_handleLine : stable shell_keeps handleLine.
Proof. unfold handleLine. stable_go. Qed.
Hint Resolve keeps_handleLine : stable.

Lemma keeps_main_loop fuel tty : stable shell_keeps (main_loop fuel tty).
Proof. induction fuel as [|fuel IH]; simpl; stable_go. Qed.

(** C8.  A child made by [runCommand]: the first thing it does is to
    start a new session when the pipeline is in the background; then it
    unblocks the termination notification and installs for SIGINT and
    SIGCHLD the dispositions saved in [default_sigint_action] and
    [default_sigchld_action]; it still has them, and does not block the
    notification, when it stops running the shell's code.  The shell's own
    dispositions are not touched.  Through any run of [main]: the shell
    ignores SIGINT, and every child it has made has the dispositions for
    SIGINT and SIGCHLD that the shell was started with. *)
Theorem children_get_default_signals :
  (∀ com rd pf bg s,
     faulty (os s) = false →
     ∃ s' ch rest,
       runCommand com rd pf bg s = Ret tt s'
       ∧ procs (os s') = procs (os s) ++ [ch]
       ∧ log (c_proc ch)
         = (if bg then [SysSetsid] else [])
           ++ [UnblockChildSignal;
               SysSigaction SIGINT (default_sigint_action (me s));
               SysSigaction SIGCHLD (default_sigchld_action (me s))]
           ++ rest
       ∧ signals_reset (me s) ch
       ∧ session_leader (c_proc ch) = bg
       ∧ proc_sig (me s') = proc_sig (me s))
  ∧ (∀ fuel s0,
       let s' := state_of (main fuel s0) in
       sa_handler (act_int (me s')) = SIG_IGN
       ∧ ∃ new, procs (os s') = procs (os s0) ++ new
                ∧ Forall (λ ch, act_int (c_proc ch) = act_int (me s0)
                                ∧ act_chld (c_proc ch) = act_chld (me s0)
                                ∧ chld_blocked (c_proc ch) = false) new).
Proof.
  split.
  - intros com rd pf bg s Hf.
    destruct (runCommand_parent com rd pf bg s Hf) as (s' & ch & Hrun & Hme & Hp & _ & Hc).
    pose proof (child_final com rd pf bg
                  {| me := born (next_pid (os s)) (me s); os := new_pid (tick (os s)) |})
      as (Hi & Hch & Hb & Hsl & _ & rest & Hl).
    rewrite <- Hc in Hi, Hch, Hb, Hsl, Hl. simpl in *.
    exists s', ch, rest. split; [done|]. split; [done|]. split; [done|].
    split; [done|]. split; [by rewrite Hsl, orb_false_r|].
    rewrite Hme. by destruct bg.
  - intros fuel s0. unfold main.
    set (ign := {| sa_handler := SIG_IGN; sa_flags := [] |}).
    set (chld := {| sa_handler := SigHandler "sigchldHandler";
                    sa_flags := [SA_NOCLDSTOP; SA_RESTART] |}).
    set (s1 := {| me := set_default SIGCHLD (act_chld (me s0))
                          (emit (SysSigaction SIGCHLD chld)
                             (set_action SIGCHLD chld
                                (set_default SIGINT (act_int (me s0))
                                   (emit (SysSigaction SIGINT ign)
                                      (set_action SIGINT ign (me s0))))));
                  os := os s0 |}).
    set (tty := bool_decide (fds (me s0) !! STDIN_FILENO = Some Terminal)).
    assert (Hmain : (old <- sys_sigaction SIGINT ign;;
                     put_default SIGINT old;;
                     old0 <- sys_sigaction SIGCHLD chld;;
                     put_default SIGCHLD old0;;
                     is_a_tty <- isatty STDIN_FILENO;; main_loop fuel is_a_tty) s0
                    = main_loop fuel tty s1) by done.
    rewrite Hmain. clear Hmain.
    destruct (keeps_main_loop fuel tty s1) as (Hsig & new & Hp & Hall).
    unfold proc_sig in Hsig. injection Hsig as _ Hsi _ _ _ _.
    split; [by rewrite Hsi|]. exists new. split; [done|].
    eapply Forall_impl; [exact Hall|]. intros ch (? & ? & ?). done.
Qed.

End Signals.

(** * The claims on the sample environment *)

Lemma sample_no_faults lines : no_faults (os (sample_state lines)).
Proof. intros n. reflexivity. Defined.

(** C1.  The line ["ls ; cmd1 | | cmd2"]: validation answers 2, not -1,
    no syntax error is printed, and the shell forks [ls], [cmd1], a child
    for the empty slot (which crashes) and [cmd2].  The malformed pipeline
    alone, ["cmd1 | | cmd2"], is rejected as the claim says. *)
Theorem malformed_pipeline_after_another_runs :
  (λ r, (r.1.2, r.2)) <$> removeEmptyPipelines (parsed line_ls_then_malformed).1
                            (parsed line_ls_then_malformed).2
  = Some (Some 1%nat, 2)
  ∧ c_end <$> procs (os (state_of (@handleLine sample_env
                                     (sample_state ["ls ; cmd1 | | cmd2"]))))
    = [Running "ls" ["ls"]; Running "cmd1" ["cmd1"]; Crashed; Running "cmd2" ["cmd2"]]
  ∧ count is_diagnostic (log (me (state_of (@handleLine sample_env
                                              (sample_state ["ls ; cmd1 | | cmd2"])))))
    = 0%nat
  ∧ log (me (state_of (@handleLine sample_env (sample_state ["cmd1 | | cmd2"]))))
    = [GetLine (Some "cmd1 | | cmd2") None; Stderr ("Syntax error." ++ nl)]
  ∧ procs (os (state_of (@handleLine sample_env (sample_state ["cmd1 | | cmd2"])))) = [].
Proof. vm_compute. repeat split; reflexivity. Qed.

(** C7 on ["true ; ; false"]: two pipelines are left and run, in order. *)
Lemma validation_drops_empty_pipelines_witness :
  cycle (parsed line_true_false).1 line_true_false
  ∧ ∃ h', removeEmptyPipelines (parsed line_true_false).1 (head_of line_true_false)
          = Some (h', Some 1%nat, 2)
          ∧ ∀ s, @run_loop sample_env 2 h' (Some 1%nat) s
                 = @run_list sample_env
                     [{| commands := [simple "true"]; flags := 0 |};
                      {| commands := [simple "false"]; flags := 0 |}] s.
Proof.
  assert (Hc : cycle (parsed line_true_false).1 line_true_false).
  { split; [|split; [done|]].
    - apply (bool_decide_unpack (NoDup _)). vm_compute. exact I.
    - repeat split; vm_compute; reflexivity. }
  split; [exact Hc|].
  destruct (@validation_drops_empty_pipelines sample_env _ _ Hc) as (h' & Hrun & _ & Hloop).
  { intros x [= <-]. reflexivity. }
  exists h'. split; [exact Hrun|exact Hloop].
Defined.

(** C2 on [lcd a b], which the builtin refuses. *)
Lemma builtin_fast_path_witness :
  ∃ s', @runPipeline sample_env lcd_too_many (sample_state []) = Ret tt s'
        ∧ os s' = os (sample_state [])
        ∧ log (me s') = [CallBuiltin "lcd" ["lcd"; "a"; "b"] 2;
                         Stderr ("Builtin lcd error." ++ nl)].
Proof.
  destruct (@builtin_fast_path sample_env lcd_too_many
              {| args := ["lcd"; "a"; "b"]; redirs := [] |} "lcd" ["a"; "b"]
              (λ argv, if decide (length argv ≤ 2)%nat then 0 else 2)
              (sample_state []) eq_refl eq_refl eq_refl) as [Hfast _].
  destruct (Hfast eq_refl ltac:(discriminate)) as (s' & Hrun & Hos & _ & Hlog).
  exists s'. split; [exact Hrun|]. split; [exact Hos|exact Hlog].
Defined.


(** C4 on [ls | cat] in the foreground. *)
Lemma general_path_blocks_notification_witness :
  ∃ s' rd0 mid,
    @general_path sample_env ls_cat false (sample_state []) = Ret tt s'
    ∧ log (me s') = [SysDup STDIN_FILENO (Some rd0)] ++ [BlockChildSignal]
                    ++ mid ++ [UnblockChildSignal]
    ∧ count is_unblock mid = 0%nat
    ∧ count is_fork mid = 2%nat.
Proof.
  destruct (@general_path_blocks_notification sample_env ls_cat false (sample_state [])
              Terminal Terminal (sample_no_faults []) ltac:(discriminate) eq_refl eq_refl)
    as (s' & rd0 & mid & Hrun & Hlog & _ & _ & Hub & Hfork & _).
  exists s', rd0, mid. split; [exact Hrun|]. split; [exact Hlog|]. split; [exact Hub|exact Hfork].
Defined.

(** C6 on [> a > b]: both files are made, standard output ends on [b]. *)
Lemma redirections_in_listed_order_witness :
  ∃ s' evs,
    @redirs_loop sample_env two_truncations (sample_child []) = Ret tt s'
    ∧ log (me s') = evs
    ∧ opens evs = [("a", [O_WRONLY; O_CREAT; O_TRUNC], 420);
                   ("b", [O_WRONLY; O_CREAT; O_TRUNC], 420)]
    ∧ fds (me s') !! STDOUT_FILENO = Some (File "b" [O_WRONLY; O_CREAT; O_TRUNC]).
Proof.
  destruct (@redirections_in_listed_order sample_env two_truncations (sample_child []))
    as [(s' & evs & Hrun & Hlog & Hopens & _ & Hfds) _].
  { intros n. reflexivity. }
  { repeat constructor; intros x Hx; vm_compute in Hx; discriminate. }
  exists s', evs. split; [exact Hrun|]. split; [exact Hlog|]. split; [exact Hopens|].
  exact (Hfds STDOUT_FILENO).
Defined.

(** C9 on the two pipelines left of ["true ; ; false"]. *)
Lemma pipelines_run_in_order_witness :
  ∃ s' seg1 seg2,
    @run_loop sample_env 2 (link line_true_then_false 1%nat) (Some 1%nat) (sample_state [])
    = Ret tt s'
    ∧ log (me s') = seg1 ++ seg2
    ∧ @ran sample_env (foreground_of [simple "true"]) seg1 (reaped (os s'))
    ∧ @ran sample_env (foreground_of [simple "false"]) seg2 (reaped (os s')).
Proof.
  assert (Hc : cycle (link line_true_then_false 1%nat) line_true_then_false).
  { split; [|split; [done|]].
    - apply (bool_decide_unpack (NoDup _)). vm_compute. exact I.
    - repeat split; vm_compute; reflexivity. }
  destruct (@pipelines_run_in_order sample_env _ _ (sample_state []) Terminal Terminal Hc)
    as (s' & segs & Hrun & Hlog & Hran & _).
  { repeat constructor; eexists; (split; [reflexivity|]); (split; [discriminate|]);
      repeat constructor; eexists; (split; [reflexivity|discriminate]). }
  { apply sample_no_faults. } { reflexivity. } { reflexivity. } { reflexivity. }
  assert (Hlen : length segs = 2%nat) by (symmetry; exact (Forall2_length _ _ _ Hran)).
  destruct segs as [|seg1 [|seg2 [|? ?]]]; try discriminate Hlen.
  apply Forall2_cons in Hran as [Hr1 Hran]. apply Forall2_cons in Hran as [Hr2 _].
  exists s', seg1, seg2. split; [exact Hrun|].
  split; [rewrite Hlog; simpl; by rewrite app_nil_r|]. split; [exact Hr1|exact Hr2].
Defined.

(** * More on validation *)

Section Relink.
Implicit Types (h : heap) (l : list (addr * option pipeline)).

(** The removal loop writes [next] fields only. *)
Lemma remove_loop_pipelines k :
  ∀ h prev curr num h' p' c' n',
    remove_loop k h prev curr num = Some (h', p', c', n') →
    (∀ a, ps_pipeline <$> h' !! a = ps_pipeline <$> h !! a)
    ∧ num - Z.of_nat k ≤ n' ≤ num.
Proof.
  induction k as [|k IH]; intros h prev curr num h' p' c' n' Hr.
  - simpl in Hr. injection Hr as <- _ _ <-. split; [done|]. lia.
  - simpl in Hr. destruct (h !! curr) as [cn|] eqn:Hc; [|done]. simpl in Hr.
    destruct (isEmptyPipeline (ps_pipeline cn)).
    + destruct (h !! prev) as [pn|] eqn:Hp; [|done]. simpl in Hr.
      apply IH in Hr as [Hpl Hn]. split; [|lia].
      intros a. rewrite Hpl. destruct (decide (a = prev)) as [->|Hne].
      * by rewrite lookup_insert_eq, Hp.
      * by rewrite lookup_insert_ne.
    + destruct (h !! prev) as [pn|] eqn:Hp; [|done]. simpl in Hr.
      apply IH in Hr as [Hpl Hn]. split; [done|lia].
Qed.

Lemma count_loop_bound fuel :
  ∀ h head curr n n' c',
    count_loop fuel h head curr n = Some (n', c') →
    n < n' ≤ n + Z.of_nat fuel ∧ c' = head.
Proof.
  induction fuel as [|fuel IH]; intros h head curr n n' c' Hr; [done|].
  simpl in Hr. destruct (h !! curr) as [node|]; [|done]. simpl in Hr.
  destruct (decide (ps_next node = head)) as [Heq|Hne].
  - injection Hr as <- <-. split; [lia|done].
  - apply IH in Hr as [Hn ->]. split; [lia|done].
Qed.

(** On a list with no empty pipeline the removal loop changes nothing. *)
Lemma remove_loop_clean e todo :
  ∀ h p num,
    chain h (p :: todo) e → Forall (λ x, isEmptyPipeline x.2 = false) todo →
    ∃ p', remove_loop (length todo) h p.1 (first_addr todo e) num = Some (h, p'.1, e, num)
          ∧ last (p :: todo) = Some p'.
Proof.
  induction todo as [|x todo IH]; intros h p num Hc Hall.
  - exists p. done.
  - apply Forall_cons in Hall as [Hx Hall].
    destruct Hc as (Hp & Hc). simpl in Hp.
    assert (Hx' := Hc). destruct Hx' as [Hx' _].
    simpl length. simpl remove_loop. simpl first_addr. rewrite Hx'. simpl.
    rewrite Hx, Hp. simpl.
    destruct (IH h x num Hc Hall) as (p' & Hr & Hl). exists p'. split; [done|].
    exact Hl.
Qed.

Lemma remove_loop_split k1 :
  ∀ k2 h p c n h1 p1 c1 n1,
    remove_loop k1 h p c n = Some (h1, p1, c1, n1) →
    remove_loop (k1 + k2) h p c n = remove_loop k2 h1 p1 c1 n1.
Proof.
  induction k1 as [|k1 IH]; intros k2 h0 p c n0 h1 p1 c1 n1 Hk.
  - simpl in Hk. by injection Hk as <- <- <- <-.
  - simpl in Hk |- *. destruct (h0 !! c) as [cn|]; [|done]. simpl in Hk |- *.
    destruct (isEmptyPipeline (ps_pipeline cn));
      (destruct (h0 !! p) as [pn|]; [|done]); simpl in Hk |- *; by apply IH.
Qed.

(** Validation of a list that has nothing to drop. *)
Lemma removeEmptyPipelines_clean h l :
  cycle h l → Forall (λ x, isEmptyPipeline x.2 = false) l →
  (∀ x, head l = Some x → has_null x.2 = false) →
  removeEmptyPipelines h (head_of l) = Some (h, head_of l, Z.of_nat (length l)).
Proof.
  intros (Hnd & Hne & Hc) Hall Hnull.
  destruct l as [|x todo]; [done|]. simpl in Hc.
  apply Forall_cons in Hall as [Hx Hall].
  change (head_of (x :: todo)) with (Some x.1). unfold removeEmptyPipelines.
  pose proof (count_loop_chain h x.1 (x :: todo) (size h) 0) as Hcount.
  simpl first_addr in Hcount. rewrite Hcount; cycle 1.
  { done. } { simpl. done. }
  { simpl. rewrite fmap_cons in Hnd. by apply NoDup_cons in Hnd as [? _]. }
  { apply chain_bound with x.1; [simpl; done|done]. }
  cbn [mbind option_bind]. rewrite Z.add_0_l, Nat2Z.id.
  destruct Hc as [Hx' Hc].
  assert (Hfind : find_loop (length (x :: todo)) h x.1 = Some x.1).
  { simpl. rewrite Hx'. simpl. by rewrite Hx. }
  rewrite Hfind. cbn [mbind option_bind]. rewrite Hx'. cbn [mbind option_bind ps_pipeline ps_next].
  rewrite Hx.
  destruct (remove_loop_clean x.1 todo h x (Z.of_nat (length (x :: todo))))
    as (p' & Hr & Hl); [simpl; done|done|].
  assert (Hp' : ∃ n, h !! p'.1 = Some {| ps_pipeline := p'.2; ps_next := n |}).
  { apply (chain_lookup h (x :: todo) x.1); [simpl; done|].
    destruct p'. by apply last_Some_elem_of in Hl. }
  destruct Hp' as [n Hp'].
  assert (Hrem : remove_loop (length (x :: todo)) h x.1 (first_addr todo x.1)
                   (Z.of_nat (length (x :: todo)))
                 = Some (h, n, first_addr todo x.1, Z.of_nat (length (x :: todo)))).
  { replace (length (x :: todo)) with (length todo + 1)%nat at 1 by (simpl; lia).
    rewrite (remove_loop_split _ 1%nat _ _ _ _ _ _ _ _ Hr).
    simpl remove_loop. rewrite Hx'. simpl. by rewrite Hx, Hp'. }
  rewrite Hrem. cbn [mbind option_bind]. rewrite Nat2Z.id.
  erewrite check_loop_ok; [|exact Hx'|done|by apply (Hnull x)].
  done.
Qed.

End Relink.

(** X1.  [removeEmptyPipelines] never touches a pipeline: whatever the shape
    of the list, the nodes are the same after the call, each with the
    pipeline it had; only [next] fields change. The count it returns is -1
    or lies between 0 and the number of nodes. *)
Theorem validation_only_relinks (h : heap) p h' p' n :
  removeEmptyPipelines h p = Some (h', p', n) →
  (∀ a, ps_pipeline <$> h' !! a = ps_pipeline <$> h !! a)
  ∧ dom h' = dom h
  ∧ -1 ≤ n ≤ Z.of_nat (size h).
Proof.
  intros Hr.
  assert (Hgoal : (∀ a, ps_pipeline <$> h' !! a = ps_pipeline <$> h !! a)
                  ∧ -1 ≤ n ≤ Z.of_nat (size h)).
  { unfold removeEmptyPipelines in Hr. destruct p as [head|].
    2:{ injection Hr as <- _ <-. split; [done|lia]. }
    destruct (count_loop (size h) h head head 0) as [[num curr]|] eqn:Hcount; [|done].
    apply count_loop_bound in Hcount as [Hnum _].
    cbn [mbind option_bind] in Hr.
    destruct (find_loop (Z.to_nat num) h curr) as [c|]; [|done].
    cbn [mbind option_bind] in Hr.
    destruct (h !! c) as [node|]; [|done]. cbn [mbind option_bind] in Hr.
    destruct (isEmptyPipeline (ps_pipeline node)).
    { injection Hr as <- _ <-. split; [done|lia]. }
    destruct (remove_loop (Z.to_nat num) h c (ps_next node) num)
      as [[[[h1 p1] c1] n1]|] eqn:Hrem; [|done].
    apply remove_loop_pipelines in Hrem as [Hpl Hn1].
    cbn [mbind option_bind] in Hr.
    destruct (check_loop (Z.to_nat n1) h1 c) as [[|]|]; [| |done];
      cbn [mbind option_bind] in Hr; injection Hr as <- _ <-; (split; [done|lia]). }
  destruct Hgoal as [Hpl Hn]. split; [done|]. split; [|done].
  apply set_eq. intros a. rewrite !elem_of_dom. specialize (Hpl a).
  destruct (h' !! a), (h !! a); simpl in Hpl; try done; split; intros [? ?]; done.
Qed.

(** X2.  Validating twice: a list that validation has left with [n > 0]
    pipelines is left as it is by a second call, which returns [n] again;
    but after a line of empty pipelines only, for which the call returns 0
    and the [NULL] list, a second call on that list returns the error -1. *)
Theorem validation_is_idempotent (h : heap) l h' p n :
  cycle h l → removeEmptyPipelines h (head_of l) = Some (h', p, n) →
  (0 < n → removeEmptyPipelines h' p = Some (h', p, n))
  ∧ (n = 0 → removeEmptyPipelines h' p = Some (h', None, -1)).
Proof.
  intros Hc Hr.
  destruct (removeEmptyPipelines_cycle h l Hc) as (h1 & Hr1 & Hcyc).
  rewrite Hr in Hr1. destruct (kept l) as [|x k] eqn:Hk.
  { injection Hr1 as -> -> ->. split; [lia|done]. }
  destruct (has_null x.2) eqn:Hnull.
  { injection Hr1 as -> -> ->. split; [lia|done]. }
  injection Hr1 as -> -> ->. split; [intros _|simpl; lia].
  specialize (Hcyc ltac:(done)).
  pose proof (kept_nonempty l) as Hne. rewrite Hk in Hne.
  apply (removeEmptyPipelines_clean h1 (x :: k) Hcyc Hne).
  by intros ? [= <-].
Qed.

Section SyntaxErrors.
Context `{Externals}.

(** X3.  A line whose first pipeline that is not entirely empty has an empty
    command slot: [removeEmptyPipelines] returns -1 with the list pointer
    set to [NULL], and [handleLine] prints the syntax error, starts no
    process and returns to the loop. *)
Theorem malformed_first_pipeline_is_rejected l x s s1 line e :
  getLine s = Ret (Some line, e) s1 → e ≠ Some EIO →
  cycle (parseline line).1 l → (parseline line).2 = head_of l →
  head (kept l) = Some x → has_null x.2 = true →
  (∃ h', removeEmptyPipelines (parseline line).1 (parseline line).2 = Some (h', None, -1))
  ∧ handleLine s
    = Ret tt {| me := emit (Stderr (SYNTAX_ERROR_STR ++ nl)) (me s1); os := os s1 |}.
Proof.
  intros Hg He Hc Hp Hx Hnull.
  destruct (removeEmptyPipelines_cycle _ l Hc) as (h' & Hr & _).
  rewrite <- Hp in Hr. destruct (kept l) as [|y k]; [done|].
  injection Hx as ->. rewrite Hnull in Hr.
  split; [by exists h'|].
  rewrite (handleLine_parsed s s1 line e Hg He), Hr. done.
Qed.

(** X4.  A line the reader could not read ([errno] is [EIO], whether or not
    a line came back) and a line for which the parser returns [NULL] are
    dealt with in the same way: the syntax error is printed, no process is
    started, and [handleLine] returns to the loop. In particular a malformed
    line that is the last thing of the input does not end the shell. *)
Theorem unparsed_line_is_a_syntax_error s l e s1 :
  getLine s = Ret (l, e) s1 →
  e = Some EIO ∨ (∃ line, l = Some line ∧ (parseline line).2 = None) →
  handleLine s
  = Ret tt {| me := emit (Stderr (SYNTAX_ERROR_STR ++ nl)) (me s1); os := os s1 |}.
Proof.
  intros Hg [->|(line & -> & Hp)].
  - unfold handleLine. erewrite bind_Ret by exact Hg. done.
  - destruct (decide (e = Some EIO)) as [->|He].
    + unfold handleLine. erewrite bind_Ret by exact Hg. done.
    + rewrite (handleLine_parsed s s1 line e Hg He), Hp. done.
Qed.

End SyntaxErrors.

(** On ["true ; ; false"]: the pipelines of the three nodes are the same
    after validation. *)
Lemma validation_only_relinks_witness :
  ∃ h', removeEmptyPipelines (parsed line_true_false).1 (parsed line_true_false).2
        = Some (h', Some 1%nat, 2)
        ∧ ps_pipeline <$> h' !! 2%nat = Some (foreground_of [None])
        ∧ dom h' = dom (parsed line_true_false).1.
Proof.
  eexists. split; [vm_compute; reflexivity|].
  match goal with
  | |- ps_pipeline <$> ?h' !! _ = _ ∧ _ =>
      destruct (validation_only_relinks (parsed line_true_false).1
                  (parsed line_true_false).2 h' (Some 1%nat) 2) as (Hpl & Hdom & _)
  end.
  { vm_compute. reflexivity. }
  split; [|exact Hdom]. rewrite Hpl. vm_compute. reflexivity.
Defined.

(** On ["true ; ; false"]: the second validation finds the two pipelines
    the first has left. *)
Lemma validation_is_idempotent_witness :
  ∃ h', removeEmptyPipelines (parsed line_true_false).1 (head_of line_true_false)
        = Some (h', Some 1%nat, 2)
        ∧ removeEmptyPipelines h' (Some 1%nat) = Some (h', Some 1%nat, 2).
Proof.
  assert (Hc : cycle (parsed line_true_false).1 line_true_false).
  { split; [|split; [done|]].
    - apply (bool_decide_unpack (NoDup _)). vm_compute. exact I.
    - repeat split; vm_compute; reflexivity. }
  eexists. split; [vm_compute; reflexivity|].
  match goal with
  | |- removeEmptyPipelines ?h' _ = _ =>
      apply (validation_is_idempotent _ _ h' (Some 1%nat) 2 Hc); [vm_compute; reflexivity|lia]
  end.
Defined.

(** On ["cmd1 | | cmd2"]. *)
Lemma malformed_first_pipeline_is_rejected_witness :
  @handleLine sample_env (sample_state ["cmd1 | | cmd2"])
  = Ret tt {| me := emit (Stderr ("Syntax error." ++ nl))
                      (emit (GetLine (Some "cmd1 | | cmd2") None) sample_proc);
              os := sample_world [] |}.
Proof.
  assert (Hc : cycle (parsed line_malformed).1 line_malformed).
  { split; [|split; [done|]].
    - apply (bool_decide_unpack (NoDup _)). vm_compute. exact I.
    - repeat split; vm_compute; reflexivity. }
  apply (@malformed_first_pipeline_is_rejected sample_env line_malformed
           (1%nat, foreground_of [simple "cmd1"; None; simple "cmd2"])
           (sample_state ["cmd1 | | cmd2"]) _ "cmd1 | | cmd2" None eq_refl
           ltac:(discriminate) Hc eq_refl eq_refl eq_refl).
Defined.

(** At the end of the input, after a line the reader could not read. *)
Lemma unparsed_line_is_a_syntax_error_witness :
  @handleLine sample_env sample_state_eio
  = Ret tt {| me := emit (Stderr ("Syntax error." ++ nl))
                      (emit (GetLine None (Some EIO)) sample_proc);
              os := sample_world [] |}.
Proof.
  apply (@unparsed_line_is_a_syntax_error sample_env sample_state_eio None (Some EIO) _
           eq_refl).
  by left.
Defined.

(** * More on the dispatch of a pipeline *)

Section LoneBuiltin.
Context `{Externals}.

(** X5.  The fast path is for a lone builtin only. A pipeline of two or more
    commands, and a single command whose name is no builtin, take the
    general path; when no system call fails the shell forks once per command
    and calls no builtin handler, even where a name of the pipeline is a
    registered builtin. *)
Theorem only_a_lone_builtin_skips_fork pl s :
  valid_pipeline (Some pl) →
  (2 ≤ length (commands pl))%nat
  ∨ (∃ com name, commands pl = [Some com] ∧ head (args com) = Some name
                 ∧ getBuiltin name = None) →
  runPipeline pl s
  = general_path (commands pl) (bool_decide (flags pl = INBACKGROUND)) s
  ∧ (no_faults (os s) → is_Some (fds (me s) !! STDIN_FILENO) →
     is_Some (fds (me s) !! STDOUT_FILENO) →
     ∃ s' evs chs,
       runPipeline pl s = Ret tt s'
       ∧ log (me s') = log (me s) ++ evs
       ∧ count is_fork evs = length (commands pl)
       ∧ count is_builtin evs = 0%nat
       ∧ procs (os s') = procs (os s) ++ chs
       ∧ length chs = length (commands pl)).
Proof.
  intros Hv Hcase.
  assert (Hg : runPipeline pl s
               = general_path (commands pl) (bool_decide (flags pl = INBACKGROUND)) s).
  { apply runPipeline_general; [done|].
    intros com name rest Hc Ha _ _. destruct Hcase as [Hlen|(com' & name' & Hc' & Hh & Hb)].
    - rewrite Hc in Hlen. simpl in Hlen. lia.
    - rewrite Hc in Hc'. injection Hc' as <-. rewrite Ha in Hh. by injection Hh as <-. }
  split; [done|]. intros Hn [i0 H0] [o1 H1]. rewrite Hg.
  destruct Hv as (? & [= <-] & Hne & _).
  destruct (general_path_ok (commands pl) (bool_decide (flags pl = INBACKGROUND)) s i0 o1
              Hn Hne H0 H1)
    as (s' & rd0 & sts & chs & Hrun & _ & _ & _ & Hlog & _ & Hlen & _ & _ & _ & Hprocs
        & Hpids & _).
  eexists s', _, chs. split; [done|]. split; [exact Hlog|].
  assert (Hw : ∀ (f : call → bool) (bg : bool) ps,
             f (WaitForForegroundChildren ps) = false →
             count f (if bg then [] else [WaitForForegroundChildren ps]) = 0%nat).
  { intros f bg ps Hf. destruct bg; [done|]. by rewrite count_cons, Hf. }
  split.
  { rewrite !count_app, !count_cons, !count_nil, count_stages_fork, Hw by done.
    simpl. lia. }
  split.
  { rewrite !count_app, !count_cons, !count_nil, count_stages_none, Hw by done. done. }
  split; [done|].
  rewrite <- Hlen, <- (length_map c_pid chs), Hpids. by rewrite length_map.
Qed.

End LoneBuiltin.

(** On [lcd | cat]: the name [lcd] is a builtin of the sample environment,
    and yet the shell forks twice and calls no handler. *)
Lemma only_a_lone_builtin_skips_fork_witness :
  ∃ s' evs chs,
    @runPipeline sample_env lcd_cat (sample_state []) = Ret tt s'
    ∧ log (me s') = evs
    ∧ count is_fork evs = 2%nat
    ∧ count is_builtin evs = 0%nat
    ∧ procs (os s') = chs
    ∧ length chs = 2%nat.
Proof.
  destruct (@only_a_lone_builtin_skips_fork sample_env lcd_cat (sample_state []))
    as [_ Hfork].
  { eexists. split; [reflexivity|]. split; [discriminate|].
    repeat constructor; eexists; (split; [reflexivity|discriminate]). }
  { left. simpl. lia. }
  destruct Hfork as (s' & evs & chs & Hrun & Hlog & Hf & Hb & Hp & Hl).
  { intros n. reflexivity. } { by eexists. } { by eexists. }
  exists s', evs, chs. split; [exact Hrun|]. split; [exact Hlog|].
  split; [exact Hf|]. split; [exact Hb|]. split; [exact Hp|exact Hl].
Defined.

(** * Failures of the shell's own calls *)

Lemma fatal_bind {A B} (m : M A) (k : A → M B) :
  fatal m → (∀ a, fatal (k a)) → fatal (bind m k).
Proof.
  intros Hm Hk s. unfold bind. specialize (Hm s).
  destruct (m s) as [a s1|st s1|fl a s1|s1]; try done.
  destruct Hm as (ev1 & Hl1 & Hq1). simpl in Hl1.
  specialize (Hk a s1). destruct (k a s1) as [b s2|st s2|fl b s2|s2]; simpl in *.
  - destruct Hk as (ev2 & Hl2 & Hq2). exists (ev1 ++ ev2).
    split; [by rewrite Hl2, Hl1, <- (assoc_L (++))|rewrite count_app; lia].
  - destruct Hk as (-> & ev2 & f & d & Hl2 & Hq2 & Hf). split; [done|].
    exists (ev1 ++ ev2), f, d.
    split; [by rewrite Hl2, Hl1, <- !(assoc_L (++))|]. split; [rewrite count_app; lia|done].
  - destruct Hk as (ev2 & Hl2 & Hq2). exists (ev1 ++ ev2).
    split; [by rewrite Hl2, Hl1, <- (assoc_L (++))|rewrite count_app; lia].
  - destruct Hk as (ev2 & Hl2 & Hq2). exists (ev1 ++ ev2).
    split; [by rewrite Hl2, Hl1, <- (assoc_L (++))|rewrite count_app; lia].
Qed.

Lemma fatal_ret {A} (a : A) : fatal (ret a).
Proof. intros s. exists []. by rewrite app_nil_r. Qed.

Lemma fatal_fault {A} : fatal (@fault A).
Proof. intros s. exists []. by rewrite app_nil_r. Qed.

Lemma fatal_deref {A} (o : option A) : fatal (deref o).
Proof. destruct o; [apply fatal_ret|apply fatal_fault]. Qed.

(** A step that makes one call which cannot fail. *)
Lemma fatal_step {A} (m : M A) :
  (∀ s, ∃ a c s', m s = Ret a s' ∧ log (me s') = log (me s) ++ [c] ∧ is_failure c = false) →
  fatal m.
Proof.
  intros Hm s. destruct (Hm s) as (a & c & s' & -> & Hl & Hc).
  exists [c]. split; [done|]. by rewrite count_cons, Hc.
Qed.

Lemma fatal_emitM c : is_failure c = false → fatal (emitM c).
Proof. intros Hc. apply fatal_step. intros s. by eexists tt, c, _. Qed.

Lemma fatal_block : fatal blockChildSignal.
Proof. apply fatal_step. intros s. by eexists tt, _, _. Qed.

Lemma fatal_unblock : fatal unblockChildSignal.
Proof. apply fatal_step. intros s. by eexists tt, _, _. Qed.

Lemma fatal_register p : fatal (registerForegroundChild p).
Proof. apply fatal_step. intros s. by eexists tt, _, _. Qed.

Lemma fatal_wait : fatal waitForForegroundChildren.
Proof. apply fatal_step. intros s. by eexists tt, _, _. Qed.

(** A call that may fail, followed by the check of its result: [perror]
    and [exit] on failure. *)
Lemma fatal_checked {X A} (m : M (option X)) (k : X → M A) msg :
  (∀ s, ∃ c s', log (me s') = log (me s) ++ [c]
                ∧ ((m s = Ret None s' ∧ resource_failure c (Perror msg))
                   ∨ (∃ x, m s = Ret (Some x) s' ∧ is_failure c = false))) →
  (∀ x, fatal (k x)) →
  fatal (r <- m;;
         match r with
         | None => emitM (Perror msg);; sys_exit EXIT_FAILURE
         | Some x => k x
         end).
Proof.
  intros Hm Hk s. unfold bind at 1.
  destruct (Hm s) as (c & s1 & Hl & [[-> Hf]|(x & -> & Hc)]).
  - simpl. split; [done|]. exists [], c, (Perror msg). simpl. rewrite Hl.
    split; [by rewrite <- !(assoc_L (++))|done].
  - specialize (Hk x s1). destruct (k x s1) as [b s2|st s2|fl b s2|s2]; simpl in *.
    + destruct Hk as (ev & Hl2 & Hq). exists (c :: ev).
      split; [by rewrite Hl2, Hl, <- (assoc_L (++))|by rewrite count_cons, Hc].
    + destruct Hk as (-> & ev & f & d & Hl2 & Hq & Hf). split; [done|].
      exists (c :: ev), f, d.
      split; [by rewrite Hl2, Hl, <- !(assoc_L (++))|]. by rewrite count_cons, Hc.
    + destruct Hk as (ev & Hl2 & Hq). exists (c :: ev).
      split; [by rewrite Hl2, Hl, <- (assoc_L (++))|by rewrite count_cons, Hc].
    + destruct Hk as (ev & Hl2 & Hq). exists (c :: ev).
      split; [by rewrite Hl2, Hl, <- (assoc_L (++))|by rewrite count_cons, Hc].
Qed.

Lemma fatal_closeFileDescriptor fd : fatal (closeFileDescriptor fd).
Proof.
  intros s. unfold closeFileDescriptor, bind, sys_close.
  destruct (if faulty (os s) then None else fds (me s) !! fd); simpl.
  - exists [SysClose fd true]. done.
  - split; [done|]. exists [], (SysClose fd false), (Perror "close() failed").
    split; [by rewrite <- !(assoc_L (++))|]. split; [done|]. constructor.
Qed.

Section Fatal.
Context `{Externals}.

Lemma fatal_runCommand com rd pf bg : fatal (runCommand com rd pf bg).
Proof.
  unfold runCommand. apply fatal_bind; [by apply fatal_emitM|intros _].
  apply (fatal_checked
           (sys_fork (runCommand_child com rd pf bg))
           (λ p, if negb bg then registerForegroundChild p else ret tt)
           ("fork() failed" ++ nl)).
  - intros s. unfold sys_fork. destruct (faulty (os s)).
    + eexists _, _. split; [|left; split; [reflexivity|constructor]]. done.
    + destruct (ending_of _) as [e sc].
      eexists _, _. split; [|right; eexists; split; [reflexivity|]]; done.
  - intros p. destruct bg; [apply fatal_ret|apply fatal_register].
Qed.

Lemma fatal_builtin_path c n bg : fatal (builtin_path c n bg).
Proof.
  unfold builtin_path.
  repeat first
    [ apply fatal_ret
    | apply fatal_deref
    | apply fatal_emitM; reflexivity
    | apply fatal_bind; [|intros ?]
    | match goal with
      | |- fatal (if ?b then _ else _) => destruct b
      | |- fatal (match ?x with _ => _ end) => destruct x
      end ].
Qed.

Lemma fatal_stage_loop cs : ∀ rd bg, fatal (stage_loop cs rd bg).
Proof.
  induction cs as [|c cs IH]; intros rd bg; simpl; [apply fatal_ret|].
  apply (fatal_checked sys_pipe
           (λ pipe_fds, runCommand c rd (Some pipe_fds) bg;;
                        closeFileDescriptor rd;;
                        closeFileDescriptor pipe_fds.2;;
                        stage_loop cs pipe_fds.1 bg)
           "pipe() failed").
  - intros s. unfold sys_pipe. destruct (faulty (os s)).
    + eexists _, _. split; [|left; split; [reflexivity|constructor]]. done.
    + eexists _, _. split; [|right; eexists; split; [reflexivity|]]; done.
  - intros pf. apply fatal_bind; [apply fatal_runCommand|intros _].
    apply fatal_bind; [apply fatal_closeFileDescriptor|intros _].
    apply fatal_bind; [apply fatal_closeFileDescriptor|intros _]. apply IH.
Qed.

Lemma fatal_general_path cs bg : fatal (general_path cs bg).
Proof.
  unfold general_path.
  apply (fatal_checked (sys_dup STDIN_FILENO)
           (λ read_fd, blockChildSignal;;
                       read_fd <- stage_loop (removelast cs) read_fd bg;;
                       c <- deref (last cs);;
                       runCommand c read_fd None bg;;
                       closeFileDescriptor read_fd;;
                       (if negb bg then waitForForegroundChildren else ret tt);;
                       unblockChildSignal)
           "dup() failed").
  - intros s. unfold sys_dup.
    destruct (if faulty (os s) then None else fds (me s) !! STDIN_FILENO).
    + eexists _, _. split; [|right; eexists; split; [reflexivity|]]; done.
    + eexists _, _. split; [|left; split; [reflexivity|constructor]]. done.
  - intros rd0. apply fatal_bind; [apply fatal_block|intros _].
    apply fatal_bind; [apply fatal_stage_loop|intros rd].
    apply fatal_bind; [apply fatal_deref|intros c].
    apply fatal_bind; [apply fatal_runCommand|intros _].
    apply fatal_bind; [apply fatal_closeFileDescriptor|intros _].
    apply fatal_bind; [destruct bg; [apply fatal_ret|apply fatal_wait]|intros _].
    apply fatal_unblock.
Qed.

Lemma fatal_runPipeline pl : fatal (runPipeline pl).
Proof.
  unfold runPipeline. destruct (commands pl) as [|c cs]; [apply fatal_fault|].
  apply fatal_bind; [apply fatal_builtin_path|intros done_].
  destruct done_; [apply fatal_ret|apply fatal_general_path].
Qed.

Lemma fatal_run_loop k : ∀ h p, fatal (run_loop k h p).
Proof.
  induction k as [|k IH]; intros h p; simpl; [apply fatal_ret|].
  apply fatal_bind; [apply fatal_deref|intros a].
  apply fatal_bind; [apply fatal_deref|intros node].
  apply fatal_bind; [apply fatal_deref|intros pl].
  apply fatal_bind; [apply fatal_runPipeline|intros _]. apply IH.
Qed.

(** X6.  The shell never goes on after one of its own calls has failed.
    Whatever the pipeline and the state, [runPipeline] either exits with
    [EXIT_FAILURE], its last three steps being the first call that failed
    ([dup], [pipe], [fork] or [close]), the [perror] that names it and the
    exit, or none of its calls has failed; and so for the loop of
    [handleLine] over a whole line. *)
Theorem shell_stops_at_its_first_failed_call :
  (∀ pl, fatal (runPipeline pl)) ∧ (∀ k h p, fatal (run_loop k h p)).
Proof. split; [apply fatal_runPipeline|intros; apply fatal_run_loop]. Qed.

(** X7.  A shell that cannot duplicate its standard input, because the call
    fails or because the descriptor is closed, exits at the first pipeline
    that takes the general path: it prints the [perror] line for [dup] and
    exits with [EXIT_FAILURE] before any pipe or process is made. *)
Theorem no_standard_input_ends_the_shell cs bg s :
  faulty (os s) = true ∨ fds (me s) !! STDIN_FILENO = None →
  general_path cs bg s
  = Exit EXIT_FAILURE
      {| me := emit (SysExit EXIT_FAILURE)
                 (emit (Perror "dup() failed") (emit (SysDup STDIN_FILENO None) (me s)));
         os := tick (os s) |}.
Proof.
  intros Hf. unfold general_path, bind, sys_dup.
  assert (Hn : (if faulty (os s) then None else fds (me s) !! STDIN_FILENO) = None).
  { destruct Hf as [->| ->]; [done|]. by destruct (faulty _). }
  by rewrite Hn.
Qed.

End Fatal.

(** On the sample shell with its standard input closed, asked to run
    [ls | cat]. *)
Lemma no_standard_input_ends_the_shell_witness :
  ∃ s', @general_path sample_env ls_cat false sample_state_no_stdin = Exit EXIT_FAILURE s'
        ∧ log (me s') = [SysDup STDIN_FILENO None; Perror "dup() failed";
                         SysExit EXIT_FAILURE]
        ∧ procs (os s') = [].
Proof.
  eexists. split.
  - apply (@no_standard_input_ends_the_shell sample_env ls_cat false sample_state_no_stdin).
    right. reflexivity.
  - done.
Defined.

(** * The shape of the shell's own log *)

Lemma built_nil B : built B [].
Proof. by exists []. Qed.

Lemma built_app B l1 l2 : built B l1 → built B l2 → built B (l1 ++ l2).
Proof.
  intros (b1 & -> & H1) (b2 & -> & H2). exists (b1 ++ b2).
  split; [by rewrite concat_app|by apply Forall_app].
Qed.

Lemma built_block (B : list call → Prop) l : B l → built B l.
Proof. intros Hl. exists [l]. split; [simpl; by rewrite app_nil_r|by constructor]. Qed.

Lemma built_Forall (B : list call → Prop) (Q : call → Prop) evs :
  (∀ b, B b → Forall Q b) → built B evs → Forall Q evs.
Proof.
  intros HB (bs & -> & Hbs). induction Hbs as [|b bs Hb _ IH]; [done|].
  simpl. apply Forall_app. split; [by apply HB|done].
Qed.

Lemma preceded_nil is_x pre : preceded is_x pre [].
Proof. intros a c b Heq. by destruct a. Qed.

Lemma preceded_app is_x pre l1 l2 :
  preceded is_x pre l1 → preceded is_x pre l2 → preceded is_x pre (l1 ++ l2).
Proof.
  intros H1 H2 a c b Heq Hx.
  apply app_eq_inv in Heq as [(k & Hl1 & Hk)|(k & Ha & Hl2)].
  - destruct k as [|c' k].
    + simpl in Hk. rewrite app_nil_r in Hl1. subst a.
      destruct (H2 [] c b) as [a' Ha']; [done..|].
      exists (l1 ++ a'). by rewrite <- (assoc_L (++)), <- Ha', app_nil_r.
    + injection Hk as <- _. by apply (H1 a c k).
  - destruct (H2 k c b Hl2 Hx) as [a' ->]. exists (l1 ++ a').
    by rewrite Ha, <- (assoc_L (++)).
Qed.

Lemma built_preceded (B : list call → Prop) is_x pre evs :
  (∀ b, B b → preceded is_x pre b) → built B evs → preceded is_x pre evs.
Proof.
  intros HB (bs & -> & Hbs). induction Hbs as [|b bs Hb _ IH]; [apply preceded_nil|].
  simpl. apply preceded_app; [by apply HB|done].
Qed.

Section Emits.
Variable P : list call → Prop.
Hypothesis P_nil : P [].
Hypothesis P_app : ∀ l1 l2, P l1 → P l2 → P (l1 ++ l2).

Lemma emits_ret {A} (a : A) : emits P (ret a).
Proof. intros s. exists []. by rewrite app_nil_r. Qed.

Lemma emits_fault {A} : emits P (@fault A).
Proof. intros s. exists []. by rewrite app_nil_r. Qed.

Lemma emits_deref {A} (o : option A) : emits P (deref o).
Proof. destruct o; [apply emits_ret|apply emits_fault]. Qed.

Lemma emits_bind {A B} (m : M A) (k : A → M B) :
  emits P m → (∀ a, emits P (k a)) → emits P (bind m k).
Proof.
  intros Hm Hk s. unfold bind. specialize (Hm s).
  destruct (m s) as [a s1|st s1|fl a s1|s1]; try done.
  destruct Hm as (ev1 & Hl1 & H1). simpl in Hl1.
  destruct (Hk a s1) as (ev2 & Hl2 & H2). exists (ev1 ++ ev2).
  split; [by rewrite Hl2, Hl1, <- (assoc_L (++))|by apply P_app].
Qed.

(** A step that always returns, having added [evs] to the log. *)
Lemma emits_steps {A B} (m : M A) (k : A → M B) :
  (∀ s, ∃ a s' evs, m s = Ret a s' ∧ log (me s') = log (me s) ++ evs
                    ∧ ∀ rest, P rest → P (evs ++ rest)) →
  (∀ a, emits P (k a)) → emits P (bind m k).
Proof.
  intros Hm Hk s. unfold bind. destruct (Hm s) as (a & s1 & ev1 & -> & Hl1 & H1).
  destruct (Hk a s1) as (ev2 & Hl2 & H2). exists (ev1 ++ ev2).
  split; [by rewrite Hl2, Hl1, <- (assoc_L (++))|by apply H1].
Qed.

End Emits.

Section Shape.
Context `{Externals}.
Variable tty : bool.

Lemma shaped_bind {A B} (m : M A) (k : A → M B) :
  shaped tty m → (∀ a, shaped tty (k a)) → shaped tty (bind m k).
Proof. apply emits_bind. apply built_app. Qed.

(** A primitive that adds one call of the shell's own to the log. *)
Lemma shaped_call {A} (m : M A) :
  (∀ s, ∃ c, log (me (state_of (m s))) = log (me s) ++ [c] ∧ shell_call c = true) →
  shaped tty m.
Proof.
  intros Hm s. destruct (Hm s) as (c & Hl & Hc). exists [c]. split; [done|].
  apply built_block. by constructor.
Qed.

Lemma shaped_emitM c : shell_call c = true → shaped tty (emitM c).
Proof. intros Hc. apply shaped_call. intros s. by exists c. Qed.

Lemma shaped_sys_exit {A} st : shaped tty (@sys_exit A st).
Proof. apply shaped_call. intros s. by eexists. Qed.

Lemma shaped_sys_dup fd : shaped tty (sys_dup fd).
Proof.
  apply shaped_call. intros s. unfold sys_dup.
  destruct (if faulty (os s) then None else fds (me s) !! fd); by eexists.
Qed.

Lemma shaped_sys_close fd : shaped tty (sys_close fd).
Proof.
  apply shaped_call. intros s. unfold sys_close.
  destruct (if faulty (os s) then None else fds (me s) !! fd); by eexists.
Qed.

Lemma shaped_sys_pipe : shaped tty sys_pipe.
Proof. apply shaped_call. intros s. unfold sys_pipe. destruct (faulty (os s)); by eexists. Qed.

Lemma shaped_block : shaped tty blockChildSignal.
Proof. apply shaped_call. intros s. by eexists. Qed.

Lemma shaped_unblock : shaped tty unblockChildSignal.
Proof. apply shaped_call. intros s. by eexists. Qed.

Lemma shaped_register p : shaped tty (registerForegroundChild p).
Proof. apply shaped_call. intros s. by eexists. Qed.

Lemma shaped_wait : shaped tty waitForForegroundChildren.
Proof. apply shaped_call. intros s. by eexists. Qed.

Ltac shaped_go :=
  repeat first
    [ apply emits_ret; apply built_nil
    | apply emits_fault; apply built_nil
    | apply emits_deref; apply built_nil
    | apply shaped_sys_exit
    | apply shaped_emitM; reflexivity
    | apply shaped_sys_dup | apply shaped_sys_close | apply shaped_sys_pipe
    | apply shaped_block | apply shaped_unblock | apply shaped_register
    | apply shaped_wait
    | apply shaped_bind; [|intros ?]
    | match goal with
      | |- emits _ (if ?b then _ else _) => destruct b
      | |- emits _ (match ?x with _ => _ end) => destruct x
      end
    | assumption ].

Lemma shaped_closeFileDescriptor fd : shaped tty (closeFileDescriptor fd).
Proof. unfold closeFileDescriptor. shaped_go. Qed.

(** [fflush] and [fork] make one block; the child's calls go to the log
    of the child. *)
Lemma shaped_runCommand com rd pf bg : shaped tty (runCommand com rd pf bg).
Proof.
  unfold runCommand. intros s. unfold bind at 1. simpl. unfold bind at 1.
  set (s0 := {| me := emit Fflush (me s); os := os s |}).
  assert (Hfork : ∃ r s1, sys_fork (runCommand_child com rd pf bg) s0 = Ret r s1
                          ∧ log (me s1) = log (me s) ++ [Fflush; SysFork r]).
  { unfold sys_fork. destruct (faulty (os s0)).
    - eexists _, _. split; [done|]. simpl. by rewrite <- (assoc_L (++)).
    - destruct (ending_of _) as [e sc]. eexists _, _. split; [done|].
      simpl. by rewrite <- (assoc_L (++)). }
  destruct Hfork as (r & s1 & -> & Hl1).
  assert (Hk : shaped tty (match r with
                       | Some p => if negb bg then registerForegroundChild p else ret tt
                       | None => emitM (Perror ("fork() failed" ++ nl));;
                                 sys_exit EXIT_FAILURE
                       end)) by shaped_go.
  destruct (Hk s1) as (ev2 & Hl2 & H2). exists ([Fflush; SysFork r] ++ ev2).
  split; [by rewrite Hl2, Hl1, <- (assoc_L (++))|].
  apply built_app; [|done]. apply built_block. constructor.
Qed.

Lemma shaped_builtin_path c n bg : shaped tty (builtin_path c n bg).
Proof. unfold builtin_path. shaped_go. Qed.

Lemma shaped_stage_loop cs : ∀ rd bg, shaped tty (stage_loop cs rd bg).
Proof.
  induction cs as [|c cs IH]; intros rd bg; simpl; [shaped_go|].
  apply shaped_bind; [apply shaped_sys_pipe|intros [pf|]]; [|shaped_go].
  apply shaped_bind; [apply shaped_runCommand|intros _].
  apply shaped_bind; [apply shaped_closeFileDescriptor|intros _].
  apply shaped_bind; [apply shaped_closeFileDescriptor|intros _]. apply IH.
Qed.

Lemma shaped_general_path cs bg : shaped tty (general_path cs bg).
Proof.
  unfold general_path.
  apply shaped_bind; [apply shaped_sys_dup|intros [rd0|]]; [|shaped_go].
  apply shaped_bind; [apply shaped_block|intros _].
  apply shaped_bind; [apply shaped_stage_loop|intros rd].
  apply shaped_bind; [shaped_go|intros c].
  apply shaped_bind; [apply shaped_runCommand|intros _].
  apply shaped_bind; [apply shaped_closeFileDescriptor|intros _].
  shaped_go.
Qed.

Lemma shaped_runPipeline pl : shaped tty (runPipeline pl).
Proof.
  unfold runPipeline. destruct (commands pl) as [|c cs]; [shaped_go|].
  apply shaped_bind; [apply shaped_builtin_path|intros [|]]; [shaped_go|].
  apply shaped_general_path.
Qed.

Lemma shaped_run_loop k : ∀ h p, shaped tty (run_loop k h p).
Proof.
  induction k as [|k IH]; intros h p; simpl; [shaped_go|].
  apply shaped_bind; [shaped_go|intros a].
  apply shaped_bind; [shaped_go|intros node].
  apply shaped_bind; [shaped_go|intros pl].
  apply shaped_bind; [apply shaped_runPipeline|intros _]. apply IH.
Qed.

(** What [handleLine] does with the line it has read. *)
Lemma shaped_after_getLine (r : option string * option errno_t) :
  shaped tty (if bool_decide (r.2 = Some EIO) then emitM (Stderr (SYNTAX_ERROR_STR ++ nl))
          else match r.1 with
               | None => sys_exit EXIT_SUCCESS
               | Some line =>
                   match removeEmptyPipelines (parseline line).1 (parseline line).2 with
                   | None => fault
                   | Some (h, pipelines, count) =>
                       if bool_decide (count = -1)
                       then emitM (Stderr (SYNTAX_ERROR_STR ++ nl))
                       else run_loop (Z.to_nat count) h pipelines
                   end
               end).
Proof.
  destruct (bool_decide (r.2 = Some EIO)); [shaped_go|].
  destruct r.1 as [line|]; [|shaped_go].
  destruct (removeEmptyPipelines _ _) as [[[h p] c]|]; [|shaped_go].
  destruct (bool_decide (c = -1)); [shaped_go|]. apply shaped_run_loop.
Qed.

Lemma getLine_step s :
  ∃ r s', getLine s = Ret r s' ∧ log (me s') = log (me s) ++ [GetLine r.1 r.2].
Proof.
  unfold getLine. destruct (input (os s)) as [|[l e] rest]; by eexists _, _.
Qed.

(** One turn of the loop of [main]. *)
Lemma shaped_turn :
  shaped tty ((if tty
           then printBackgroundChildrenInfo;; emitM (Printf PROMPT_STR);; emitM Fflush
           else ret tt);;
          handleLine).
Proof.
  intros s. unfold bind at 1.
  set (prompt := if tty then [PrintBackgroundChildrenInfo; Printf PROMPT_STR; Fflush]
                 else []).
  assert (Hp : ∃ s0, (if tty
                      then printBackgroundChildrenInfo;; emitM (Printf PROMPT_STR);;
                           emitM Fflush
                      else ret tt) s = Ret tt s0
                     ∧ log (me s0) = log (me s) ++ prompt).
  { subst prompt. destruct tty.
    - eexists. split; [reflexivity|]. simpl. by rewrite <- !(assoc_L (++)).
    - exists s. split; [done|]. by rewrite app_nil_r. }
  destruct Hp as (s0 & -> & Hl0). unfold handleLine, bind at 1.
  destruct (getLine_step s0) as (r & s1 & -> & Hl1).
  destruct (shaped_after_getLine r s1) as (ev & Hl & Hev).
  exists ((prompt ++ [GetLine r.1 r.2]) ++ ev).
  split; [by rewrite Hl, Hl1, Hl0, <- !(assoc_L (++))|].
  apply built_app; [|done]. apply built_block. subst prompt.
  destruct tty eqn:Htty; simpl; by constructor.
Qed.

Lemma bind_assoc {A B C} (m : M A) (k1 : A → M B) (k2 : B → M C) s :
  bind (bind m k1) k2 s = bind m (λ a, bind (k1 a) k2) s.
Proof. unfold bind. by destruct (m s). Qed.

Lemma shaped_main_loop fuel : shaped tty (main_loop fuel tty).
Proof.
  induction fuel as [|fuel IH]; simpl; [apply emits_ret, built_nil|].
  intros s. rewrite <- bind_assoc. revert s.
  apply shaped_bind; [apply shaped_turn|done].
Qed.

End Shape.

Section ShapeOfMain.
Context `{Externals}.

Lemma count_built (B : list call → Prop) f g n evs :
  (∀ b, B b → count f b = (n * count g b)%nat) → built B evs →
  count f evs = (n * count g evs)%nat.
Proof.
  intros HB (bs & -> & Hbs). induction Hbs as [|b bs Hb _ IH]; [simpl; unfold count; simpl; lia|].
  simpl. unfold count in *. rewrite !List.filter_app, !length_app. rewrite IH, (HB b) by done.
  lia.
Qed.

(** [main] installs its two handlers and then turns in its loop. *)
Lemma main_shape fuel s :
  ∃ evs,
    log (me (state_of (main fuel s)))
    = log (me s)
      ++ [SysSigaction SIGINT {| sa_handler := SIG_IGN; sa_flags := [] |};
          SysSigaction SIGCHLD {| sa_handler := SigHandler "sigchldHandler";
                                  sa_flags := [SA_NOCLDSTOP; SA_RESTART] |}]
      ++ evs
    ∧ built (shell_block (bool_decide (fds (me s) !! STDIN_FILENO = Some Terminal))) evs.
Proof.
  set (tty := bool_decide (fds (me s) !! STDIN_FILENO = Some Terminal)).
  assert (Hm : ∃ s0, main fuel s = main_loop fuel tty s0
                     ∧ log (me s0)
                       = log (me s)
                         ++ [SysSigaction SIGINT {| sa_handler := SIG_IGN; sa_flags := [] |};
                             SysSigaction SIGCHLD
                               {| sa_handler := SigHandler "sigchldHandler";
                                  sa_flags := [SA_NOCLDSTOP; SA_RESTART] |}]).
  { eexists. split; [reflexivity|]. simpl. by rewrite <- (assoc_L (++)). }
  destruct Hm as (s0 & -> & Hl0).
  destruct (shaped_main_loop tty fuel s0) as (evs & Hl & Hev).
  exists evs. split; [by rewrite Hl, Hl0, <- (assoc_L (++))|done].
Qed.

(** X8.  Every [fork] of the shell comes right after an [fflush] of its
    standard output, through any run of [main] and whatever fails: the
    [fflush] that the comment in [runCommand] asks for is never skipped. *)
Theorem every_fork_follows_a_flush fuel s :
  ∃ evs, log (me (state_of (main fuel s))) = log (me s) ++ evs
         ∧ preceded is_fork_call [Fflush] evs.
Proof.
  destruct (main_shape fuel s) as (evs & Hl & Hev).
  eexists. split; [exact Hl|].
  apply preceded_app.
  { intros a c b Heq Hc. destruct a as [|? [|? [|? ?]]]; simplify_eq/=. }
  eapply built_preceded; [|exact Hev].
  intros b [c Hc|r|l e _|l e _] a x b' Heq Hx.
  - destruct a as [|? [|? ?]]; simplify_eq/=. by destruct x.
  - destruct a as [|? [|? [|? ?]]]; simplify_eq/=. by exists [].
  - destruct a as [|? [|? ?]]; simplify_eq/=.
  - destruct a as [|? [|? [|? [|? [|? ?]]]]]; simplify_eq/=.
Qed.

(** X9.  The shell's own process never makes the calls of the child's branch
    of [runCommand]: after the two [sigaction] calls that open [main] it
    never calls [sigaction], [setsid], [dup2], [open] or [execvp], whatever
    the lines and whatever fails. Its own dispositions and standard streams
    are not rewired while it runs. *)
Theorem shell_makes_no_child_call fuel s :
  ∃ evs,
    log (me (state_of (main fuel s)))
    = log (me s)
      ++ [SysSigaction SIGINT {| sa_handler := SIG_IGN; sa_flags := [] |};
          SysSigaction SIGCHLD {| sa_handler := SigHandler "sigchldHandler";
                                  sa_flags := [SA_NOCLDSTOP; SA_RESTART] |}]
      ++ evs
    ∧ Forall (λ c, child_call c = false) evs.
Proof.
  destruct (main_shape fuel s) as (evs & Hl & Hev).
  exists evs. split; [exact Hl|].
  eapply built_Forall; [|exact Hev].
  intros b [c Hc|r|l e _|l e _]; repeat constructor. by destruct c.
Qed.

(** X10.  The prompt belongs to a terminal. When standard input is a
    terminal every reading of a line comes right after the report on
    background children, the prompt and its [fflush], and the report is made
    as many times as a line is read: never while a pipeline runs. When
    standard input is no terminal the shell prints neither. *)
Theorem prompt_only_on_a_terminal fuel s :
  ∃ evs,
    log (me (state_of (main fuel s))) = log (me s) ++ evs
    ∧ if bool_decide (fds (me s) !! STDIN_FILENO = Some Terminal)
      then preceded is_read [PrintBackgroundChildrenInfo; Printf PROMPT_STR; Fflush] evs
           ∧ count is_prompt evs = (2 * count is_read evs)%nat
      else Forall (λ c, is_prompt c = false) evs.
Proof.
  destruct (main_shape fuel s) as (evs & Hl & Hev).
  eexists. split; [exact Hl|].
  destruct (bool_decide (fds (me s) !! STDIN_FILENO = Some Terminal)).
  - split.
    + apply preceded_app.
      { intros a c b Heq Hc. destruct a as [|? [|? [|? ?]]]; simplify_eq/=. }
      eapply built_preceded; [|exact Hev].
      intros b [c Hc|r|l e ?|l e _] a x b' Heq Hx; [| |done|].
      * destruct a as [|? [|? ?]]; simplify_eq/=. by destruct x.
      * destruct a as [|? [|? [|? ?]]]; simplify_eq/=.
      * destruct a as [|? [|? [|? [|? [|? ?]]]]]; simplify_eq/=. by exists [].
    + assert (Hc : count is_prompt evs = (2 * count is_read evs)%nat).
      { eapply count_built; [|exact Hev].
        intros b [c Hc|r|l e ?|l e _]; [|done|done|done]. by destruct c. }
      unfold count in *. rewrite !List.filter_app, !length_app. simpl. lia.
  - apply Forall_app. split; [by repeat constructor|].
    eapply built_Forall; [|exact Hev].
    intros b [c Hc|r|l e _|l e ?]; [| | |done]; repeat constructor. by destruct c.
Qed.

End ShapeOfMain.

(** * More on the launched child *)

Lemma bind_inv_Exec {A B} (m : M A) (k : A → M B) s f a s' :
  bind m k s = Exec f a s' →
  m s = Exec f a s' ∨ ∃ x s1, m s = Ret x s1 ∧ k x s1 = Exec f a s'.
Proof.
  unfold bind. destruct (m s) eqn:E; intros Hk; try discriminate.
  - right. by eexists _, _.
  - left. by inversion Hk.
Qed.

Lemma never_execs_bind {A B} (m : M A) (k : A → M B) :
  never_execs m → (∀ a, never_execs (k a)) → never_execs (bind m k).
Proof.
  intros Hm Hk s f a s' Hr. apply bind_inv_Exec in Hr as [Hr|(x & s1 & _ & Hr)].
  - by apply Hm in Hr.
  - by apply Hk in Hr.
Qed.

Lemma never_execs_ret {A} (a : A) : never_execs (ret a).
Proof. by intros s f x s'. Qed.

Lemma never_execs_fault {A} : never_execs (@fault A).
Proof. by intros s f x s'. Qed.

Lemma never_execs_deref {A} (o : option A) : never_execs (deref o).
Proof. destruct o; [apply never_execs_ret|apply never_execs_fault]. Qed.

Ltac prim_never_execs := intros ? ? ? ?; simpl; repeat case_match; discriminate.

Lemma never_execs_emitM c : never_execs (emitM c).
Proof. prim_never_execs. Qed.
Lemma never_execs_sys_exit {A} st : never_execs (@sys_exit A st).
Proof. prim_never_execs. Qed.
Lemma never_execs_sys_close fd : never_execs (sys_close fd).
Proof. unfold sys_close. prim_never_execs. Qed.
Lemma never_execs_sys_dup2 a b : never_execs (sys_dup2 a b).
Proof. unfold sys_dup2. prim_never_execs. Qed.
Lemma never_execs_sys_open p fl m : never_execs (sys_open p fl m).
Proof. unfold sys_open. prim_never_execs. Qed.

Ltac never_execs_go :=
  repeat first
    [ apply never_execs_ret | apply never_execs_fault | apply never_execs_deref
    | apply never_execs_emitM | apply never_execs_sys_exit | apply never_execs_sys_close
    | apply never_execs_sys_dup2 | apply never_execs_sys_open
    | apply never_execs_bind; [|intros ?]
    | match goal with
      | |- never_execs (if ?b then _ else _) => destruct b
      | |- never_execs (match ?x with _ => _ end) => destruct x
      end
    | assumption ].

Lemma never_execs_closeFileDescriptor fd : never_execs (closeFileDescriptor fd).
Proof. unfold closeFileDescriptor. never_execs_go. Qed.

Lemma never_execs_moveFileDescriptor from to : never_execs (moveFileDescriptor from to).
Proof.
  unfold moveFileDescriptor. destruct (decide (from = to)); [never_execs_go|].
  apply never_execs_bind; [never_execs_go|intros [|]]; [|never_execs_go].
  apply never_execs_closeFileDescriptor.
Qed.

Lemma never_execs_openFile n fl m : never_execs (openFile n fl m).
Proof. unfold openFile. never_execs_go. Qed.


Lemma no_exec_bind {A B} (m : M A) (k : A → M B) :
  no_exec m → (∀ a, no_exec (k a)) → no_exec (bind m k).
Proof. apply emits_bind. intros l1 l2 H1 H2. by apply Forall_app. Qed.

Ltac prim_no_exec :=
  intros s; simpl; repeat case_match; simpl;
  first [ exists []; split; [by rewrite app_nil_r|constructor]
        | eexists [_]; split; [reflexivity|by repeat constructor] ].

Lemma no_exec_ret {A} (a : A) : no_exec (ret a).
Proof. prim_no_exec. Qed.
Lemma no_exec_emitM c : is_exec c = false → no_exec (emitM c).
Proof. intros Hc. prim_no_exec. Qed.
Lemma no_exec_sys_exit {A} st : no_exec (@sys_exit A st).
Proof. prim_no_exec. Qed.
Lemma no_exec_sys_close fd : no_exec (sys_close fd).
Proof. unfold sys_close. prim_no_exec. Qed.
Lemma no_exec_sys_dup2 a b : no_exec (sys_dup2 a b).
Proof. unfold sys_dup2. prim_no_exec. Qed.
Lemma no_exec_sys_open p fl m : no_exec (sys_open p fl m).
Proof. unfold sys_open. prim_no_exec. Qed.

Ltac no_exec_go :=
  repeat first
    [ apply no_exec_ret | apply no_exec_emitM; reflexivity | apply no_exec_sys_exit
    | apply no_exec_sys_close | apply no_exec_sys_dup2 | apply no_exec_sys_open
    | apply no_exec_bind; [|intros ?]
    | match goal with
      | |- emits _ (if ?b then _ else _) => destruct b
      | |- emits _ (match ?x with _ => _ end) => destruct x
      end
    | assumption ].

Lemma no_exec_moveFileDescriptor from to : no_exec (moveFileDescriptor from to).
Proof. unfold moveFileDescriptor, closeFileDescriptor. no_exec_go. Qed.

Lemma no_exec_openFile n fl m : no_exec (openFile n fl m).
Proof. unfold openFile. no_exec_go. Qed.

(** Opening a file for reading leaves the file system alone. *)
Lemma open_fs_rdonly f path mode : (open_fs f path [O_RDONLY] mode).2 = f.
Proof.
  assert (Hno : ∀ o, o ≠ O_RDONLY → bool_decide (o ∈ [O_RDONLY]) = false).
  { intros o Ho. apply bool_decide_eq_false_2. by intros ?%list_elem_of_singleton. }
  unfold open_fs. destruct (f !! path) as [x|].
  - rewrite (Hno O_WRONLY), (Hno O_TRUNC) by done. by destruct (readable x).
  - by rewrite (Hno O_CREAT).
Qed.

Ltac prim_keeps_fs := intros s; unfold keeps; simpl; repeat case_match; reflexivity.

Lemma keeps_fs_emitM c : keeps_fs (emitM c).
Proof. prim_keeps_fs. Qed.
Lemma keeps_fs_sys_exit {A} st : keeps_fs (@sys_exit A st).
Proof. prim_keeps_fs. Qed.
Lemma keeps_fs_sys_close fd : keeps_fs (sys_close fd).
Proof. unfold sys_close. prim_keeps_fs. Qed.
Lemma keeps_fs_sys_dup2 a b : keeps_fs (sys_dup2 a b).
Proof. unfold sys_dup2. prim_keeps_fs. Qed.
Lemma keeps_fs_sys_open_rdonly p m : keeps_fs (sys_open p [O_RDONLY] m).
Proof.
  intros s. unfold keeps, sys_open. destruct (faulty (os s)); [done|].
  pose proof (open_fs_rdonly (fs (tick (os s))) p m) as Hf.
  destruct (open_fs _ _ _ _) as [[e|] f']; simpl in *; [done|]. by subst f'.
Qed.

Lemma keeps_fs_moveFileDescriptor from to : keeps_fs (moveFileDescriptor from to).
Proof.
  unfold moveFileDescriptor, closeFileDescriptor.
  repeat first
    [ apply stable_ret; apply _
    | apply keeps_fs_emitM | apply keeps_fs_sys_exit | apply keeps_fs_sys_close
    | apply keeps_fs_sys_dup2
    | apply stable_bind; [apply _| |intros ?]
    | match goal with
      | |- stable _ (if ?b then _ else _) => destruct b
      end ].
Qed.

Lemma keeps_fs_openFile_rdonly n m : keeps_fs (openFile n [O_RDONLY] m).
Proof.
  unfold openFile.
  apply stable_bind; [apply _|apply keeps_fs_sys_open_rdonly|intros [e|fd]].
  - apply stable_bind; [apply _| |intros ?; apply keeps_fs_sys_exit].
    destruct e; apply keeps_fs_emitM.
  - apply stable_ret; apply _.
Qed.

Section ChildExec.
Context `{Externals}.

Lemma never_execs_addRedirs r : never_execs (addRedirs r).
Proof.
  rewrite addRedirs_direction. destruct (direction_of r); [|never_execs_go].
  apply never_execs_bind; [apply never_execs_openFile|intros fd].
  apply never_execs_moveFileDescriptor.
Qed.

Lemma never_execs_redirs_loop rs : never_execs (redirs_loop rs).
Proof.
  induction rs as [|r rs IH]; simpl; [never_execs_go|].
  apply never_execs_bind; [apply never_execs_addRedirs|done].
Qed.

Lemma never_execs_child_wire rd pf : never_execs (child_wire rd pf).
Proof.
  unfold child_wire.
  apply never_execs_bind; [apply never_execs_moveFileDescriptor|intros _].
  destruct pf as [[r w]|]; [|never_execs_go].
  apply never_execs_bind; [apply never_execs_moveFileDescriptor|intros _].
  apply never_execs_closeFileDescriptor.
Qed.

Lemma frozen_programs s s' : frozen s' = frozen s → programs (os s') = programs (os s).
Proof. unfold frozen, world_fixed. intros Hf. by injection Hf. Qed.

(** X11.  The program a child runs is the one its command names. A child
    made by [runCommand] that ends up running a program runs the first
    argument of its command, found executable on the search path, with the
    whole argument list of the command as [argv], and [execvp] is the last
    thing it has done. *)
Theorem only_the_named_program_is_run com rd pf bg s f a s' :
  runCommand_child com rd pf bg s = Exec f a s' →
  ∃ c, com = Some c ∧ a = args c ∧ head (args c) = Some f
       ∧ programs (os s) !! f = Some true
       ∧ last (log (me s')) = Some (SysExecvp f a None).
Proof.
  rewrite runCommand_child_eq. intros Hr.
  set (s0 := {| me := after_signals bg (me s); os := os s |}) in *.
  apply bind_inv_Exec in Hr as [Hr|([] & s1 & Hw & Hr)];
    [by apply never_execs_child_wire in Hr|].
  pose proof (child_wire_frozen rd pf s0) as Hf1. rewrite Hw in Hf1.
  unfold child_exec in Hr.
  apply bind_inv_Exec in Hr as [Hr|(c & sa & Hc & Hr)];
    [by apply never_execs_deref in Hr|].
  destruct com as [c'|]; [|done]. injection Hc as -> <-.
  apply bind_inv_Exec in Hr as [Hr|([] & s2 & Hrs & Hr)];
    [by apply never_execs_redirs_loop in Hr|].
  pose proof (redirs_loop_frozen (redirs c) s1) as Hf2. rewrite Hrs in Hf2.
  apply bind_inv_Exec in Hr as [Hr|(name & sb & Hn & Hr)];
    [by apply never_execs_deref in Hr|].
  destruct (args c) as [|n0 rest] eqn:Ha; [done|]. injection Hn as -> <-.
  apply bind_inv_Exec in Hr as [Hr|(argv & sc & Hv & Hr)];
    [by apply never_execs_deref in Hr|].
  unfold getArgVector in Hv. rewrite Ha in Hv. injection Hv as <- <-.
  apply bind_inv_Exec in Hr as [Hr|(e & sd & _ & Hr)].
  2:{ exfalso. revert Hr. apply never_execs_bind; [|intros _; apply never_execs_sys_exit].
      destruct e; apply never_execs_emitM. }
  exists c. rewrite Ha. unfold sys_execvp in Hr.
  destruct (faulty (os s2)); [done|].
  destruct (programs (tick (os s2)) !! name) as [[|]|] eqn:Hp; [|done..].
  injection Hr as <- <- <-. split; [done|]. split; [done|]. split; [done|]. split.
  - simpl in Hp. unfold keeps in Hf1, Hf2. simpl in Hf1, Hf2.
    rewrite (frozen_programs _ _ Hf2), (frozen_programs _ _ Hf1) in Hp. done.
  - simpl. by rewrite last_snoc.
Qed.

(** [child_exec] when every redirection can be made and the program is on
    the search path. *)
Lemma child_exec_ok c name rest s :
  no_faults (os s) → Forall (redirectable (fs (os s))) (redirs c) →
  args c = name :: rest → programs (os s) !! name = Some true →
  ∃ s', child_exec (Some c) s = Exec name (name :: rest) s'
        ∧ fs (os s') = foldl redirect_fs (fs (os s)) (redirs c)
        ∧ (∀ fd, fds (me s') !! fd = match last (onto fd (redirs c)) with
                                     | Some r => opened r
                                     | None => fds (me s) !! fd
                                     end)
        ∧ opens (log (me s')) = opens (log (me s)) ++ omap request (redirs c).
Proof.
  intros Hn Hred Ha Hp. unfold child_exec.
  erewrite bind_Ret by reflexivity. cbv beta iota.
  destruct (redirs_loop_ok (redirs c) s Hn Hred)
    as (s1 & evs & Hrun & Hn1 & Hlog & Hopens & _ & Hfs & Hfds).
  erewrite bind_Ret by exact Hrun. cbv beta iota.
  rewrite Ha. simpl head. erewrite bind_Ret by reflexivity. cbv beta iota.
  unfold getArgVector. rewrite Ha. erewrite bind_Ret by reflexivity. cbv beta iota.
  unfold bind, sys_execvp. rewrite (no_faults_faulty _ Hn1). simpl.
  pose proof (redirs_loop_frozen (redirs c) s) as Hfr. rewrite Hrun in Hfr.
  unfold keeps in Hfr. simpl in Hfr. rewrite (frozen_programs _ _ Hfr), Hp.
  eexists. split; [done|]. simpl. split; [done|]. split; [done|].
  rewrite Hlog, !opens_app, Hopens. simpl. by rewrite app_nil_r.
Qed.

(** X12.  A child whose redirections can all be made and whose program is on
    the search path runs that program, with the arguments of the command,
    after all its redirections: the file system and the descriptors the
    program starts with are those the redirections leave. *)
Theorem child_runs_the_program_after_its_redirections c name rest s :
  no_faults (os s) → Forall (redirectable (fs (os s))) (redirs c) →
  args c = name :: rest → programs (os s) !! name = Some true →
  ∃ s', child_exec (Some c) s = Exec name (name :: rest) s'
        ∧ fs (os s') = foldl redirect_fs (fs (os s)) (redirs c)
        ∧ (∀ fd, fds (me s') !! fd = match last (onto fd (redirs c)) with
                                     | Some r => opened r
                                     | None => fds (me s) !! fd
                                     end)
        ∧ opens (log (me s')) = opens (log (me s)) ++ omap request (redirs c).
Proof. apply child_exec_ok. Qed.

Lemma no_exec_redirs_loop rs : no_exec (redirs_loop rs).
Proof.
  induction rs as [|r rs IH]; simpl; [apply no_exec_ret|].
  apply no_exec_bind; [|done]. rewrite addRedirs_direction.
  destruct (direction_of r); [|apply no_exec_ret].
  apply no_exec_bind; [apply no_exec_openFile|intros fd; apply no_exec_moveFileDescriptor].
Qed.

Lemma input_redirection_keeps_fs r :
  direction_of r = Some Input → keeps_fs (addRedirs r).
Proof.
  intros Hd. rewrite addRedirs_direction, Hd. simpl.
  apply stable_bind; [apply _|apply keeps_fs_openFile_rdonly|intros fd].
  apply keeps_fs_moveFileDescriptor.
Qed.

(** X13.  A redirection that fails stops the child there. When the
    redirections before an input redirection can be made and its target is
    missing once they are made, the child exits with [EXIT_FAILURE] after
    the diagnostic that names the target: the redirections before it have
    been made, those after it have not (their targets are neither opened nor
    created nor emptied), and [execvp] is never called. *)
Theorem failed_redirection_stops_the_child c rs1 r rs2 s :
  no_faults (os s) → redirs c = rs1 ++ r :: rs2 →
  Forall (redirectable (fs (os s))) rs1 →
  direction_of r = Some Input →
  foldl redirect_fs (fs (os s)) rs1 !! filename r = None →
  ∃ s' evs,
    child_exec (Some c) s = Exit EXIT_FAILURE s'
    ∧ log (me s')
      = log (me s) ++ evs
        ++ [SysOpen (filename r) [O_RDONLY] 0 (inl ENOENT);
            Stderr (filename r ++ ": no such file or directory" ++ nl);
            SysExit EXIT_FAILURE]
    ∧ opens evs = omap request rs1
    ∧ count is_exec evs = 0%nat
    ∧ fs (os s') = foldl redirect_fs (fs (os s)) rs1.
Proof.
  intros Hn Hrs Hred Hd Hmiss. unfold child_exec.
  erewrite bind_Ret by reflexivity. cbv beta iota. rewrite Hrs.
  destruct (redirs_loop_ok rs1 s Hn Hred)
    as (s1 & evs & Hrun & Hn1 & Hlog & Hopens & _ & Hfs & _).
  destruct (addRedirs_input_missing r s1 Hn1 Hd) as (s2 & Hexit & Hlog2 & _).
  { by rewrite Hfs. }
  assert (Hloop : redirs_loop (rs1 ++ r :: rs2) s = Exit EXIT_FAILURE s2).
  { clear Hlog Hopens Hfs Hred Hmiss Hn Hrs. revert s Hrun.
    induction rs1 as [|r1 rs1 IH]; intros s Hrun.
    - injection Hrun as ->. simpl. by rewrite (bind_Exit _ _ _ _ _ Hexit).
    - simpl in Hrun |- *. apply bind_inv_Ret in Hrun as ([] & sa & Ha & Hrun).
      erewrite bind_Ret by exact Ha. by apply IH. }
  rewrite (bind_Exit _ _ _ _ _ Hloop).
  exists s2, evs. split; [done|]. split; [by rewrite Hlog2, Hlog, <- (assoc_L (++))|].
  split; [done|]. split.
  - destruct (no_exec_redirs_loop rs1 s) as (evs' & Hl' & Hev). rewrite Hrun in Hl'.
    simpl in Hl'. rewrite Hlog in Hl'. apply app_inv_head in Hl' as <-.
    clear -Hev. induction Hev as [|x l Hx _ IH]; [done|].
    unfold count in *. simpl. by rewrite Hx.
  - pose proof (input_redirection_keeps_fs r Hd s1) as Hk. rewrite Hexit in Hk.
    unfold keeps in Hk. simpl in Hk. by rewrite Hk.
Qed.

End ChildExec.

(** * Moving a descriptor *)

(** X14.  [moveFileDescriptor from to]. When the two numbers are the same it
    does nothing at all, whether or not the descriptor is open. When they
    differ and [from] is open, [to] ends up referring to what [from]
    referred to and [from] is closed, in this order: [dup2], [close]. When
    they differ and [from] is not open the process exits with [EXIT_FAILURE]
    after the [perror] line for [dup2], its descriptors untouched. *)
Theorem moveFileDescriptor_moves from to s :
  no_faults (os s) →
  (from = to → moveFileDescriptor from to s = Ret tt s)
  ∧ (from ≠ to →
     match fds (me s) !! from with
     | Some o =>
         ∃ s', moveFileDescriptor from to s = Ret tt s'
               ∧ fds (me s') = <[to := o]> (delete from (fds (me s)))
               ∧ log (me s') = log (me s) ++ [SysDup2 from to true; SysClose from true]
     | None =>
         ∃ s', moveFileDescriptor from to s = Exit EXIT_FAILURE s'
               ∧ fds (me s') = fds (me s)
               ∧ log (me s') = log (me s) ++ [SysDup2 from to false;
                                              Perror "dup2() failed";
                                              SysExit EXIT_FAILURE]
     end).
Proof.
  intros Hn. split.
  - intros ->. unfold moveFileDescriptor. by rewrite decide_True.
  - intros Hne. destruct (fds (me s) !! from) as [o|] eqn:Ho.
    + destruct (moveFileDescriptor_ok s from to o Hn Ho) as (s' & Hrun & Hfds & Hlog & _).
      exists s'. split; [done|]. split; [done|]. by rewrite decide_False in Hlog.
    + unfold moveFileDescriptor. rewrite decide_False by done.
      unfold bind, sys_dup2. rewrite (no_faults_faulty _ Hn), Ho. simpl.
      eexists. split; [done|]. simpl. split; [done|]. by rewrite <- !(assoc_L (++)).
Qed.

(** The sample child moves its descriptor 3 onto standard input. *)
Lemma moveFileDescriptor_moves_witness :
  ∃ s', moveFileDescriptor 3%nat STDIN_FILENO (sample_child []) = Ret tt s'
        ∧ fds (me s') !! 3%nat = None
        ∧ fds (me s') !! STDIN_FILENO = Some Terminal
        ∧ log (me s') = [SysDup2 3%nat STDIN_FILENO true; SysClose 3%nat true].
Proof.
  destruct (moveFileDescriptor_moves 3%nat STDIN_FILENO (sample_child [])) as [_ Hmv].
  { intros n. reflexivity. }
  specialize (Hmv ltac:(discriminate)).
  change (fds (me (sample_child [])) !! 3%nat) with (Some Terminal) in Hmv.
  destruct Hmv as (s' & Hrun & Hfds & Hlog).
  exists s'. split; [exact Hrun|]. rewrite Hfds. split; [|split; [|exact Hlog]].
  - vm_compute. reflexivity.
  - vm_compute. reflexivity.
Defined.

(** The sample child told to run [cat -n < notes > out]. *)
Lemma only_the_named_program_is_run_witness :
  ∃ s', @runCommand_child sample_env (Some cat_notes_out) 3%nat None false (sample_child [])
        = Exec "cat" ["cat"; "-n"] s'
        ∧ programs (os (sample_child [])) !! "cat" = Some true
        ∧ last (log (me s')) = Some (SysExecvp "cat" ["cat"; "-n"] None).
Proof.
  assert (Hrun : ∃ s', @runCommand_child sample_env (Some cat_notes_out) 3%nat None false
                         (sample_child []) = Exec "cat" ["cat"; "-n"] s').
  { eexists. vm_compute. reflexivity. }
  destruct Hrun as [s' Hrun].
  destruct (@only_the_named_program_is_run sample_env _ _ _ _ _ _ _ _ Hrun)
    as (c & Hc & Ha & _ & Hp & Hl).
  exists s'. split; [exact Hrun|]. split; [exact Hp|exact Hl].
Defined.

Lemma child_runs_the_program_after_its_redirections_witness :
  ∃ s', @child_exec sample_env (Some cat_notes_out) (sample_child [])
        = Exec "cat" ["cat"; "-n"] s'
        ∧ fds (me s') !! STDIN_FILENO = Some (File "notes" [O_RDONLY])
        ∧ fds (me s') !! STDOUT_FILENO = Some (File "out" [O_WRONLY; O_CREAT; O_TRUNC])
        ∧ is_Some (fs (os s') !! "out").
Proof.
  destruct (@child_runs_the_program_after_its_redirections sample_env cat_notes_out
              "cat" ["-n"] (sample_child [])) as (s' & Hrun & Hfs & Hfds & _).
  { intros n. reflexivity. }
  { repeat constructor.
    - eexists. split; [vm_compute; reflexivity|reflexivity].
    - intros x Hx. vm_compute in Hx. discriminate Hx. }
  { reflexivity. } { vm_compute. reflexivity. }
  exists s'. split; [exact Hrun|]. rewrite !Hfds, Hfs.
  split; [reflexivity|]. split; [reflexivity|]. vm_compute. by eexists.
Defined.

(** The sample child told to run [cat > a < missing > b]: [a] is made,
    [b] is not. *)
Lemma failed_redirection_stops_the_child_witness :
  ∃ s', @child_exec sample_env (Some cat_a_missing_b) (sample_child [])
        = Exit EXIT_FAILURE s'
        ∧ is_Some (fs (os s') !! "a") ∧ fs (os s') !! "b" = None
        ∧ count is_exec (log (me s')) = 0%nat.
Proof.
  destruct (@failed_redirection_stops_the_child sample_env cat_a_missing_b
              [{| filename := "a"; rflags := 2 |}] {| filename := "missing"; rflags := 1 |}
              [{| filename := "b"; rflags := 2 |}] (sample_child []))
    as (s' & evs & Hrun & Hlog & _ & Hex & Hfs).
  { intros n. reflexivity. } { reflexivity. }
  { repeat constructor. intros x Hx. vm_compute in Hx. discriminate Hx. }
  { reflexivity. } { vm_compute. reflexivity. }
  exists s'. split; [exact Hrun|]. rewrite Hfs, Hlog.
  split; [vm_compute; by eexists|]. split; [vm_compute; reflexivity|].
  unfold count in *. rewrite !List.filter_app, !length_app, Hex. reflexivity.
Defined.

(** * The shell between two lines *)

(** What a call that has returned has done to the descriptors. *)
Lemma sys_dup_ret fd n s s' :
  sys_dup fd s = Ret (Some n) s' →
  ∃ o, fds (me s') = <[n := o]> (fds (me s)) ∧ fds (me s) !! n = None
       ∧ chld_blocked (me s') = chld_blocked (me s)
       ∧ foreground (me s') = foreground (me s).
Proof.
  unfold sys_dup. destruct (if faulty (os s) then None else fds (me s) !! fd) as [o|];
    [|done].
  intros [= <- <-]. exists o. split; [done|]. split; [apply lowest_free_fresh|done].
Qed.

Lemma sys_pipe_ret r w s s' :
  sys_pipe s = Ret (Some (r, w)) s' →
  ∃ k, fds (me s') = <[w := PipeW k]> (<[r := PipeR k]> (fds (me s)))
       ∧ fds (me s) !! r = None ∧ fds (me s) !! w = None ∧ r ≠ w
       ∧ chld_blocked (me s') = chld_blocked (me s)
       ∧ foreground (me s') = foreground (me s).
Proof.
  unfold sys_pipe. destruct (faulty (os s)); [done|].
  intros [= <- <- <-]. eexists. split; [done|].
  set (T := fds (me s)). set (r := lowest_free T).
  pose proof (lowest_free_fresh T) as Hr. fold r in Hr.
  pose proof (lowest_free_fresh (<[r := PipeR (next_pipe (tick (os s)))]> T)) as Hw.
  split; [done|].
  destruct (decide (r = lowest_free (<[r := PipeR (next_pipe (tick (os s)))]> T)))
    as [Heq|Hne].
  { rewrite <- Heq in Hw. by rewrite lookup_insert_eq in Hw. }
  rewrite lookup_insert_ne in Hw by done. done.
Qed.

Lemma closeFileDescriptor_ret fd s s' :
  closeFileDescriptor fd s = Ret tt s' →
  fds (me s') = delete fd (fds (me s))
  ∧ chld_blocked (me s') = chld_blocked (me s)
  ∧ foreground (me s') = foreground (me s).
Proof.
  unfold closeFileDescriptor, bind, sys_close.
  destruct (if faulty (os s) then None else fds (me s) !! fd); [|done].
  by intros [= <-].
Qed.

Section Between.
Context `{Externals}.

Lemma runCommand_ret com rd pf bg s s' :
  runCommand com rd pf bg s = Ret tt s' →
  fds (me s') = fds (me s)
  ∧ chld_blocked (me s') = chld_blocked (me s)
  ∧ (bg = true → foreground (me s') = foreground (me s)).
Proof.
  unfold runCommand. unfold bind at 1. simpl. unfold bind, sys_fork. simpl.
  destruct (faulty (os s)); [done|].
  destruct (ending_of _) as [e sc]. destruct bg; simpl; by intros [= <-].
Qed.

Lemma stage_loop_ret bg (T : gmap nat fobj) cs :
  ∀ rd o s rd' s',
    stage_loop cs rd bg s = Ret rd' s' →
    fds (me s) = <[rd := o]> T → T !! rd = None →
    (∃ o', fds (me s') = <[rd' := o']> T) ∧ T !! rd' = None
    ∧ chld_blocked (me s') = chld_blocked (me s)
    ∧ (bg = true → foreground (me s') = foreground (me s)).
Proof.
  induction cs as [|c cs IH]; intros rd o s rd' s' Hr Hfds Hrd.
  - injection Hr as <- <-. eauto.
  - simpl in Hr. apply bind_inv_Ret in Hr as ([[r w]|] & s1 & Hp & Hr).
    2:{ apply bind_inv_Ret in Hr as (? & ? & _ & Hr). done. }
    apply sys_pipe_ret in Hp as (k & Hf1 & Hr1 & Hw1 & Hrw & Hb1 & Hg1).
    apply bind_inv_Ret in Hr as ([] & s2 & Hc & Hr).
    apply runCommand_ret in Hc as (Hf2 & Hb2 & Hg2).
    apply bind_inv_Ret in Hr as ([] & s3 & Hc1 & Hr).
    apply closeFileDescriptor_ret in Hc1 as (Hf3 & Hb3 & Hg3).
    apply bind_inv_Ret in Hr as ([] & s4 & Hc2 & Hr).
    apply closeFileDescriptor_ret in Hc2 as (Hf4 & Hb4 & Hg4).
    simpl in Hr, Hf4.
    rewrite Hfds in Hr1, Hw1.
    assert (r ≠ rd) by (intros ->; by rewrite lookup_insert_eq in Hr1).
    assert (w ≠ rd) by (intros ->; by rewrite lookup_insert_eq in Hw1).
    rewrite lookup_insert_ne in Hr1, Hw1 by done.
    destruct (IH r (PipeR k) s4 rd' s' Hr) as (Ho' & Hrd' & Hb & Hg); [|done|].
    { rewrite Hf4, Hf3, Hf2, Hf1, Hfds. map_solve. }
    split; [done|]. split; [done|]. split; [congruence|].
    intros Hbg. rewrite (Hg Hbg), Hg4, Hg3, (Hg2 Hbg). done.
Qed.

Lemma general_path_ret cs bg s s' :
  general_path cs bg s = Ret tt s' →
  fds (me s') = fds (me s)
  ∧ chld_blocked (me s') = false
  ∧ foreground (me s') = (if bg then foreground (me s) else []).
Proof.
  unfold general_path. intros Hr.
  apply bind_inv_Ret in Hr as ([rd0|] & s1 & Hd & Hr).
  2:{ apply bind_inv_Ret in Hr as (? & ? & _ & Hr). done. }
  apply sys_dup_ret in Hd as (o & Hf1 & Hrd0 & Hb1 & Hg1).
  apply bind_inv_Ret in Hr as ([] & s2 & Hbl & Hr). injection Hbl as <-.
  apply bind_inv_Ret in Hr as (rd & s3 & Hst & Hr).
  apply (stage_loop_ret bg (fds (me s)) _ rd0 o) in Hst as ([o' Hf3] & Hrd & _ & Hg3);
    [|done|done].
  apply bind_inv_Ret in Hr as (c & s4 & Hc & Hr).
  destruct (last cs) as [c'|]; [|done]. injection Hc as -> <-.
  apply bind_inv_Ret in Hr as ([] & s5 & Hc & Hr).
  apply runCommand_ret in Hc as (Hf5 & _ & Hg5).
  apply bind_inv_Ret in Hr as ([] & s6 & Hc & Hr).
  apply closeFileDescriptor_ret in Hc as (Hf6 & _ & Hg6).
  apply bind_inv_Ret in Hr as ([] & s7 & Hw & Hr).
  injection Hr as <-. simpl. split; [|split; [done|]].
  - assert (fds (me s7) = fds (me s6)) as ->.
    { destruct bg; simpl in Hw; by injection Hw as <-. }
    rewrite Hf6, Hf5, Hf3. by rewrite delete_insert_eq, delete_id.
  - destruct bg; simpl in Hw; injection Hw as <-; simpl; [|done].
    rewrite Hg6, (Hg5 eq_refl), (Hg3 eq_refl). simpl. done.
Qed.

Lemma builtin_path_me c n bg :
  stable (keeps (λ s, (fds (me s), chld_blocked (me s), foreground (me s))))
    (builtin_path c n bg).
Proof.
  assert (He : ∀ x, stable (keeps (λ s, (fds (me s), chld_blocked (me s),
                                         foreground (me s)))) (emitM x)) by done.
  unfold builtin_path.
  repeat first
    [ apply stable_ret; apply _
    | apply stable_deref; apply _
    | apply He
    | apply stable_bind; [apply _| |intros ?]
    | match goal with
      | |- stable _ (if ?b then _ else _) => destruct b
      | |- stable _ (match ?x with _ => _ end) => destruct x
      end ].
Qed.

Lemma runPipeline_ret pl s s' :
  runPipeline pl s = Ret tt s' →
  fds (me s') = fds (me s)
  ∧ (chld_blocked (me s) = false → chld_blocked (me s') = false)
  ∧ (foreground (me s) = [] → foreground (me s') = []).
Proof.
  unfold runPipeline. destruct (commands pl) as [|c cs]; [done|]. intros Hr.
  apply bind_inv_Ret in Hr as (b & s1 & Hb & Hr).
  pose proof (builtin_path_me c (length (c :: cs)) (bool_decide (flags pl = INBACKGROUND)) s)
    as Hk.
  rewrite Hb in Hk. unfold keeps in Hk. simpl in Hk. injection Hk as Hf Hbl Hg.
  destruct b.
  - injection Hr as <-. rewrite Hf, Hbl, Hg. done.
  - apply general_path_ret in Hr as (Hf' & Hb' & Hg').
    split; [congruence|]. split; [done|]. intros Hnil. rewrite Hg', Hg, Hnil.
    by destruct (bool_decide _).
Qed.

Lemma run_loop_ret k : ∀ h p s s',
  run_loop k h p s = Ret tt s' →
  fds (me s') = fds (me s)
  ∧ (chld_blocked (me s) = false → chld_blocked (me s') = false)
  ∧ (foreground (me s) = [] → foreground (me s') = []).
Proof.
  induction k as [|k IH]; intros h p s s' Hr.
  - by injection Hr as <-.
  - simpl in Hr.
    apply bind_inv_Ret in Hr as (a & s1 & Ha & Hr).
    destruct p as [a'|]; [|done]. injection Ha as -> <-.
    apply bind_inv_Ret in Hr as (node & s1 & Hn & Hr).
    destruct (h !! a) as [node'|]; [|done]. injection Hn as -> <-.
    apply bind_inv_Ret in Hr as (pl & s1 & Hp & Hr).
    destruct (ps_pipeline node) as [pl'|]; [|done]. injection Hp as -> <-.
    apply bind_inv_Ret in Hr as ([] & s1 & Hp & Hr).
    apply runPipeline_ret in Hp as (Hf1 & Hb1 & Hg1).
    apply IH in Hr as (Hf2 & Hb2 & Hg2).
    split; [congruence|]. split; auto.
Qed.

Lemma handleLine_ret s s' :
  handleLine s = Ret tt s' →
  fds (me s') = fds (me s)
  ∧ (chld_blocked (me s) = false → chld_blocked (me s') = false)
  ∧ (foreground (me s) = [] → foreground (me s') = []).
Proof.
  unfold handleLine. intros Hr.
  apply bind_inv_Ret in Hr as ([l e] & s1 & Hg & Hr).
  assert (Hme : fds (me s1) = fds (me s) ∧ chld_blocked (me s1) = chld_blocked (me s)
                ∧ foreground (me s1) = foreground (me s)).
  { unfold getLine in Hg. destruct (input (os s)) as [|[? ?] ?]; by injection Hg as _ _ <-. }
  destruct Hme as (Hf & Hb & Hfg). simpl in Hr.
  destruct (bool_decide (e = Some EIO)).
  { injection Hr as <-. simpl. rewrite Hf, Hb, Hfg. done. }
  destruct l as [line|]; [|done].
  destruct (removeEmptyPipelines _ _) as [[[h p] c]|]; [|done].
  destruct (bool_decide (c = -1)).
  { injection Hr as <-. simpl. rewrite Hf, Hb, Hfg. done. }
  apply run_loop_ret in Hr as (Hf' & Hb' & Hg').
  rewrite Hb, Hfg in *. split; [congruence|done].
Qed.

(** X15.  Between two lines the shell is as it was. Whenever the loop of
    [main] is still running after some turns, whatever the lines were and
    whatever failed in the children: the shell has exactly the descriptors
    it had before (none leaked, none lost), and if the termination
    notification was not blocked and no foreground child was registered
    before, this is so again. *)
Theorem shell_is_restored_between_lines fuel tty s s' :
  main_loop fuel tty s = Ret tt s' →
  fds (me s') = fds (me s)
  ∧ (chld_blocked (me s) = false → chld_blocked (me s') = false)
  ∧ (foreground (me s) = [] → foreground (me s') = []).
Proof.
  revert s. induction fuel as [|fuel IH]; intros s Hr.
  - by injection Hr as <-.
  - simpl in Hr. apply bind_inv_Ret in Hr as ([] & s1 & Hp & Hr).
    assert (Hme : fds (me s1) = fds (me s) ∧ chld_blocked (me s1) = chld_blocked (me s)
                  ∧ foreground (me s1) = foreground (me s)).
    { destruct tty; by injection Hp as <-. }
    destruct Hme as (Hf & Hb & Hfg).
    apply bind_inv_Ret in Hr as ([] & s2 & Hh & Hr).
    apply handleLine_ret in Hh as (Hf2 & Hb2 & Hg2).
    apply IH in Hr as (Hf3 & Hb3 & Hg3).
    rewrite Hb, Hfg in *. split; [congruence|]. split; auto.
Qed.

End Between.

(** One turn of the sample shell on ["true ; ; false"]. *)
Lemma shell_is_restored_between_lines_witness :
  ∃ s', @main_loop sample_env 1 true (sample_state ["true ; ; false"]) = Ret tt s'
        ∧ fds (me s') = fds sample_proc
        ∧ chld_blocked (me s') = false
        ∧ foreground (me s') = []
        ∧ length (procs (os s')) = 2%nat.
Proof.
  assert (Hrun : ∃ s', @main_loop sample_env 1 true (sample_state ["true ; ; false"])
                       = Ret tt s' ∧ length (procs (os s')) = 2%nat).
  { eexists. split; vm_compute; reflexivity. }
  destruct Hrun as (s' & Hrun & Hlen).
  destruct (@shell_is_restored_between_lines sample_env _ _ _ _ Hrun) as (Hf & Hb & Hg).
  exists s'. split; [exact Hrun|]. split; [exact Hf|].
  split; [exact (Hb eq_refl)|]. split; [exact (Hg eq_refl)|exact Hlen].
Defined.

(** * No [NULL] pointer is followed on a valid line *)

Lemma safe_bind {A B} (m : M A) (k : A → M B) :
  safe m → (∀ a, safe (k a)) → safe (bind m k).
Proof.
  intros Hm Hk s. unfold bind. specialize (Hm s).
  destruct (m s) as [a s1| | |]; try done. apply Hk.
Qed.

Lemma safe_ret {A} (a : A) : safe (ret a).
Proof. by intros s. Qed.

Lemma safe_ret_bind {A B} (a : A) (k : A → M B) : safe (k a) → safe (bind (ret a) k).
Proof. intros Hk s. apply Hk. Qed.

Ltac prim_safe := intros s; simpl; repeat case_match; first [exact I | discriminate | congruence].

Lemma safe_emitM c : safe (emitM c).
Proof. prim_safe. Qed.
Lemma safe_sys_exit {A} st : safe (@sys_exit A st).
Proof. prim_safe. Qed.
Lemma safe_sys_dup fd : safe (sys_dup fd).
Proof. unfold sys_dup. prim_safe. Qed.
Lemma safe_sys_close fd : safe (sys_close fd).
Proof. unfold sys_close. prim_safe. Qed.
Lemma safe_sys_pipe : safe sys_pipe.
Proof. unfold sys_pipe. prim_safe. Qed.
Lemma safe_sys_fork child : safe (sys_fork child).
Proof. intros s. unfold sys_fork. destruct (faulty (os s)); [done|]. by destruct (ending_of _). Qed.
Lemma safe_block : safe blockChildSignal.
Proof. prim_safe. Qed.
Lemma safe_unblock : safe unblockChildSignal.
Proof. prim_safe. Qed.
Lemma safe_register p : safe (registerForegroundChild p).
Proof. prim_safe. Qed.
Lemma safe_wait : safe waitForForegroundChildren.
Proof. prim_safe. Qed.

Ltac safe_go :=
  repeat first
    [ apply safe_ret | apply safe_emitM | apply safe_sys_exit | apply safe_sys_dup
    | apply safe_sys_close | apply safe_sys_pipe | apply safe_sys_fork
    | apply safe_block | apply safe_unblock | apply safe_register | apply safe_wait
    | apply safe_bind; [|intros ?]
    | match goal with
      | |- safe (if ?b then _ else _) => destruct b
      | |- safe (match ?x with _ => _ end) => destruct x
      end
    | assumption ].

Lemma safe_closeFileDescriptor fd : safe (closeFileDescriptor fd).
Proof. unfold closeFileDescriptor. safe_go. Qed.

Section Safe.
Context `{Externals}.

Lemma safe_runCommand com rd pf bg : safe (runCommand com rd pf bg).
Proof. unfold runCommand. safe_go. Qed.

Lemma safe_stage_loop cs : ∀ rd bg, safe (stage_loop cs rd bg).
Proof.
  induction cs as [|c cs IH]; intros rd bg; simpl; [safe_go|].
  apply safe_bind; [apply safe_sys_pipe|intros [pf|]]; [|safe_go].
  apply safe_bind; [apply safe_runCommand|intros _].
  apply safe_bind; [apply safe_closeFileDescriptor|intros _].
  apply safe_bind; [apply safe_closeFileDescriptor|intros _]. apply IH.
Qed.

Lemma safe_general_path cs bg : cs ≠ [] → safe (general_path cs bg).
Proof.
  intros Hne. unfold general_path.
  apply safe_bind; [apply safe_sys_dup|intros [rd0|]]; [|safe_go].
  apply safe_bind; [apply safe_block|intros _].
  apply safe_bind; [apply safe_stage_loop|intros rd].
  destruct (last cs) as [c|] eqn:Hl; [|by apply last_None in Hl].
  apply safe_bind; [apply safe_ret|intros c'].
  apply safe_bind; [apply safe_runCommand|intros _].
  apply safe_bind; [apply safe_closeFileDescriptor|intros _].
  safe_go.
Qed.

Lemma safe_runPipeline pl : valid_pipeline (Some pl) → safe (runPipeline pl).
Proof.
  intros (? & [= <-] & Hne & Hall). unfold runPipeline.
  destruct (commands pl) as [|c cs] eqn:Hc; [done|].
  apply Forall_cons in Hall as [(com & -> & Ha) _].
  apply safe_bind; [|intros [|]; [apply safe_ret|by apply safe_general_path]].
  unfold builtin_path. destruct (bool_decide _); [|apply safe_ret].
  apply (safe_ret_bind com). destruct (_ && _); [|apply safe_ret].
  unfold getArgVector. destruct (args com) as [|name rest] eqn:Hargs; [done|].
  apply (safe_ret_bind name). destruct (getBuiltin name) as [b|]; [|apply safe_ret].
  apply (safe_ret_bind (name :: rest)). safe_go.
Qed.

Lemma safe_run_list pls :
  Forall (λ pl, valid_pipeline (Some pl)) pls → safe (run_list pls).
Proof.
  induction 1 as [|pl pls Hv _ IH]; simpl; [apply safe_ret|].
  apply safe_bind; [by apply safe_runPipeline|done].
Qed.

(** X16.  On a line of valid pipelines the shell's own process follows no
    [NULL] pointer and never turns into another program, whatever fails: the
    loop of [handleLine] over the line returns, or the shell exits with
    [EXIT_FAILURE]. *)
Theorem valid_lines_never_crash_the_shell h l s :
  cycle h l → Forall (λ x, valid_pipeline x.2) l →
  match run_loop (length l) h (head_of l) s with
  | Ret _ _ => True
  | Exit st _ => st = EXIT_FAILURE
  | _ => False
  end.
Proof.
  intros (_ & Hne & Hc) Hv.
  assert (Hnon : Forall (λ x, isEmptyPipeline x.2 = false) l).
  { eapply Forall_impl; [exact Hv|]. intros [a p] (pl & -> & Hcs & Hall). simpl in *.
    destruct (commands pl) as [|[com|] [|c' cs]]; try done.
    by apply Forall_cons in Hall as [(com & ? & _) _]. }
  assert (Hl : run_loop (length l) h (head_of l) s = run_list (omap snd l) s).
  { replace (head_of l) with (Some (first_addr l (first_addr l 0%nat)))
      by (by destruct l).
    by apply run_loop_list. }
  assert (Hpls : Forall (λ pl, valid_pipeline (Some pl)) (omap snd l)).
  { clear -Hv. induction Hv as [|[a p] l Hx _ IH]; [constructor|].
    simpl in *. destruct Hx as (pl & -> & Hx). simpl. constructor; [|done].
    by exists pl. }
  pose proof (safe_run_list _ Hpls s) as Hs. rewrite <- Hl in Hs.
  destruct (run_loop (length l) h (head_of l) s) as [a s1|st s1|fl a s1|s1] eqn:Hr;
    try done.
  by apply exits_run_loop in Hr.
Qed.

End Safe.

(** The two pipelines left of ["true ; ; false"], on a machine where the
    next call fails: the shell exits, it does not crash. *)
Lemma valid_lines_never_crash_the_shell_witness :
  ∃ s', @run_loop sample_env 2 (link line_true_then_false 1%nat) (Some 1%nat)
          sample_state_failing
        = Exit EXIT_FAILURE s'.
Proof.
  assert (Hc : cycle (link line_true_then_false 1%nat) line_true_then_false).
  { split; [|split; [done|]].
    - apply (bool_decide_unpack (NoDup _)). vm_compute. exact I.
    - repeat split; vm_compute; reflexivity. }
  pose proof (@valid_lines_never_crash_the_shell sample_env _ _ sample_state_failing Hc)
    as Hsafe.
  assert (Hrun : ∃ st s', @run_loop sample_env 2 (link line_true_then_false 1%nat)
                            (Some 1%nat) sample_state_failing = Exit st s').
  { eexists _, _. vm_compute. reflexivity. }
  destruct Hrun as (st & s' & Hrun).
  change (length line_true_then_false) with 2%nat in Hsafe.
  change (head_of line_true_then_false) with (Some 1%nat) in Hsafe.
  rewrite Hrun in Hsafe. exists s'. rewrite Hrun. f_equal. apply Hsafe.
  repeat constructor; eexists; (split; [reflexivity|]); (split; [discriminate|]);
    repeat constructor; eexists; (split; [reflexivity|discriminate]).
Defined.

(** * Pipes, redirections and sessions *)

Section PipeAndRedirection.
Context `{Externals}.



End PipeAndRedirection.

Section Sessions.
Context `{Externals}.
Variable bg : bool.

#[local] Instance children_lead_refl : Reflexive (children_lead bg).
Proof. intros s. split; [done|]. exists []. by rewrite app_nil_r. Qed.

#[local] Instance children_lead_trans : Transitive (children_lead bg).
Proof.
  intros s1 s2 s3 (Hs1 & n1 & Hp1 & Hf1) (Hs2 & n2 & Hp2 & Hf2). split; [congruence|].
  exists (n1 ++ n2). split; [by rewrite Hp2, Hp1, <- (assoc_L (++))|].
  by apply Forall_app.
Qed.

Ltac prim_lead :=
  intros s; simpl; repeat case_match; simpl;
  (split; [reflexivity|exists []; by rewrite app_nil_r]).

Lemma lead_emitM c : stable (children_lead bg) (emitM c).
Proof. prim_lead. Qed.
Lemma lead_sys_dup fd : stable (children_lead bg) (sys_dup fd).
Proof. unfold sys_dup. prim_lead. Qed.
Lemma lead_sys_close fd : stable (children_lead bg) (sys_close fd).
Proof. unfold sys_close. prim_lead. Qed.
Lemma lead_sys_pipe : stable (children_lead bg) sys_pipe.
Proof. unfold sys_pipe. prim_lead. Qed.
Lemma lead_sys_exit {A} st : stable (children_lead bg) (@sys_exit A st).
Proof. prim_lead. Qed.
Lemma lead_block : stable (children_lead bg) blockChildSignal.
Proof. prim_lead. Qed.
Lemma lead_unblock : stable (children_lead bg) unblockChildSignal.
Proof. prim_lead. Qed.
Lemma lead_register p : stable (children_lead bg) (registerForegroundChild p).
Proof. prim_lead. Qed.
Lemma lead_wait : stable (children_lead bg) waitForForegroundChildren.
Proof. prim_lead. Qed.

Lemma lead_sys_fork com rd pf :
  stable (children_lead bg) (sys_fork (runCommand_child com rd pf bg)).
Proof.
  intros s. unfold sys_fork. destruct (faulty (os s)).
  { simpl. split; [done|]. exists []. by rewrite app_nil_r. }
  set (sb := {| me := born (next_pid (tick (os s))) (me s); os := new_pid (tick (os s)) |}).
  pose proof (child_final com rd pf bg sb) as (_ & _ & _ & Hsl & Hp & _).
  rewrite <- ending_of_state in Hsl, Hp.
  destruct (ending_of (runCommand_child com rd pf bg sb)) as [e sc]. simpl in *.
  split; [done|]. eexists [_]. split; [simpl; by rewrite Hp|].
  constructor; [|done]. simpl. rewrite Hsl. by destruct bg.
Qed.

Hint Resolve lead_emitM lead_sys_dup lead_sys_close lead_sys_pipe lead_sys_exit
  lead_block lead_unblock lead_register lead_wait lead_sys_fork : stable.

Lemma lead_closeFileDescriptor fd : stable (children_lead bg) (closeFileDescriptor fd).
Proof. unfold closeFileDescriptor. stable_go. Qed.
Hint Resolve lead_closeFileDescriptor : stable.

Lemma lead_runCommand com rd pf : stable (children_lead bg) (runCommand com rd pf bg).
Proof. unfold runCommand. stable_go. Qed.
Hint Resolve lead_runCommand : stable.

Lemma lead_stage_loop cs : ∀ rd, stable (children_lead bg) (stage_loop cs rd bg).
Proof. induction cs as [|c cs IH]; intros rd; simpl; stable_go. Qed.
Hint Resolve lead_stage_loop : stable.

Lemma lead_general_path cs : stable (children_lead bg) (general_path cs bg).
Proof. unfold general_path. stable_go. Qed.

(** X18.  Sessions are per process. Every child of a background pipeline
    calls [setsid] for itself, so each of them leads a session of its own (a
    pipeline of N commands makes N sessions, not one); no child of a
    foreground pipeline does, and the shell itself never does. This holds
    however the pipeline ends; when no system call fails there is one such
    child per command. *)
Theorem each_background_child_leads_a_session cs s :
  children_lead bg s (state_of (general_path cs bg s))
  ∧ (no_faults (os s) → cs ≠ [] → is_Some (fds (me s) !! STDIN_FILENO) →
     is_Some (fds (me s) !! STDOUT_FILENO) →
     ∃ s' chs, general_path cs bg s = Ret tt s'
               ∧ procs (os s') = procs (os s) ++ chs
               ∧ length chs = length cs
               ∧ Forall (λ ch, session_leader (c_proc ch) = bg) chs).
Proof.
  pose proof (lead_general_path cs s) as Hlead. split; [done|].
  intros Hn Hne [i0 H0] [o1 H1].
  destruct (general_path_ok cs bg s i0 o1 Hn Hne H0 H1)
    as (s' & rd0 & sts & chs & Hrun & _ & _ & _ & _ & _ & Hlen & _ & _ & _ & Hprocs
        & Hpids & _).
  exists s', chs. split; [done|]. split; [done|]. split.
  { rewrite <- Hlen, <- (length_map c_pid chs), Hpids. by rewrite length_map. }
  rewrite Hrun in Hlead. destruct Hlead as (_ & new & Hnew & Hall). simpl in Hnew.
  rewrite Hprocs in Hnew. by apply app_inv_head in Hnew as ->.
Qed.

End Sessions.


(** [sleep 5 | cat] in the background: two children, two sessions. *)
Lemma each_background_child_leads_a_session_witness :
  ∃ s' ch1 ch2,
    @general_path sample_env sleep_cat true (sample_state []) = Ret tt s'
    ∧ procs (os s') = [ch1; ch2]
    ∧ session_leader (c_proc ch1) = true ∧ session_leader (c_proc ch2) = true
    ∧ session_leader (me s') = false.
Proof.
  destruct (@each_background_child_leads_a_session sample_env true sleep_cat
              (sample_state [])) as [(Hme & _) Hok].
  destruct Hok as (s' & chs & Hrun & Hprocs & Hlen & Hall).
  { intros n. reflexivity. } { discriminate. } { by eexists. } { by eexists. }
  destruct chs as [|ch1 [|ch2 [|? ?]]]; try discriminate Hlen.
  apply Forall_cons in Hall as [Hl1 Hall]. apply Forall_cons in Hall as [Hl2 _].
  exists s', ch1, ch2. split; [exact Hrun|]. split; [exact Hprocs|].
  split; [exact Hl1|]. split; [exact Hl2|]. rewrite Hrun in Hme. exact Hme.
Defined.
